(** * Sudoku engine: board model, validator, solver and generator

    A shallow embedding of [sudoku_module.c] (board helpers, validator,
    randomized backtracking solver, puzzle carving) together with the
    properties of its specification.

    Conventions of the embedding:
    - [int] values that are only stored and compared (cell contents, the
      difficulty, result codes) are [Z]; array indices that the code keeps
      inside 0..8 are [nat];
    - [SudokuBoard*] is [option SudokuBoard] ([None] is the null pointer);
      a function that writes through the pointer returns the new board;
    - the process-wide random stream (libc's [srand]/[rand] and the flag
      [g_seeded]) is an explicit [World] threaded through every call;
    - [solve_backtrack] recurses on the C stack; here it takes the allowed
      recursion depth as an argument and answers [None] when that depth is
      used up.  The public entry points supply [SOLVE_DEPTH] = 82, which
      is shown to be always enough for a 9x9 board. *)

From Stdlib Require Import String Ascii.
From Stdlib Require Import ZArith Lia List Bool.
From stdpp Require Import base list.
Import ListNotations.

Local Open Scope Z_scope.

(** ** Board model *)

Definition SUDOKU_SIZE : nat := 9.

(** [struct SudokuBoard { int cell[9][9]; }]: nine rows of nine ints. *)
Abbreviation SudokuBoard := (list (list Z)) (only parsing).

(** A value of the C type always has its 9x9 shape. *)
Definition board_wf (b : SudokuBoard) : Prop :=
  length b = SUDOKU_SIZE /\ Forall (fun row => length row = SUDOKU_SIZE) b.

(** [b->cell[r][c]] *)
Definition cell (b : SudokuBoard) (r c : nat) : Z :=
  match b !! r with
  | Some row => match row !! c with Some v => v | None => 0 end
  | None => 0
  end.

(** [b->cell[r][c] = v] *)
Definition set_cell (b : SudokuBoard) (r c : nat) (v : Z) : SudokuBoard :=
  match b !! r with
  | Some row => <[r := <[c := v]> row]> b
  | None => b
  end.

(** The index pairs visited by [for r in 0..8, for c in 0..8], in that
    (row-major) order. *)
Definition positions : list (nat * nat) :=
  flat_map (fun r => map (fun c => (r, c)) (seq 0 SUDOKU_SIZE)) (seq 0 SUDOKU_SIZE).

Inductive SudokuResult : Type :=
| SUDOKU_OK
| SUDOKU_ERR_INVALID_ARG
| SUDOKU_ERR_UNSOLVABLE
| SUDOKU_ERR_IO.

(** [enum SudokuDifficulty]; a caller can pass any [int]. *)
Definition SUDOKU_DIFFICULTY_EASY : Z := 0.
Definition SUDOKU_DIFFICULTY_MEDIUM : Z := 1.
Definition SUDOKU_DIFFICULTY_HARD : Z := 2.

Definition sudoku_clear (board : option SudokuBoard) : option SudokuBoard :=
  match board with
  | None => None
  | Some b => Some (fold_left (fun acc '(r, c) => set_cell acc r c 0) positions b)
  end.

(** [memcpy(dst->cell, src->cell, sizeof dst->cell)]: the result is the
    new contents of [dst]. *)
Definition sudoku_copy (dst src : option SudokuBoard) : option SudokuBoard :=
  match dst, src with
  | Some _, Some s => Some s
  | _, _ => dst
  end.

(** ** Validator *)

Definition is_in_range_1_9 (v : Z) : bool := (v >=? 1) && (v <=? 9).

Definition sudoku_can_place (board : option SudokuBoard) (row col value : Z) : bool :=
  match board with
  | None => false
  | Some b =>
      if (row <? 0) || (row >=? 9) || (col <? 0) || (col >=? 9) then false
      else if negb (is_in_range_1_9 value) then false
      else
        let r := Z.to_nat row in
        let c := Z.to_nat col in
        if existsb (fun i => (cell b r i =? value) || (cell b i c =? value)) (seq 0 9)
        then false
        else
          let br := Z.to_nat (Z.quot row 3 * 3) in
          let bc := Z.to_nat (Z.quot col 3 * 3) in
          if existsb (fun r' => existsb (fun c' => cell b r' c' =? value) (seq bc 3))
                     (seq br 3)
          then false
          else true
  end.

Definition sudoku_is_valid_partial (board : option SudokuBoard) : bool :=
  match board with
  | None => false
  | Some b =>
      forallb (fun '(r, c) =>
                 let v := cell b r c in
                 if v =? 0 then true
                 else if negb (is_in_range_1_9 v) then false
                 else
                   let tmp := set_cell b r c 0 in
                   sudoku_can_place (Some tmp) (Z.of_nat r) (Z.of_nat c) v)
              positions
  end.

(** ** Hole counting and the difficulty table *)

Definition find_empty_cell (b : SudokuBoard) : option (nat * nat) :=
  find (fun '(r, c) => cell b r c =? 0) positions.

Definition count_holes (b : SudokuBoard) : Z :=
  fold_left (fun holes '(r, c) => if cell b r c =? 0 then holes + 1 else holes)
            positions 0.

Definition sudoku_holes_for_difficulty (difficulty : Z) : Z :=
  if difficulty =? SUDOKU_DIFFICULTY_EASY then 35
  else if difficulty =? SUDOKU_DIFFICULTY_MEDIUM then 45
  else if difficulty =? SUDOKU_DIFFICULTY_HARD then 55
  else 45.

(** ** The random stream, the solver and the generator *)

Section Engine.

(** libc's generator: [srand] installs the state determined by the
    seed, [rand] yields a value in 0..RAND_MAX and the next state. *)
Variable RngState : Type.
Variable srand : Z -> RngState.
Variable rand : RngState -> N * RngState.

Record World : Type := mkWorld {
  g_seeded : bool;
  libc_rng : RngState
}.

Definition sudoku_seed (seed : Z) (w : World) : World :=
  {| g_seeded := true; libc_rng := srand seed |}.

Definition seed_if_needed (w : World) : World :=
  if g_seeded w then w else sudoku_seed 0 w.

Definition rand_int (max_exclusive : Z) (w : World) : Z * World :=
  let '(x, s) := rand (libc_rng w) in
  (Z.rem (Z.of_N x) max_exclusive, {| g_seeded := g_seeded w; libc_rng := s |}).

(** The body of the Fisher-Yates loop for [i], [i-1], ..., 1. *)
Fixpoint shuffle_from (i : nat) (a : list Z) (w : World) : list Z * World :=
  match i with
  | O => (a, w)
  | S i' =>
      let '(j, w') := rand_int (Z.of_nat i + 1) w in
      let j := Z.to_nat j in
      let tmp := default 0 (a !! i) in
      let a := <[i := default 0 (a !! j)]> a in
      let a := <[j := tmp]> a in
      shuffle_from i' a w'
  end.

Definition shuffle_ints (a : list Z) (n : nat) (w : World) : list Z * World :=
  shuffle_from (n - 1) a w.

(** The candidate loop of [solve_backtrack]; [rec] is the recursive
    call.  The board handed to the next candidate is the one the failed
    recursive call left behind, with the probed cell reset to 0. *)
Fixpoint try_values (rec : SudokuBoard -> World -> option (bool * SudokuBoard * World))
         (row col : nat) (nums : list Z) (b : SudokuBoard) (w : World)
  : option (bool * SudokuBoard * World) :=
  match nums with
  | [] => Some (false, b, w)
  | v :: rest =>
      if sudoku_can_place (Some b) (Z.of_nat row) (Z.of_nat col) v then
        match rec (set_cell b row col v) w with
        | None => None
        | Some (true, b', w') => Some (true, b', w')
        | Some (false, b', w') =>
            try_values rec row col rest (set_cell b' row col 0) w'
        end
      else try_values rec row col rest b w
  end.

Fixpoint solve_backtrack (depth : nat) (b : SudokuBoard) (w : World)
  : option (bool * SudokuBoard * World) :=
  match depth with
  | O => None
  | S depth' =>
      match find_empty_cell b with
      | None => Some (true, b, w)
      | Some (row, col) =>
          let nums := map (fun i => Z.of_nat i + 1) (seq 0 9) in
          let '(nums, w1) := shuffle_ints nums 9 w in
          try_values (solve_backtrack depth') row col nums b w1
      end
  end.

(** One frame per empty cell plus the frame that finds none. *)
Definition SOLVE_DEPTH : nat := 82.

Definition sudoku_solve (in_out_board : option SudokuBoard) (w : World)
  : option (SudokuResult * option SudokuBoard * World) :=
  match in_out_board with
  | None => Some (SUDOKU_ERR_INVALID_ARG, None, w)
  | Some b =>
      let w := seed_if_needed w in
      if negb (sudoku_is_valid_partial (Some b))
      then Some (SUDOKU_ERR_UNSOLVABLE, Some b, w)
      else
        match solve_backtrack SOLVE_DEPTH b w with
        | None => None
        | Some (true, b', w') => Some (SUDOKU_OK, Some b', w')
        | Some (false, b', w') => Some (SUDOKU_ERR_UNSOLVABLE, Some b', w')
        end
  end.

Definition sudoku_generate_solution (out_solution : option SudokuBoard) (w : World)
  : option (SudokuResult * option SudokuBoard * World) :=
  match out_solution with
  | None => Some (SUDOKU_ERR_INVALID_ARG, None, w)
  | Some _ =>
      let w := seed_if_needed w in
      match sudoku_clear out_solution with
      | None => None (* not reached: [out_solution] is not null here *)
      | Some b =>
          match solve_backtrack SOLVE_DEPTH b w with
          | None => None
          | Some (true, b', w') => Some (SUDOKU_OK, Some b', w')
          | Some (false, b', w') => Some (SUDOKU_ERR_UNSOLVABLE, Some b', w')
          end
      end
  end.

(** The state of the carving loop: [*out_puzzle], [tries] and the
    random stream. *)
Record Carve : Type := mkCarve {
  puzzle : SudokuBoard;
  tries : Z;
  world : World
}.

Definition max_tries : Z := 2000.

(** The loop condition
    [count_holes(out_puzzle) < target_holes && tries < max_tries]. *)
Definition carve_cond (target_holes : Z) (s : Carve) : bool :=
  (count_holes (puzzle s) <? target_holes) && (tries s <? max_tries).

(** One execution of the loop body. *)
Definition carve_body (s : Carve) : option Carve :=
  let tries := tries s + 1 in
  let '(rr, w1) := rand_int 9 (world s) in
  let '(cc, w2) := rand_int 9 w1 in
  let rr := Z.to_nat rr in
  let cc := Z.to_nat cc in
  if cell (puzzle s) rr cc =? 0 then Some (mkCarve (puzzle s) tries w2)
  else
    let saved := cell (puzzle s) rr cc in
    let p := set_cell (puzzle s) rr cc 0 in
    let tmp := p in
    match sudoku_solve (Some tmp) w2 with
    | None => None
    | Some (SUDOKU_OK, _, w3) => Some (mkCarve p tries w3)
    | Some (_, _, w3) => Some (mkCarve (set_cell p rr cc saved) tries w3)
    end.

(** The [while] loop, allowed [iters] iterations; [None] when the
    condition still holds after that many (or the solver ran out of
    depth). *)
Fixpoint carve_loop (iters : nat) (target_holes : Z) (s : Carve) : option Carve :=
  if carve_cond target_holes s then
    match iters with
    | O => None
    | S iters' =>
        match carve_body s with
        | None => None
        | Some s' => carve_loop iters' target_holes s'
        end
    end
  else Some s.

(** [out_puzzle] and [out_solution] point to two distinct boards, as in
    every caller ([&puzzle], [&solution]).  The last component of the
    state is what [*out_puzzle] holds during the loop. *)
Definition sudoku_generate_puzzle (out_puzzle out_solution : option SudokuBoard)
           (difficulty : Z) (w : World)
  : option (SudokuResult * option SudokuBoard * option SudokuBoard * World) :=
  match out_puzzle, out_solution with
  | Some _, Some _ =>
      let w := seed_if_needed w in
      match sudoku_generate_solution out_solution w with
      | None => None
      | Some (SUDOKU_OK, out_solution, w1) =>
          match sudoku_copy out_puzzle out_solution with
          | None => None (* not reached: [out_puzzle] is not null here *)
          | Some p =>
              let target_holes := sudoku_holes_for_difficulty difficulty in
              match carve_loop (Z.to_nat max_tries) target_holes (mkCarve p 0 w1) with
              | None => None
              | Some s => Some (SUDOKU_OK, Some (puzzle s), out_solution, world s)
              end
          end
      | Some (r, out_solution, w1) => Some (r, out_puzzle, out_solution, w1)
      end
  | _, _ => Some (SUDOKU_ERR_INVALID_ARG, out_puzzle, out_solution, w)
  end.

(** A client run: a sequence of calls of the public API, as the
    console programs make them ([sudoku_seed] once, then one
    [sudoku_generate_puzzle] per page), and what each call hands back. *)
Inductive ApiCall : Type :=
| CallSeed (seed : Z)
| CallSolve (in_out_board : option SudokuBoard)
| CallGenerateSolution (out_solution : option SudokuBoard)
| CallGeneratePuzzle (out_puzzle out_solution : option SudokuBoard) (difficulty : Z).

Inductive ApiReturn : Type :=
| RetSeed
| RetSolve (r : SudokuResult) (in_out_board : option SudokuBoard)
| RetGenerateSolution (r : SudokuResult) (out_solution : option SudokuBoard)
| RetGeneratePuzzle (r : SudokuResult) (out_puzzle out_solution : option SudokuBoard).

Definition api_call (c : ApiCall) (w : World) : option (ApiReturn * World) :=
  match c with
  | CallSeed seed => Some (RetSeed, sudoku_seed seed w)
  | CallSolve b =>
      match sudoku_solve b w with
      | Some (r, b', w') => Some (RetSolve r b', w')
      | None => None
      end
  | CallGenerateSolution out =>
      match sudoku_generate_solution out w with
      | Some (r, s, w') => Some (RetGenerateSolution r s, w')
      | None => None
      end
  | CallGeneratePuzzle out_puzzle out_solution difficulty =>
      match sudoku_generate_puzzle out_puzzle out_solution difficulty w with
      | Some (r, p, s, w') => Some (RetGeneratePuzzle r p s, w')
      | None => None
      end
  end.

Fixpoint api_run (calls : list ApiCall) (w : World) : option (list ApiReturn * World) :=
  match calls with
  | [] => Some ([], w)
  | c :: rest =>
      match api_call c w with
      | None => None
      | Some (ret, w') =>
          match api_run rest w' with
          | None => None
          | Some (rets, w'') => Some (ret :: rets, w'')
          end
      end
  end.

End Engine.

Arguments mkWorld {RngState}.
Arguments g_seeded {RngState}.
Arguments libc_rng {RngState}.
Arguments mkCarve {RngState}.
Arguments puzzle {RngState}.
Arguments tries {RngState}.
Arguments world {RngState}.
Arguments carve_cond {RngState}.
Arguments sudoku_seed {RngState}.
Arguments seed_if_needed {RngState}.
Arguments rand_int {RngState}.
Arguments shuffle_from {RngState}.
Arguments shuffle_ints {RngState}.
Arguments try_values {RngState}.
Arguments solve_backtrack {RngState}.
Arguments sudoku_solve {RngState}.
Arguments sudoku_generate_solution {RngState}.
Arguments carve_body {RngState}.
Arguments carve_loop {RngState}.
Arguments sudoku_generate_puzzle {RngState}.
Arguments api_call {RngState}.
Arguments api_run {RngState}.

(** A concrete generator for running the engine: the linear congruential
    generator of the C standard's sample [rand]. *)
Definition lcg_srand (seed : Z) : Z := seed mod 4294967296.
Definition lcg_rand (s : Z) : N * Z :=
  let s' := (s * 1103515245 + 12345) mod 4294967296 in
  (Z.to_N ((s' / 65536) mod 32768), s').

(** * Specification vocabulary *)

(** ** Boards *)

(** Every cell holds a non-zero value. *)
Definition board_full (b : SudokuBoard) : Prop :=
  forall r c, (r < 9)%nat -> (c < 9)%nat -> cell b r c <> 0.

(** [value] occurs in row [r], in column [c], in the 3x3 box of [(r, c)]. *)
Definition in_row (b : SudokuBoard) (r : nat) (value : Z) : Prop :=
  exists i, (i < 9)%nat /\ cell b r i = value.

Definition in_col (b : SudokuBoard) (c : nat) (value : Z) : Prop :=
  exists i, (i < 9)%nat /\ cell b i c = value.

Definition in_box (b : SudokuBoard) (r c : nat) (value : Z) : Prop :=
  exists r' c', (r' < 9)%nat /\ (c' < 9)%nat /\
                (r' / 3 = r / 3)%nat /\ (c' / 3 = c / 3)%nat /\ cell b r' c' = value.

(** [(r', c')] lies in the row, the column or the box of [(r, c)]. *)
Definition same_unit (r c r' c' : nat) : Prop :=
  r' = r \/ c' = c \/ ((r' / 3 = r / 3)%nat /\ (c' / 3 = c / 3)%nat).

(** The validity rule of the data model: every non-zero entry is a digit
    1..9 that occurs nowhere else in its row, its column and its box. *)
Definition board_valid (b : SudokuBoard) : Prop :=
  forall r c, (r < 9)%nat -> (c < 9)%nat -> cell b r c <> 0 ->
    1 <= cell b r c <= 9 /\
    forall r' c', (r' < 9)%nat -> (c' < 9)%nat -> (r', c') <> (r, c) ->
                  same_unit r c r' c' -> cell b r' c' <> cell b r c.

(** [s] keeps every given of [b]. *)
Definition board_extends (b s : SudokuBoard) : Prop :=
  forall r c, (r < 9)%nat -> (c < 9)%nat -> cell b r c <> 0 -> cell s r c = cell b r c.

(** [s] is a completion of [b]: a fully filled valid board that keeps the
    givens of [b]. *)
Definition completes (b s : SudokuBoard) : Prop :=
  board_wf s /\ board_full s /\ board_valid s /\ board_extends b s.





(** The number of empty cells among the index pairs [l]. *)
Definition holes_in (b : SudokuBoard) (l : list (nat * nat)) : Z :=
  Z.of_nat (length (List.filter (fun '(r, c) => cell b r c =? 0) l)).

(** ** Searches, carving states and runs *)

Section Vocabulary.

Context {RngState : Type}.
Variable srand : Z -> RngState.
Variable rand : RngState -> N * RngState.

Implicit Types (w : World RngState) (b p s : SudokuBoard) (st : Carve RngState).

(** The outcome of a search started on [b]: it returns; a failed search
    hands back [b] itself; a successful one hands back a full board that
    keeps the givens of [b] and is valid if [b] was. *)
Definition search_post b (res : option (bool * SudokuBoard * World RngState)) : Prop :=
  exists ok b' w',
    res = Some (ok, b', w') /\ board_wf b' /\
    (ok = false -> b' = b) /\
    (ok = true -> board_full b' /\ board_extends b b' /\ (board_valid b -> board_valid b')).

(** What the carving loop keeps true of the puzzle next to its
    solution [s]: every filled cell is the solution's, and the holes do
    not exceed the target. *)
Definition carved_from s (target : Z) st : Prop :=
  board_wf (puzzle st) /\
  (forall r c, (r < 9)%nat -> (c < 9)%nat ->
               cell (puzzle st) r c <> 0 -> cell (puzzle st) r c = cell s r c) /\
  count_holes (puzzle st) <= target.

(** [p] is solved by [sudoku_solve] from every state of the random
    stream. *)
Definition solvable_by_solver p : Prop :=
  forall w, exists q w',
    sudoku_solve srand rand (Some p) w = Some (SUDOKU_OK, Some q, w') /\ completes p q.

(** Two stream states that [seed_if_needed] maps to the same state
    cannot be told apart by any call. *)
Definition same_stream w1 w2 : Prop :=
  seed_if_needed srand w1 = seed_if_needed srand w2.

Definition same_outcome (o1 o2 : option (ApiReturn * World RngState)) : Prop :=
  match o1, o2 with
  | Some (r1, w1), Some (r2, w2) => r1 = r2 /\ same_stream w1 w2
  | None, None => True
  | _, _ => False
  end.

End Vocabulary.

Arguments search_post {RngState}.
Arguments carved_from {RngState}.

(** ** Boards and a random stream to run the engine on *)

Definition empty_board : SudokuBoard := repeat (repeat 0 9%nat) 9%nat.

(** The stream state of a process that called [sudoku_seed(2024)]. *)
Definition seeded_world : World Z := sudoku_seed lcg_srand 2024 (mkWorld false 0).

(** What [sudoku_generate_puzzle] hands back for Easy from
    [seeded_world]. *)
Definition generated_easy
  : option (SudokuResult * option SudokuBoard * option SudokuBoard * World Z) :=
  Eval vm_compute in
    sudoku_generate_puzzle lcg_srand lcg_rand (Some empty_board) (Some empty_board)
                           SUDOKU_DIFFICULTY_EASY seeded_world.

(** The solution run and the exit state of the carving loop inside that
    call. *)
Definition easy_solution_run : option (SudokuResult * option SudokuBoard * World Z) :=
  Eval vm_compute in
    sudoku_generate_solution lcg_srand lcg_rand (Some empty_board) seeded_world.

Definition example_puzzle : SudokuBoard :=
  match generated_easy with Some (_, Some p, _, _) => p | _ => empty_board end.

Definition example_solution : SudokuBoard :=
  match generated_easy with Some (_, _, Some s, _) => s | _ => empty_board end.

Definition easy_carve_run : option (Carve Z) :=
  Eval vm_compute in
    carve_loop lcg_srand lcg_rand (Z.to_nat max_tries)
               (sudoku_holes_for_difficulty SUDOKU_DIFFICULTY_EASY)
               (mkCarve example_solution 0 (mkWorld true 2269102680)).

(** A valid partial board without completion: row 0 holds 1..8 and the
    9 of the last column sits in row 1. *)
Definition dead_end_board : SudokuBoard :=
  [1; 2; 3; 4; 5; 6; 7; 8; 0] :: [0; 0; 0; 0; 0; 0; 0; 0; 9]
    :: repeat (repeat 0 9%nat) 7%nat.

(** A board with the digit 5 twice in row 0. *)
Definition clash_board : SudokuBoard :=
  [5; 5; 0; 0; 0; 0; 0; 0; 0] :: repeat (repeat 0 9%nat) 8%nat.

(** * HTML export and console program *)


(** ** HTML export ([sudoku_module.c]) and the console program ([sudoku_app.c]) *)

(** C strings are the [string] of their characters before the
    terminator; a [const char*] that may be null is an [option string].
    What a function writes to a [FILE*] is the list of the strings of its
    [fputs] calls and of the one-character strings of its [fputc] calls,
    in order; write errors are not looked at by the code and not
    modelled. *)

(** The double quote and the newline, written as escapes in the C
    literals. *)
Definition dquote : ascii := ascii_of_nat 34.
Definition newline : ascii := ascii_of_nat 10.
Definition carriage_return : ascii := ascii_of_nat 13.
Definition backslash : ascii := ascii_of_nat 92.
Definition dq : string := String dquote EmptyString.
Definition nl : string := String newline EmptyString.

(** The value of a character (ASCII), as an [int]. *)
Definition char_code (ch : ascii) : Z := Z.of_N (N_of_ascii ch).

Definition fputs (s : string) : list string := [s].

(** [fputc(c, f)] writes [(unsigned char) c]. *)
Definition fputc (c : Z) : list string :=
  [String (ascii_of_N (Z.to_N (c mod 256))) EmptyString].

(** The characters of the file, in order. *)
Definition written (out : list string) : list ascii :=
  flat_map list_ascii_of_string out.

Fixpoint html_escaped_from (p : string) : list string :=
  match p with
  | EmptyString => []
  | String ch rest =>
      (if (ch =? "&")%char then fputs "&amp;"
       else if (ch =? "<")%char then fputs "&lt;"
       else if (ch =? ">")%char then fputs "&gt;"
       else if (ch =? dquote)%char then fputs "&quot;"
       else if (ch =? "'")%char then fputs "&#39;"
       else fputc (char_code ch))
      ++ html_escaped_from rest
  end.

(** The characters one character of the text is written as. *)
Definition html_entity (ch : ascii) : list ascii :=
  if (ch =? "&")%char then list_ascii_of_string "&amp;"
  else if (ch =? "<")%char then list_ascii_of_string "&lt;"
  else if (ch =? ">")%char then list_ascii_of_string "&gt;"
  else if (ch =? dquote)%char then list_ascii_of_string "&quot;"
  else if (ch =? "'")%char then list_ascii_of_string "&#39;"
  else [ch].

Definition fprint_html_escaped (s : option string) : list string :=
  html_escaped_from (match s with Some s => s | None => EmptyString end).

Definition is_css_safe_char (ch : ascii) : bool :=
  let c := char_code ch in
  if ((c >=? char_code "a") && (c <=? char_code "z"))
     || ((c >=? char_code "A") && (c <=? char_code "Z")) then true
  else if (c >=? char_code "0") && (c <=? char_code "9") then true
  else if (ch =? "#")%char || (ch =? "(")%char || (ch =? ")")%char
          || (ch =? ",")%char || (ch =? ".")%char || (ch =? "%")%char
          || (ch =? " ")%char || (ch =? "-")%char || (ch =? "_")%char then true
  else false.

Fixpoint css_value_from (p : string) : list string :=
  match p with
  | EmptyString => []
  | String ch rest =>
      (if is_css_safe_char ch then fputc (char_code ch) else [])
      ++ css_value_from rest
  end.

Definition fprint_css_value (s : option string) : list string :=
  css_value_from (match s with Some s => s | None => EmptyString end).

Definition difficulty_label (difficulty : Z) : string :=
  if (difficulty =? SUDOKU_DIFFICULTY_EASY)%Z then "Easy"
  else if (difficulty =? SUDOKU_DIFFICULTY_MEDIUM)%Z then "Medium"
  else if (difficulty =? SUDOKU_DIFFICULTY_HARD)%Z then "Hard"
  else "Medium".

Definition board_is_filled_1_9 (b : option SudokuBoard) : bool :=
  match b with
  | None => false
  | Some b => forallb (fun '(r, c) => is_in_range_1_9 (cell b r c)) positions
  end.

Definition fprint_solution_attr (solved : SudokuBoard) : list string :=
  flat_map (fun '(r, c) => fputc (char_code "0" + cell solved r c)) positions.

(** A pointer tested as a truth value. *)
Definition non_null {A : Type} (p : option A) : bool :=
  match p with Some _ => true | None => false end.

Record SudokuTheme : Type := mkTheme {
  panel_bg : option string;
  cell_hover_bg : option string;
  page_title : option string
}.

(** The page of [sudoku_write_html_page_with_solution], in the order it
    is written: the head up to the script element, *)
Definition page_head (title : string) (css_href : string) : list string :=
  fputs ("<!DOCTYPE html>" ++ nl)
  ++ fputs ("<html lang=" ++ dq ++ "en" ++ dq ++ ">" ++ nl)
  ++ fputs ("<head>" ++ nl)
  ++ fputs ("    <meta charset=" ++ dq ++ "utf-8" ++ dq ++ ">" ++ nl)
  ++ fputs ("    <meta name=" ++ dq ++ "viewport" ++ dq ++ " content=" ++ dq ++ "width=device-width, initial-scale=1" ++ dq ++ ">" ++ nl)
  ++ fputs "    <title>"
  ++ fprint_html_escaped (Some title)
  ++ fputs ("</title>" ++ nl)
  ++ fputs ("    <link rel=" ++ dq ++ "stylesheet" ++ dq ++ " href=" ++ dq)
  ++ fprint_html_escaped (Some css_href)
  ++ fputs (dq ++ ">" ++ nl)
  ++ fputs ("    <script src=" ++ dq ++ "sudoku.js" ++ dq ++ " defer></script>" ++ nl).

(** the style element, *)
Definition page_style (theme : option SudokuTheme) : list string :=
  match theme with
  | Some t =>
      if non_null (panel_bg t) || non_null (cell_hover_bg t) then
        fputs ("    <style>" ++ nl)
        ++ (match panel_bg t with
            | Some bg =>
                fputs "      header h1, main .game, main .difficulty, main .leaderboard { background-color: "
                ++ fprint_css_value (Some bg)
                ++ fputs ("; }" ++ nl)
            | None => []
            end)
        ++ (match cell_hover_bg t with
            | Some bg =>
                fputs "      main .game .container .cell:hover { background-color: "
                ++ fprint_css_value (Some bg)
                ++ fputs ("; }" ++ nl)
            | None => []
            end)
        ++ fputs ("      .cell.given { display:flex; align-items:center; justify-content:center; font-weight:bold; font-size: 1.2em; }" ++ nl)
        ++ fputs ("      .cell.empty { display:flex; align-items:center; justify-content:center; color:#666; }" ++ nl)
        ++ fputs ("    </style>" ++ nl)
      else
        fputs ("    <style>" ++ nl)
      ++ fputs ("      .cell { display:flex; align-items:center; justify-content:center; font-weight:bold; font-size: 1.2em; }" ++ nl)
      ++ fputs ("      .cell.empty { font-weight: normal; color:#666; }" ++ nl)
      ++ fputs ("    </style>" ++ nl)
  | None =>
      fputs ("    <style>" ++ nl)
      ++ fputs ("      .cell { display:flex; align-items:center; justify-content:center; font-weight:bold; font-size: 1.2em; }" ++ nl)
      ++ fputs ("      .cell.empty { font-weight: normal; color:#666; }" ++ nl)
      ++ fputs ("    </style>" ++ nl)
  end.

(** the end of the head, the header and the score box, *)
Definition page_header (title : string) : list string :=
  fputs ("</head>" ++ nl)
  ++ fputs ("<body>" ++ nl)
  ++ fputs ("    <header>" ++ nl)
  ++ fputs "        <h1>"
  ++ fprint_html_escaped (Some title)
  ++ fputs ("</h1>" ++ nl)
  ++ fputs ("        <br><br>" ++ nl)
  ++ fputs ("    </header>" ++ nl)
  ++ fputs ("    <main>" ++ nl)
  ++ fputs ("        <div class=" ++ dq ++ "game" ++ dq ++ ">" ++ nl)
  ++ fputs ("            <div class=" ++ dq ++ "score" ++ dq ++ ">" ++ nl)
  ++ fputs ("                <div class=" ++ dq ++ "time" ++ dq ++ ">Time: 10:00</div>" ++ nl)
  ++ fputs ("                <div class=" ++ dq ++ "points" ++ dq ++ ">Score: 0</div>" ++ nl)
  ++ fputs ("                <div class=" ++ dq ++ "mistakes" ++ dq ++ ">Mistakes: 0/3</div>" ++ nl)
  ++ fputs ("            </div>" ++ nl).

(** the opening tag of the grid, with the solution attribute when a
    solution board is passed and is filled with 1..9, *)
Definition page_container (out_solution : option SudokuBoard) : list string :=
  fputs ("            <div class=" ++ dq ++ "container" ++ dq)
  ++ (match out_solution with
      | Some s =>
          if board_is_filled_1_9 out_solution then
            fputs (" data-solution=" ++ dq)
            ++ fprint_solution_attr s
            ++ fputs dq
          else []
      | None => []
      end)
  ++ fputs (">" ++ nl).

(** the 81 cells in row-major order, *)
Definition page_cells (puzzle : SudokuBoard) : list string :=
  flat_map (fun '(r, c) =>
              let v := cell puzzle r c in
              if (v =? 0)%Z then
                fputs ("                <div class=" ++ dq ++ "cell empty" ++ dq ++ "></div>" ++ nl)
              else
                fputs ("                <div class=" ++ dq ++ "cell given" ++ dq ++ ">")
                ++ fputc (char_code "0" + v)
                ++ fputs ("</div>" ++ nl))
           positions.

(** the difficulty panel, *)
Definition page_difficulty (difficulty : Z) : list string :=
  let lbl := difficulty_label difficulty in
  fputs ("            </div>" ++ nl)
  ++ fputs ("        </div>" ++ nl)
  ++ fputs ("        <div class=" ++ dq ++ "difficulty" ++ dq ++ ">" ++ nl)
  ++ fputs ("            <h2>Difficulty</h2>" ++ nl)
  ++ fputs ("            <ul>" ++ nl)
  ++ fputs "                <li"
  ++ (if (lbl =? "Easy")%string then fputs (" class=" ++ dq ++ "active" ++ dq) else [])
  ++ fputs ("><a href=" ++ dq ++ "sudoku_easy.html" ++ dq ++ ">Easy</a></li>" ++ nl)
  ++ fputs "                <li"
  ++ (if (lbl =? "Medium")%string then fputs (" class=" ++ dq ++ "active" ++ dq) else [])
  ++ fputs ("><a href=" ++ dq ++ "sudoku_medium.html" ++ dq ++ ">Medium</a></li>" ++ nl)
  ++ fputs "                <li"
  ++ (if (lbl =? "Hard")%string then fputs (" class=" ++ dq ++ "active" ++ dq) else [])
  ++ fputs ("><a href=" ++ dq ++ "sudoku_hard.html" ++ dq ++ ">Hard</a></li>" ++ nl)
  ++ fputs ("            </ul>" ++ nl)
  ++ fputs ("            <div class=" ++ dq ++ "buttons" ++ dq ++ ">" ++ nl)
  ++ fputs ("                <button class=" ++ dq ++ "b" ++ dq ++ " data-action=" ++ dq ++ "start" ++ dq ++ ">Start</button>" ++ nl)
  ++ fputs ("                <button class=" ++ dq ++ "b" ++ dq ++ " data-action=" ++ dq ++ "pause" ++ dq ++ ">Pause</button>" ++ nl)
  ++ fputs ("                <button class=" ++ dq ++ "b" ++ dq ++ " data-action=" ++ dq ++ "reset" ++ dq ++ ">Reset</button>" ++ nl)
  ++ fputs ("            </div>" ++ nl)
  ++ fputs ("        </div>" ++ nl).

(** and the leaderboard and the end of the page. *)
Definition page_tail : list string :=
  fputs ("        <div class=" ++ dq ++ "leaderboard" ++ dq ++ ">" ++ nl)
  ++ fputs ("            <h2>Leaderboard</h2>" ++ nl)
  ++ fputs ("            <ol>" ++ nl)
  ++ fputs ("                <li>Malunke</li>" ++ nl)
  ++ fputs ("                <li>Andrius</li>" ++ nl)
  ++ fputs ("                <li>Adomas</li>" ++ nl)
  ++ fputs ("                <li>Irmantas</li>" ++ nl)
  ++ fputs ("                <li>Arvydas</li>" ++ nl)
  ++ fputs ("                <li>Luna</li>" ++ nl)
  ++ fputs ("                <li>Gabija</li>" ++ nl)
  ++ fputs ("                <li>Augustas</li>" ++ nl)
  ++ fputs ("                <li>Kostas</li>" ++ nl)
  ++ fputs ("                <li>Justas</li>" ++ nl)
  ++ fputs ("            </ol>" ++ nl)
  ++ fputs ("        </div>" ++ nl)
  ++ fputs ("    </main>" ++ nl)
  ++ fputs ("    <footer></footer>" ++ nl)
  ++ fputs ("</body>" ++ nl)
  ++ fputs ("</html>" ++ nl).

(** How often the string [m] was written by one [fputs] call. *)
Definition count_chunk (m : string) (out : list string) : nat :=
  length (List.filter (String.eqb m) out).

(** The characters that end or leave a CSS declaration or the style
    element. *)
Definition css_breakers : list ascii :=
  [";"; "{"; "}"; "<"; ">"; dquote; "'"; "/"; backslash; ":"; "&"; "@"; "!"; "*";
   newline; carriage_return]%char.

(** The attribute of the active difficulty link, the opening of the
    solution attribute, and the two kinds of cell. *)
Definition active_attr : string := " class=" ++ dq ++ "active" ++ dq.
Definition data_solution_attr : string := " data-solution=" ++ dq.
Definition empty_cell_div : string :=
  "                <div class=" ++ dq ++ "cell empty" ++ dq ++ "></div>" ++ nl.
Definition given_cell_open : string :=
  "                <div class=" ++ dq ++ "cell given" ++ dq ++ ">".

(** The link of the difficulty panel to the page of difficulty [d]. *)
Definition difficulty_link (file label : string) : string :=
  "><a href=" ++ dq ++ file ++ dq ++ ">" ++ label ++ "</a></li>" ++ nl.

(** The markers of the grid and of the difficulty panel. *)
Definition is_marker (m : string) : Prop :=
  m = active_attr \/ m = data_solution_attr \/ m = empty_cell_div \/ m = given_cell_open.

(** The file a call leaves behind: its path and what was written. *)
Abbreviation WrittenFile := (string * list string)%type (only parsing).

Section HtmlExport.

(** Whether opening the path for writing succeeds. *)
Variable fopen_w : string -> bool.

Definition sudoku_write_html_page_with_solution
           (html_path css_href : option string) (puzzle out_solution : option SudokuBoard)
           (theme : option SudokuTheme) (difficulty : Z)
  : SudokuResult * option WrittenFile :=
  match html_path, css_href, puzzle with
  | Some path, Some css, Some pz =>
      if negb (fopen_w path) then (SUDOKU_ERR_IO, None)
      else
        let title :=
          match theme with
          | Some t => match page_title t with Some s => s | None => "Sudoku"%string end
          | None => "Sudoku"%string
          end in
        (SUDOKU_OK,
         Some (path,
               page_head title css
               ++ page_style theme
               ++ page_header title
               ++ page_container out_solution
               ++ page_cells pz
               ++ page_difficulty difficulty
               ++ page_tail))
  | _, _, _ => (SUDOKU_ERR_INVALID_ARG, None)
  end.

Definition sudoku_write_html_page
           (html_path css_href : option string) (puzzle : option SudokuBoard)
           (theme : option SudokuTheme) (difficulty : Z)
  : SudokuResult * option WrittenFile :=
  sudoku_write_html_page_with_solution html_path css_href puzzle None theme difficulty.

(** *** [sudoku_app.c] *)

(** [tolower] of the C locale. *)
Definition tolower (ch : ascii) : ascii :=
  let c := char_code ch in
  if (c >=? char_code "A")%Z && (c <=? char_code "Z")%Z
  then ascii_of_N (Z.to_N (c + 32))
  else ch.

(** [for (i = 0; i < n; ++i) tmp[i] = tolower(s[i]); tmp[n] = 0]. *)
Fixpoint lower_copy (n : nat) (s : string) : string :=
  match n, s with
  | S n', String ch rest => String (tolower ch) (lower_copy n' rest)
  | _, _ => EmptyString
  end.

Definition parse_difficulty (s : option string) (fallback : Z) : Z :=
  match s with
  | None => fallback
  | Some EmptyString => fallback
  | Some s =>
      let n := String.length s in
      let n := if (32 <=? n)%nat then 31%nat else n in
      let tmp := lower_copy n s in
      if (tmp =? "1")%string || (tmp =? "easy")%string then SUDOKU_DIFFICULTY_EASY
      else if (tmp =? "2")%string || (tmp =? "medium")%string then SUDOKU_DIFFICULTY_MEDIUM
      else if (tmp =? "3")%string || (tmp =? "hard")%string then SUDOKU_DIFFICULTY_HARD
      else fallback
  end.

Definition difficulty_file (d : Z) : string :=
  if (d =? SUDOKU_DIFFICULTY_EASY)%Z then "sudoku_easy.html"
  else if (d =? SUDOKU_DIFFICULTY_MEDIUM)%Z then "sudoku_medium.html"
  else if (d =? SUDOKU_DIFFICULTY_HARD)%Z then "sudoku_hard.html"
  else "sudoku_medium.html".

Definition difficulty_title_suffix (d : Z) : string :=
  if (d =? SUDOKU_DIFFICULTY_EASY)%Z then "Easy"
  else if (d =? SUDOKU_DIFFICULTY_MEDIUM)%Z then "Medium"
  else if (d =? SUDOKU_DIFFICULTY_HARD)%Z then "Hard"
  else "Medium".

(** [write_index_html]; the [int] it returns is a truth value. *)
Definition write_index_html (css_href title : option string) (active : Z)
  : bool * option WrittenFile :=
  if negb (fopen_w "index.html") then (false, None)
  else
    (true,
     Some ("index.html"%string,
           fputs ("<!DOCTYPE html>" ++ nl)
           ++ fputs ("<html lang=" ++ dq ++ "en" ++ dq ++ ">" ++ nl ++ "<head>" ++ nl)
           ++ fputs ("  <meta charset=" ++ dq ++ "utf-8" ++ dq ++ ">" ++ nl)
           ++ fputs ("  <meta name=" ++ dq ++ "viewport" ++ dq ++ " content=" ++ dq ++ "width=device-width, initial-scale=1" ++ dq ++ ">" ++ nl)
           ++ fputs "  <title>"
           ++ fputs (match title with Some t => t | None => "Sudoku" end)
           ++ fputs ("</title>" ++ nl)
           ++ fputs ("  <link rel=" ++ dq ++ "stylesheet" ++ dq ++ " href=" ++ dq)
           ++ fputs (match css_href with Some c => c | None => "style.css" end)
           ++ fputs (dq ++ ">" ++ nl)
           ++ fputs ("</head>" ++ nl ++ "<body>" ++ nl)
           ++ fputs "  <header><h1>"
           ++ fputs (match title with Some t => t | None => "Sudoku" end)
           ++ fputs ("</h1><br><br></header>" ++ nl)
           ++ fputs ("  <main>" ++ nl)
           ++ fputs ("    <div class=" ++ dq ++ "difficulty" ++ dq ++ " style=" ++ dq ++ "width: 360px; height: auto;" ++ dq ++ ">" ++ nl)
           ++ fputs ("      <h2>Choose difficulty</h2>" ++ nl)
           ++ fputs ("      <ul>" ++ nl)
           ++ fputs "        <li"
           ++ (if (active =? SUDOKU_DIFFICULTY_EASY)%Z then fputs (" class=" ++ dq ++ "active" ++ dq) else [])
           ++ fputs ("><a href=" ++ dq ++ "sudoku_easy.html" ++ dq ++ ">Easy</a></li>" ++ nl)
           ++ fputs "        <li"
           ++ (if (active =? SUDOKU_DIFFICULTY_MEDIUM)%Z then fputs (" class=" ++ dq ++ "active" ++ dq) else [])
           ++ fputs ("><a href=" ++ dq ++ "sudoku_medium.html" ++ dq ++ ">Medium</a></li>" ++ nl)
           ++ fputs "        <li"
           ++ (if (active =? SUDOKU_DIFFICULTY_HARD)%Z then fputs (" class=" ++ dq ++ "active" ++ dq) else [])
           ++ fputs ("><a href=" ++ dq ++ "sudoku_hard.html" ++ dq ++ ">Hard</a></li>" ++ nl)
           ++ fputs ("      </ul>" ++ nl)
           ++ fputs ("      <p style=" ++ dq ++ "font-family: sans-serif; font-weight: 600;" ++ dq ++ ">" ++ nl)
           ++ fputs ("        Tip: the page is static. Difficulty switches by loading a different HTML file." ++ nl)
           ++ fputs ("      </p>" ++ nl)
           ++ fputs ("    </div>" ++ nl)
           ++ fputs ("  </main>" ++ nl)
           ++ fputs ("  <footer></footer>" ++ nl)
           ++ fputs ("</body>" ++ nl ++ "</html>" ++ nl))).

End HtmlExport.

Section App.

Context {RngState : Type}.
Variable srand : Z -> RngState.
Variable rand : RngState -> N * RngState.
Variable fopen_w : string -> bool.

(** [generate_one]; [puzzle0] and [solution0] are what the two local
    boards hold before the call, the [int] returned is a truth value, and
    [snprintf] keeps the first 127 characters of the title. *)
Definition generate_one (puzzle0 solution0 : SudokuBoard) (d : Z)
           (css_href base_title : option string) (base_theme : option SudokuTheme)
           (w : World RngState)
  : option (bool * option WrittenFile * World RngState) :=
  match sudoku_generate_puzzle srand rand (Some puzzle0) (Some solution0) d w with
  | None => None
  | Some (SUDOKU_OK, puzzle, solution, w') =>
      let title_buf :=
        substring 0 127
                  ((match base_title with Some t => t | None => "Sudoku" end)
                   ++ " (" ++ difficulty_title_suffix d ++ ")") in
      let theme :=
        match base_theme with
        | Some t => t
        | None => mkTheme None None None
        end in
      let theme := mkTheme (panel_bg theme) (cell_hover_bg theme) (Some title_buf) in
      let '(r, file) :=
        sudoku_write_html_page_with_solution
          fopen_w (Some (difficulty_file d))
          (Some (match css_href with Some c => c | None => "style.css"%string end))
          puzzle solution (Some theme) d in
      Some (match r with SUDOKU_OK => true | _ => false end, file, w')
  | Some (_, _, _, w') => Some (false, None, w')
  end.

End App.

Arguments generate_one {RngState}.

(** The stripping loop of [read_line]: [len] is [strlen buf] on entry. *)
Fixpoint strip_newlines (len : nat) (buf : string) : string :=
  match len with
  | O => buf
  | S len' =>
      match String.get len' buf with
      | Some ch =>
          if Ascii.eqb ch newline || Ascii.eqb ch carriage_return
          then strip_newlines len' (substring 0 len' buf)
          else buf
      | None => buf
      end
  end.

Section Console.

(** The standard input and [fgets buf n stdin]: the characters it stores
    in the buffer, or [None] for a null pointer. *)
Context {Stdin : Type}.
Variable fgets : nat -> Stdin -> option string * Stdin.

(** [read_line]; the result is the buffer after the call. *)
Definition read_line (buf : option string) (n : nat) (input : Stdin)
  : option string * Stdin :=
  match buf with
  | None => (None, input)
  | Some old =>
      if (n =? 0)%nat then (Some old, input)
      else
        let '(line, input') := fgets n input in
        match line with
        | None => (Some EmptyString, input')
        | Some line => (Some (strip_newlines (String.length line) line), input')
        end
  end.

End Console.

Section Program.

Context {RngState Stdin : Type}.
Variable srand : Z -> RngState.
Variable rand : RngState -> N * RngState.
Variable fopen_w : string -> bool.
Variable fgets : nat -> Stdin -> option string * Stdin.

(** The files a call leaves behind. *)
Definition file_list (f : option WrittenFile) : list WrittenFile :=
  match f with Some x => [x] | None => [] end.

(** The condition both branches of [main] test: the three calls of
    [generate_one], the later ones only when the earlier succeeded.
    [locals d] is what the two local boards of [generate_one] hold when it
    is called for [d]. *)
Definition generate_pages (locals : Z -> SudokuBoard * SudokuBoard)
           (css_href base_title : option string) (theme : option SudokuTheme)
           (w : World RngState)
  : option (bool * list WrittenFile * World RngState) :=
  let call d w :=
    generate_one srand rand fopen_w (fst (locals d)) (snd (locals d)) d
                 css_href base_title theme w in
  match call SUDOKU_DIFFICULTY_EASY w with
  | None => None
  | Some (ok1, f1, w1) =>
      if negb ok1 then Some (false, file_list f1, w1)
      else
        match call SUDOKU_DIFFICULTY_MEDIUM w1 with
        | None => None
        | Some (ok2, f2, w2) =>
            if negb ok2 then Some (false, file_list f1 ++ file_list f2, w2)
            else
              match call SUDOKU_DIFFICULTY_HARD w2 with
              | None => None
              | Some (ok3, f3, w3) =>
                  Some (ok3, file_list f1 ++ file_list f2 ++ file_list f3, w3)
              end
        end
  end.

(** What a run of the program leaves: exit status, files, standard
    output and standard error. *)
Record Outcome : Type := mkOutcome {
  exit_status : Z;
  files : list WrittenFile;
  stdout : list string;
  stderr : list string
}.

(** [main]: [now] is [time(NULL)], [diff_buf0] and [title_buf0] what the
    two line buffers hold before they are read into. *)
Definition main (argv : list string) (now : Z)
           (locals : Z -> SudokuBoard * SudokuBoard) (diff_buf0 title_buf0 : string)
           (input : Stdin) (w : World RngState)
  : option Outcome :=
  let w := sudoku_seed srand (now mod 2 ^ 32) w in
  let css_href := "style.css"%string in
  let base_title := "Sudoku"%string in
  let theme (t : string) := mkTheme (Some "#dabfae"%string) (Some "wheat"%string) (Some t) in
  let generate_all :=
    match argv with
    | _ :: a1 :: _ => (a1 =? "--all")%string
    | _ => false
    end in
  if generate_all then
    let '(ok, index) :=
      write_index_html fopen_w (Some css_href) (Some base_title) SUDOKU_DIFFICULTY_MEDIUM in
    if negb ok
    then Some (mkOutcome 1 (file_list index) [] [("Failed to write index.html" ++ nl)%string])
    else
      match generate_pages locals (Some css_href) (Some base_title)
                           (Some (theme base_title)) w with
      | None => None
      | Some (ok, pages, _) =>
          if negb ok
          then Some (mkOutcome 1 (file_list index ++ pages) []
                               [("Failed to generate one of the pages" ++ nl)%string])
          else Some (mkOutcome 0 (file_list index ++ pages)
                               [("OK: wrote index.html + sudoku_easy/medium/hard.html" ++ nl)%string]
                               [])
      end
  else
    let out1 := [("Sudoku generator (Stage 3)" ++ nl)%string;
                 "Difficulty (1=Easy, 2=Medium, 3=Hard) [2]: "%string] in
    let '(diff_buf, input) := read_line fgets (Some diff_buf0) 32 input in
    let d := parse_difficulty diff_buf SUDOKU_DIFFICULTY_MEDIUM in
    let out2 := out1 ++ ["Page title [Sudoku]: "%string] in
    let '(title_buf, input) := read_line fgets (Some title_buf0) 128 input in
    let base_title :=
      match title_buf with
      | Some (String ch rest) => String ch rest
      | _ => "Sudoku"%string
      end in
    let '(ok, index) := write_index_html fopen_w (Some css_href) (Some base_title) d in
    if negb ok
    then Some (mkOutcome 1 (file_list index) out2 [("Failed to write index.html" ++ nl)%string])
    else
      match generate_pages locals (Some css_href) (Some base_title)
                           (Some (theme base_title)) w with
      | None => None
      | Some (ok, pages, _) =>
          if negb ok
          then Some (mkOutcome 1 (file_list index ++ pages) out2
                               [("Failed to generate sudoku pages" ++ nl)%string])
          else Some (mkOutcome 0 (file_list index ++ pages)
                               (out2 ++ [("OK: wrote index.html + sudoku_easy/medium/hard.html" ++ nl)%string;
                                         ("Open index.html in your browser." ++ nl)%string])
                               [])
      end.

End Program.

Arguments generate_pages {RngState}.
Arguments main {RngState Stdin}.

(** A standard input for the examples: the lines [fgets] will return. *)
Definition scripted_fgets (n : nat) (input : list string) : option string * list string :=
  match input with
  | [] => (None, [])
  | line :: rest => (Some line, rest)
  end.

(** The characters [read_line] strips from the end of a line. *)
Definition is_eol (ch : ascii) : Prop := ch = newline \/ ch = carriage_return.

(** The files written when the paths are opened in this order and the
    first failure ends the run. *)
Fixpoint opened_until_failure (fopen_w : string -> bool) (paths : list string) : list string :=
  match paths with
  | [] => []
  | p :: rest => if fopen_w p then p :: opened_until_failure fopen_w rest else []
  end.

(** * Properties *)

(** ** Reading and writing cells *)

Lemma positions_spec (r c : nat) :
  In (r, c) positions <-> (r < 9)%nat /\ (c < 9)%nat.
Proof.
  unfold positions, SUDOKU_SIZE. rewrite in_flat_map. split.
  - intros (r0 & Hr & Hc). apply in_map_iff in Hc as (c0 & Heq & Hc).
    inversion Heq; subst. apply in_seq in Hr, Hc. lia.
  - intros [Hr Hc]. exists r. split; [apply in_seq; lia|].
    apply in_map_iff. exists c. split; [reflexivity|apply in_seq; lia].
Qed.

Lemma NoDup_positions : List.NoDup positions.
Proof. apply NoDup_ListNoDup, (bool_decide_unpack _). vm_compute. reflexivity. Qed.

Lemma wf_row (b : SudokuBoard) (r : nat) :
  board_wf b -> (r < 9)%nat -> exists row, b !! r = Some row /\ length row = 9%nat.
Proof.
  intros [Hlen Hrows] Hr.
  destruct (lookup_lt_is_Some_2 b r) as [row Hrow]; [unfold SUDOKU_SIZE in Hlen; lia|].
  exists row. split; [exact Hrow|].
  rewrite Forall_lookup in Hrows. exact (Hrows _ _ Hrow).
Qed.

Lemma set_cell_wf (b : SudokuBoard) (r c : nat) (v : Z) :
  board_wf b -> board_wf (set_cell b r c v).
Proof.
  intros [Hlen Hrows]. unfold set_cell.
  destruct (b !! r) as [row|] eqn:Hrow; [|split; assumption].
  split; [rewrite length_insert; exact Hlen|].
  apply Forall_insert; [exact Hrows|].
  rewrite length_insert. rewrite Forall_lookup in Hrows. exact (Hrows _ _ Hrow).
Qed.

Lemma cell_set_cell_eq (b : SudokuBoard) (r c : nat) (v : Z) :
  board_wf b -> (r < 9)%nat -> (c < 9)%nat -> cell (set_cell b r c v) r c = v.
Proof.
  intros Hwf Hr Hc. destruct (wf_row b r Hwf Hr) as (row & Hrow & Hlen).
  unfold cell, set_cell. rewrite Hrow.
  rewrite list_lookup_insert_eq by (apply lookup_lt_Some in Hrow; exact Hrow).
  rewrite list_lookup_insert_eq by lia. reflexivity.
Qed.

Lemma cell_set_cell_ne (b : SudokuBoard) (r c r' c' : nat) (v : Z) :
  (r', c') <> (r, c) -> cell (set_cell b r c v) r' c' = cell b r' c'.
Proof.
  intros Hne. unfold cell, set_cell.
  destruct (b !! r) as [row|] eqn:Hrow; [|reflexivity].
  destruct (decide (r' = r)) as [->|Hr].
  - rewrite list_lookup_insert_eq by (apply lookup_lt_Some in Hrow; exact Hrow).
    rewrite Hrow. rewrite list_lookup_insert_ne by congruence. reflexivity.
  - rewrite list_lookup_insert_ne by congruence. reflexivity.
Qed.

Lemma cell_set_cell (b : SudokuBoard) (r c r' c' : nat) (v : Z) :
  board_wf b -> (r < 9)%nat -> (c < 9)%nat ->
  cell (set_cell b r c v) r' c' = if decide ((r', c') = (r, c)) then v else cell b r' c'.
Proof.
  intros Hwf Hr Hc. destruct (decide ((r', c') = (r, c))) as [Heq|Hne].
  - inversion Heq; subst. apply cell_set_cell_eq; assumption.
  - apply cell_set_cell_ne; assumption.
Qed.

(** Two well-formed boards with the same 81 cells are the same board. *)
Lemma board_ext (b1 b2 : SudokuBoard) :
  board_wf b1 -> board_wf b2 ->
  (forall r c, (r < 9)%nat -> (c < 9)%nat -> cell b1 r c = cell b2 r c) ->
  b1 = b2.
Proof.
  intros Hwf1 Hwf2 Hcells. apply list_eq. intros r.
  destruct (decide (r < 9)%nat) as [Hr|Hr].
  - destruct (wf_row b1 r Hwf1 Hr) as (row1 & Hrow1 & Hlen1).
    destruct (wf_row b2 r Hwf2 Hr) as (row2 & Hrow2 & Hlen2).
    rewrite Hrow1, Hrow2. f_equal. apply list_eq. intros c.
    destruct (decide (c < 9)%nat) as [Hc|Hc].
    + specialize (Hcells r c Hr Hc). unfold cell in Hcells.
      rewrite Hrow1, Hrow2 in Hcells.
      destruct (lookup_lt_is_Some_2 row1 c) as [x1 Hx1]; [lia|].
      destruct (lookup_lt_is_Some_2 row2 c) as [x2 Hx2]; [lia|].
      rewrite Hx1, Hx2 in *. congruence.
    + rewrite !lookup_ge_None_2 by lia. reflexivity.
  - destruct Hwf1 as [Hl1 _], Hwf2 as [Hl2 _]. unfold SUDOKU_SIZE in *.
    rewrite !lookup_ge_None_2 by lia. reflexivity.
Qed.

Lemma set_cell_same (b : SudokuBoard) (r c : nat) :
  board_wf b -> (r < 9)%nat -> (c < 9)%nat -> set_cell b r c (cell b r c) = b.
Proof.
  intros Hwf Hr Hc. apply board_ext; [apply set_cell_wf; exact Hwf|exact Hwf|].
  intros r' c' _ _. rewrite cell_set_cell by assumption.
  destruct (decide ((r', c') = (r, c))) as [Heq|]; [inversion Heq; reflexivity|reflexivity].
Qed.

Lemma set_cell_twice (b : SudokuBoard) (r c : nat) (v v' : Z) :
  board_wf b -> (r < 9)%nat -> (c < 9)%nat ->
  set_cell (set_cell b r c v) r c v' = set_cell b r c v'.
Proof.
  intros Hwf Hr Hc. apply board_ext; [repeat apply set_cell_wf; exact Hwf|apply set_cell_wf; exact Hwf|].
  intros r' c' _ _. rewrite !cell_set_cell by (try apply set_cell_wf; assumption).
  destruct (decide ((r', c') = (r, c))); reflexivity.
Qed.

(** Undoing a tentative placement on an empty cell restores the board. *)
Lemma set_cell_undo (b : SudokuBoard) (r c : nat) (v : Z) :
  board_wf b -> (r < 9)%nat -> (c < 9)%nat -> cell b r c = 0 ->
  set_cell (set_cell b r c v) r c 0 = b.
Proof.
  intros Hwf Hr Hc H0. rewrite set_cell_twice by assumption.
  rewrite <- H0. apply set_cell_same; assumption.
Qed.

(** ** Empty cells: [find_empty_cell] and [count_holes] *)

Lemma find_empty_cell_Some (b : SudokuBoard) (r c : nat) :
  find_empty_cell b = Some (r, c) -> (r < 9)%nat /\ (c < 9)%nat /\ cell b r c = 0.
Proof.
  unfold find_empty_cell. intros H. apply find_some in H as [Hin Hz].
  apply positions_spec in Hin. apply Z.eqb_eq in Hz. tauto.
Qed.

Lemma find_empty_cell_None (b : SudokuBoard) :
  find_empty_cell b = None <-> board_full b.
Proof.
  unfold find_empty_cell, board_full. split.
  - intros H r c Hr Hc. pose proof (find_none _ _ H (r, c)) as Hn.
    simpl in Hn. apply Z.eqb_neq, Hn, positions_spec. lia.
  - intros H. destruct (find _ positions) as [[r c]|] eqn:Hf; [|reflexivity].
    apply find_some in Hf as [Hin Hz]. apply positions_spec in Hin.
    apply Z.eqb_eq in Hz. exfalso. apply (H r c); tauto.
Qed.

Lemma count_holes_loop (b : SudokuBoard) (l : list (nat * nat)) (acc : Z) :
  fold_left (fun holes '(r, c) => if cell b r c =? 0 then holes + 1 else holes) l acc
  = acc + holes_in b l.
Proof.
  revert acc. unfold holes_in.
  induction l as [|[r c] l IH]; intros acc; simpl; [lia|].
  rewrite IH. destruct (cell b r c =? 0); simpl length; lia.
Qed.

Lemma count_holes_holes_in (b : SudokuBoard) : count_holes b = holes_in b positions.
Proof. unfold count_holes. rewrite count_holes_loop. lia. Qed.

Lemma count_holes_bounds (b : SudokuBoard) : 0 <= count_holes b <= 81.
Proof.
  rewrite count_holes_holes_in. unfold holes_in.
  pose proof (filter_length_le (fun '(r, c) => cell b r c =? 0) positions) as Hle.
  change (length positions) with 81%nat in Hle. lia.
Qed.

Lemma holes_in_set_cell_notin (b : SudokuBoard) (r c : nat) (v : Z) (l : list (nat * nat)) :
  ~ In (r, c) l -> holes_in (set_cell b r c v) l = holes_in b l.
Proof.
  unfold holes_in. induction l as [|[r' c'] l IH]; intros Hnotin; [reflexivity|].
  cbn [List.filter]. rewrite cell_set_cell_ne.
  - assert (Hl : ~ In (r, c) l) by (intros Hin; apply Hnotin; right; exact Hin).
    specialize (IH Hl). destruct (cell b r' c' =? 0); cbn [length]; lia.
  - intros Heq. apply Hnotin. left. exact Heq.
Qed.

Lemma holes_in_set_cell_in (b : SudokuBoard) (r c : nat) (v : Z) (l : list (nat * nat)) :
  board_wf b -> (r < 9)%nat -> (c < 9)%nat -> List.NoDup l -> In (r, c) l ->
  holes_in (set_cell b r c v) l
  = holes_in b l + (if v =? 0 then 1 else 0) - (if cell b r c =? 0 then 1 else 0).
Proof.
  intros Hwf Hr Hc.
  induction l as [|[r' c'] l IH]; intros Hnd Hin; [destruct Hin|].
  apply List.NoDup_cons_iff in Hnd as [Hnotin Hnd].
  destruct Hin as [Heq|Hin].
  - inversion Heq; subst r' c'.
    pose proof (holes_in_set_cell_notin b r c v l Hnotin) as Hrest.
    unfold holes_in in *. cbn [List.filter]. rewrite cell_set_cell_eq by assumption.
    destruct (v =? 0), (cell b r c =? 0); cbn [length]; lia.
  - specialize (IH Hnd Hin). unfold holes_in in *. cbn [List.filter].
    rewrite cell_set_cell_ne by (intros Heq; apply Hnotin; rewrite Heq; exact Hin).
    destruct (cell b r' c' =? 0); cbn [length]; lia.
Qed.

(** Writing one cell changes the hole count by what that cell gains or
    loses. *)
Lemma count_holes_set_cell (b : SudokuBoard) (r c : nat) (v : Z) :
  board_wf b -> (r < 9)%nat -> (c < 9)%nat ->
  count_holes (set_cell b r c v)
  = count_holes b + (if v =? 0 then 1 else 0) - (if cell b r c =? 0 then 1 else 0).
Proof.
  intros Hwf Hr Hc. rewrite !count_holes_holes_in.
  apply holes_in_set_cell_in; try assumption; [apply NoDup_positions|].
  apply positions_spec. lia.
Qed.

Lemma count_holes_full (b : SudokuBoard) : board_full b -> count_holes b = 0.
Proof.
  intros Hfull. rewrite count_holes_holes_in. unfold holes_in.
  assert (Hall : forall l, (forall r c, In (r, c) l -> (r < 9)%nat /\ (c < 9)%nat) ->
                           List.filter (fun '(r, c) => cell b r c =? 0) l = []).
  { induction l as [|[r c] l IH]; intros Hl; [reflexivity|]. cbn [List.filter].
    destruct (Hl r c (or_introl eq_refl)) as [Hr Hc].
    destruct (Z.eqb_spec (cell b r c) 0) as [Hz|_]; [exfalso; exact (Hfull r c Hr Hc Hz)|].
    apply IH. intros r' c' Hin. apply Hl. right. exact Hin. }
  rewrite Hall; [reflexivity|]. intros r c Hin. apply positions_spec. exact Hin.
Qed.

(** ** The validator *)

Lemma same_unit_sym (r c r' c' : nat) : same_unit r c r' c' -> same_unit r' c' r c.
Proof. unfold same_unit. intuition congruence. Qed.

Lemma box_start (r : nat) :
  (r < 9)%nat -> Z.to_nat (Z.quot (Z.of_nat r) 3 * 3) = (3 * (r / 3))%nat.
Proof. intros Hr. do 9 (destruct r as [|r]; [reflexivity|]). lia. Qed.

Lemma box_range (r r' : nat) :
  (r < 9)%nat ->
  In r' (seq (3 * (r / 3)) 3) <-> (r' < 9)%nat /\ (r' / 3 = r / 3)%nat.
Proof.
  intros Hr. rewrite in_seq.
  pose proof (Nat.div_mod_eq r 3). pose proof (Nat.div_mod_eq r' 3).
  pose proof (Nat.mod_upper_bound r 3). pose proof (Nat.mod_upper_bound r' 3). lia.
Qed.

Lemma is_in_range_1_9_spec (v : Z) : is_in_range_1_9 v = true <-> 1 <= v <= 9.
Proof. unfold is_in_range_1_9. lia. Qed.

(** What the three scans of [sudoku_can_place] decide, for coordinates
    and a value that passed the range guards. *)
Lemma can_place_scans (b : SudokuBoard) (r c : nat) (v : Z) :
  (r < 9)%nat -> (c < 9)%nat -> 1 <= v <= 9 ->
  sudoku_can_place (Some b) (Z.of_nat r) (Z.of_nat c) v = false
  <-> in_row b r v \/ in_col b c v \/ in_box b r c v.
Proof.
  intros Hr Hc Hv. unfold sudoku_can_place.
  replace ((Z.of_nat r <? 0) || (Z.of_nat r >=? 9) || (Z.of_nat c <? 0) || (Z.of_nat c >=? 9))
    with false by lia.
  replace (is_in_range_1_9 v) with true by (symmetry; apply is_in_range_1_9_spec; exact Hv).
  cbn [negb]. rewrite !Nat2Z.id, !box_start by assumption.
  destruct (existsb _ (seq 0 9)) eqn:Hline.
  - split; [intros _|reflexivity].
    apply existsb_exists in Hline as (i & Hi & Hhit). apply in_seq in Hi.
    apply orb_true_iff in Hhit as [Hhit|Hhit]; apply Z.eqb_eq in Hhit.
    + left. exists i. split; [lia|exact Hhit].
    + right. left. exists i. split; [lia|exact Hhit].
  - destruct (existsb _ (seq (3 * (r / 3)) 3)) eqn:Hbox.
    + split; [intros _|reflexivity].
      apply existsb_exists in Hbox as (r' & Hr' & Hbox).
      apply existsb_exists in Hbox as (c' & Hc' & Hhit).
      apply box_range in Hr' as [Hr'1 Hr'2]; [|exact Hr].
      apply box_range in Hc' as [Hc'1 Hc'2]; [|exact Hc].
      apply Z.eqb_eq in Hhit. right. right. exists r', c'. tauto.
    + split; [discriminate|]. intros Hocc. exfalso.
      destruct Hocc as [(i & Hi & Hhit)|[(i & Hi & Hhit)|(r' & c' & Hr' & Hc' & Hbr & Hbc & Hhit)]].
      * assert (Hex : existsb (fun i => (cell b r i =? v) || (cell b i c =? v)) (seq 0 9) = true).
        { apply existsb_exists. exists i. split; [apply in_seq; lia|].
          apply orb_true_iff. left. apply Z.eqb_eq. exact Hhit. }
        congruence.
      * assert (Hex : existsb (fun i => (cell b r i =? v) || (cell b i c =? v)) (seq 0 9) = true).
        { apply existsb_exists. exists i. split; [apply in_seq; lia|].
          apply orb_true_iff. right. apply Z.eqb_eq. exact Hhit. }
        congruence.
      * assert (Hex : existsb (fun r' => existsb (fun c' => cell b r' c' =? v)
                                                 (seq (3 * (c / 3)) 3))
                              (seq (3 * (r / 3)) 3) = true).
        { apply existsb_exists. exists r'. split; [apply box_range; tauto|].
          apply existsb_exists. exists c'. split; [apply box_range; tauto|].
          apply Z.eqb_eq. exact Hhit. }
        congruence.
Qed.

Lemma can_place_guards (b : SudokuBoard) (row col v : Z) :
  sudoku_can_place (Some b) row col v = true ->
  0 <= row <= 8 /\ 0 <= col <= 8 /\ 1 <= v <= 9.
Proof.
  unfold sudoku_can_place.
  destruct ((row <? 0) || (row >=? 9) || (col <? 0) || (col >=? 9)) eqn:Hg; [discriminate|].
  destruct (is_in_range_1_9 v) eqn:Hv; [|discriminate].
  apply is_in_range_1_9_spec in Hv. intros _. lia.
Qed.

(** [sudoku_can_place] accepts exactly when no cell of the three units
    of [(r, c)] already holds the value. *)
Lemma can_place_true (b : SudokuBoard) (r c : nat) (v : Z) :
  sudoku_can_place (Some b) (Z.of_nat r) (Z.of_nat c) v = true
  <-> (r < 9)%nat /\ (c < 9)%nat /\ 1 <= v <= 9 /\
      forall r' c', (r' < 9)%nat -> (c' < 9)%nat -> same_unit r c r' c' -> cell b r' c' <> v.
Proof.
  split.
  - intros Hok. pose proof (can_place_guards _ _ _ _ Hok) as (Hr & Hc & Hv).
    assert (Hr' : (r < 9)%nat) by lia. assert (Hc' : (c < 9)%nat) by lia.
    repeat split; try lia.
    intros r' c' Hr'9 Hc'9 Hunit Hhit.
    assert (Hocc : in_row b r v \/ in_col b c v \/ in_box b r c v).
    { destruct Hunit as [->|[->|[Hbr Hbc]]].
      - left. exists c'. tauto.
      - right. left. exists r'. tauto.
      - right. right. exists r', c'. tauto. }
    apply can_place_scans in Hocc; try assumption. congruence.
  - intros (Hr & Hc & Hv & Hfree).
    destruct (sudoku_can_place (Some b) (Z.of_nat r) (Z.of_nat c) v) eqn:Hok; [reflexivity|].
    exfalso. apply can_place_scans in Hok; try assumption.
    destruct Hok as [(i & Hi & Hhit)|[(i & Hi & Hhit)|(r' & c' & Hr' & Hc' & Hbr & Hbc & Hhit)]].
    + apply (Hfree r i); [assumption|assumption|left; reflexivity|exact Hhit].
    + apply (Hfree i c); [assumption|assumption|right; left; reflexivity|exact Hhit].
    + apply (Hfree r' c'); [assumption|assumption|right; right; tauto|exact Hhit].
Qed.

Lemma is_valid_partial_spec (b : SudokuBoard) :
  board_wf b -> (sudoku_is_valid_partial (Some b) = true <-> board_valid b).
Proof.
  intros Hwf. unfold sudoku_is_valid_partial, board_valid. rewrite forallb_forall. split.
  - intros Hall r c Hr Hc Hnz.
    assert (Hin : In (r, c) positions) by (apply positions_spec; lia).
    specialize (Hall _ Hin). cbn beta iota zeta in Hall.
    destruct (Z.eqb_spec (cell b r c) 0) as [|_]; [contradiction|].
    destruct (is_in_range_1_9 (cell b r c)) eqn:Hrange; [|discriminate].
    cbn [negb] in Hall. apply can_place_true in Hall as (_ & _ & Hv & Hfree).
    split; [exact Hv|]. intros r' c' Hr' Hc' Hne Hunit.
    specialize (Hfree r' c' Hr' Hc' Hunit).
    rewrite cell_set_cell_ne in Hfree by exact Hne. exact Hfree.
  - intros Hvalid [r c] Hin. apply positions_spec in Hin as [Hr Hc].
    destruct (Z.eqb_spec (cell b r c) 0) as [|Hnz]; [reflexivity|].
    destruct (Hvalid r c Hr Hc Hnz) as [Hv Hfree].
    replace (is_in_range_1_9 (cell b r c)) with true
      by (symmetry; apply is_in_range_1_9_spec; exact Hv).
    cbn [negb]. apply can_place_true. repeat split; try lia.
    intros r' c' Hr' Hc' Hunit. rewrite cell_set_cell by assumption.
    destruct (decide ((r', c') = (r, c))) as [_|Hne]; [lia|].
    apply Hfree; assumption.
Qed.

(** A legal placement on an empty cell keeps the board valid. *)
Lemma board_valid_place (b : SudokuBoard) (r c : nat) (v : Z) :
  board_wf b -> board_valid b -> cell b r c = 0 ->
  sudoku_can_place (Some b) (Z.of_nat r) (Z.of_nat c) v = true ->
  board_valid (set_cell b r c v).
Proof.
  intros Hwf Hvalid Hempty Hok.
  apply can_place_true in Hok as (Hr & Hc & Hv & Hfree).
  intros r1 c1 Hr1 Hc1. rewrite cell_set_cell by assumption.
  destruct (decide ((r1, c1) = (r, c))) as [Heq|Hne].
  - inversion Heq; subst r1 c1. intros _. split; [exact Hv|].
    intros r' c' Hr' Hc' Hne Hunit. rewrite cell_set_cell_ne by exact Hne.
    apply Hfree; assumption.
  - intros Hnz. destruct (Hvalid r1 c1 Hr1 Hc1 Hnz) as [Hrange Hother].
    split; [exact Hrange|]. intros r' c' Hr' Hc' Hne' Hunit.
    rewrite cell_set_cell by assumption.
    destruct (decide ((r', c') = (r, c))) as [Heq|Hne2].
    + inversion Heq; subst r' c'. intros Hhit.
      apply (Hfree r1 c1 Hr1 Hc1); [apply same_unit_sym; exact Hunit|congruence].
    + apply Hother; assumption.
Qed.

(** ** The backtracking search *)

Lemma board_extends_refl (b : SudokuBoard) : board_extends b b.
Proof. intros r c _ _ _. reflexivity. Qed.

Lemma board_extends_place (b s : SudokuBoard) (r c : nat) (v : Z) :
  board_wf b -> (r < 9)%nat -> (c < 9)%nat -> cell b r c = 0 ->
  board_extends (set_cell b r c v) s -> board_extends b s.
Proof.
  intros Hwf Hr Hc Hempty Hext r' c' Hr' Hc' Hnz.
  specialize (Hext r' c' Hr' Hc'). rewrite cell_set_cell in Hext by assumption.
  destruct (decide ((r', c') = (r, c))) as [Heq|_]; [|exact (Hext Hnz)].
  inversion Heq; subst. contradiction.
Qed.

(** A board that has a completion is itself valid. *)
Lemma completes_valid (b s : SudokuBoard) : completes b s -> board_valid b.
Proof.
  intros (_ & Hfull & Hvalid & Hext) r c Hr Hc Hnz.
  pose proof (Hext r c Hr Hc Hnz) as Hs.
  destruct (Hvalid r c Hr Hc (Hfull r c Hr Hc)) as [Hrange Hother].
  rewrite Hs in Hrange, Hother. split; [exact Hrange|].
  intros r' c' Hr' Hc' Hne Hunit Hhit.
  apply (Hother r' c' Hr' Hc' Hne Hunit).
  rewrite (Hext r' c' Hr' Hc') by congruence. exact Hhit.
Qed.

(** The digit a completion puts on an empty cell is accepted there. *)
Lemma completes_can_place (b s : SudokuBoard) (r c : nat) :
  completes b s -> (r < 9)%nat -> (c < 9)%nat -> cell b r c = 0 ->
  sudoku_can_place (Some b) (Z.of_nat r) (Z.of_nat c) (cell s r c) = true.
Proof.
  intros (_ & Hfull & Hvalid & Hext) Hr Hc Hempty.
  destruct (Hvalid r c Hr Hc (Hfull r c Hr Hc)) as [Hrange Hother].
  apply can_place_true. repeat split; try lia.
  intros r' c' Hr' Hc' Hunit Hhit.
  destruct (decide ((r', c') = (r, c))) as [Heq|Hne].
  - inversion Heq; subst. pose proof (Hfull r c Hr Hc). congruence.
  - apply (Hother r' c' Hr' Hc' Hne Hunit).
    rewrite (Hext r' c' Hr' Hc') by (pose proof (Hfull r c Hr Hc); congruence).
    exact Hhit.
Qed.

Lemma completes_place (b s : SudokuBoard) (r c : nat) :
  board_wf b -> completes b s -> (r < 9)%nat -> (c < 9)%nat ->
  completes (set_cell b r c (cell s r c)) s.
Proof.
  intros Hwf (Hwfs & Hfull & Hvalid & Hext) Hr Hc.
  split; [exact Hwfs|split; [exact Hfull|split; [exact Hvalid|]]].
  intros r' c' Hr' Hc'. rewrite cell_set_cell by assumption.
  destruct (decide ((r', c') = (r, c))) as [Heq|_]; [inversion Heq; reflexivity|].
  apply Hext; assumption.
Qed.

Section Solver.

Context {RngState : Type}.
Variable rand : RngState -> N * RngState.

Implicit Types (w : World RngState) (b : SudokuBoard).

(** *** The shuffle keeps its elements *)

Lemma rand_int_range (m : Z) w :
  0 < m -> 0 <= fst (rand_int rand m w) < m.
Proof.
  intros Hm. unfold rand_int. destruct (rand (libc_rng w)) as [x s]. cbn [fst].
  pose proof (Z.rem_bound_pos (Z.of_N x) m). lia.
Qed.

Lemma swap_keeps (a : list Z) (i j : nat) (x : Z) :
  (i < length a)%nat -> (j < length a)%nat -> x ∈ a ->
  x ∈ <[j := default 0 (a !! i)]> (<[i := default 0 (a !! j)]> a).
Proof.
  intros Hi Hj Hx. apply list_elem_of_lookup_1 in Hx as [k Hk].
  destruct (lookup_lt_is_Some_2 a i Hi) as [xi Hxi].
  destruct (lookup_lt_is_Some_2 a j Hj) as [xj Hxj].
  rewrite Hxi, Hxj. cbn [default from_option id].
  destruct (decide (k = i)) as [->|Hki].
  - apply (list_elem_of_lookup_2 _ j). rewrite list_lookup_insert_eq
      by (rewrite length_insert; exact Hj). congruence.
  - destruct (decide (k = j)) as [->|Hkj].
    + destruct (decide (i = j)) as [->|Hij]; [congruence|].
      apply (list_elem_of_lookup_2 _ i). rewrite list_lookup_insert_ne by congruence.
      rewrite list_lookup_insert_eq by exact Hi. congruence.
    + apply (list_elem_of_lookup_2 _ k). rewrite !list_lookup_insert_ne by congruence.
      exact Hk.
Qed.

Lemma shuffle_from_keeps (i : nat) (a a' : list Z) w w' (x : Z) :
  (i < length a)%nat -> shuffle_from rand i a w = (a', w') -> x ∈ a -> x ∈ a'.
Proof.
  revert a w. induction i as [|i IH]; intros a w Hi Hrun Hx.
  - cbn in Hrun. congruence.
  - cbn [shuffle_from] in Hrun.
    pose proof (rand_int_range (Z.of_nat (S i) + 1) w ltac:(lia)) as Hj.
    destruct (rand_int rand (Z.of_nat (S i) + 1) w) as [j w1]. cbn [fst] in Hj.
    eapply IH in Hrun; [exact Hrun| |].
    + rewrite !length_insert. lia.
    + apply swap_keeps; [exact Hi|lia|exact Hx].
Qed.

(** Each of the digits 1..9 is still among the shuffled candidates. *)
Lemma shuffle_ints_digits (nums : list Z) w w' (v : Z) :
  shuffle_ints rand (map (fun i => Z.of_nat i + 1) (seq 0 9)) 9 w = (nums, w') ->
  1 <= v <= 9 -> In v nums.
Proof.
  intros Hrun Hv. apply list_elem_of_In. unfold shuffle_ints in Hrun.
  eapply shuffle_from_keeps; [|exact Hrun|].
  - cbn. lia.
  - apply list_elem_of_In. apply in_map_iff. exists (Z.to_nat (v - 1)).
    split; [lia|apply in_seq; lia].
Qed.

(** *** What a search returns *)

Lemma try_values_post rec (row col : nat) (nums : list Z) b w :
  board_wf b -> (row < 9)%nat -> (col < 9)%nat -> cell b row col = 0 ->
  (forall v w1, sudoku_can_place (Some b) (Z.of_nat row) (Z.of_nat col) v = true ->
                search_post (set_cell b row col v) (rec (set_cell b row col v) w1)) ->
  search_post b (try_values rec row col nums b w).
Proof.
  intros Hwf Hr Hc Hempty Hrec. revert w.
  induction nums as [|v rest IH]; intros w; cbn [try_values].
  - exists false, b, w. split; [reflexivity|]. split; [exact Hwf|].
    split; [reflexivity|discriminate].
  - destruct (sudoku_can_place (Some b) (Z.of_nat row) (Z.of_nat col) v) eqn:Hok; [|apply IH].
    destruct (Hrec v w Hok) as (ok & b' & w' & -> & Hwf' & Hfail & Hsucc).
    destruct ok.
    + destruct (Hsucc eq_refl) as (Hfull & Hext & Hval).
      exists true, b', w'. split; [reflexivity|]. split; [exact Hwf'|].
      split; [discriminate|]. intros _. split; [exact Hfull|]. split.
      * apply (board_extends_place b b' row col v); assumption.
      * intros Hvalid. apply Hval. apply board_valid_place; assumption.
    + rewrite (Hfail eq_refl). rewrite set_cell_undo by assumption. apply IH.
Qed.

(** A search with more frames than the board has empty cells returns,
    with the outcome above. *)
Lemma solve_backtrack_post (depth : nat) b w :
  board_wf b -> count_holes b < Z.of_nat depth ->
  search_post b (solve_backtrack rand depth b w).
Proof.
  revert b w. induction depth as [|depth IH]; intros b w Hwf Hdepth.
  - pose proof (count_holes_bounds b). lia.
  - cbn [solve_backtrack].
    destruct (find_empty_cell b) as [[row col]|] eqn:Hfind.
    + apply find_empty_cell_Some in Hfind as (Hr & Hc & Hempty).
      destruct (shuffle_ints rand _ 9 w) as [nums w1].
      apply try_values_post; try assumption.
      intros v w2 Hok. apply IH; [apply set_cell_wf; exact Hwf|].
      apply can_place_guards in Hok as (_ & _ & Hv).
      rewrite count_holes_set_cell by assumption. rewrite Hempty.
      replace (v =? 0) with false by lia. rewrite Z.eqb_refl. lia.
    + apply find_empty_cell_None in Hfind.
      exists true, b, w. split; [reflexivity|]. split; [exact Hwf|].
      split; [discriminate|]. intros _. split; [exact Hfind|].
      split; [apply board_extends_refl|tauto].
Qed.

(** *** The search is complete *)

Lemma try_values_complete rec (row col : nat) (nums : list Z) b w s :
  board_wf b -> (row < 9)%nat -> (col < 9)%nat -> cell b row col = 0 ->
  completes b s -> In (cell s row col) nums ->
  (forall v w1, sudoku_can_place (Some b) (Z.of_nat row) (Z.of_nat col) v = true ->
                search_post (set_cell b row col v) (rec (set_cell b row col v) w1)) ->
  (forall w1, exists b' w', rec (set_cell b row col (cell s row col)) w1 = Some (true, b', w')) ->
  exists b' w', try_values rec row col nums b w = Some (true, b', w').
Proof.
  intros Hwf Hr Hc Hempty Hcompl Hin Hpost Hrec. revert w Hin.
  induction nums as [|v rest IH]; intros w Hin; [destruct Hin|].
  cbn [try_values].
  destruct (sudoku_can_place (Some b) (Z.of_nat row) (Z.of_nat col) v) eqn:Hok.
  - destruct (Hpost v w Hok) as (ok & b' & w' & Hres & Hwf' & Hfail & _).
    rewrite Hres. destruct ok; [exists b', w'; reflexivity|].
    rewrite (Hfail eq_refl), set_cell_undo by assumption.
    apply IH. destruct Hin as [Heq|Hin]; [|exact Hin].
    subst v. destruct (Hrec w) as (b1 & w1 & Hyes). congruence.
  - apply IH. destruct Hin as [Heq|Hin]; [|exact Hin].
    subst v. rewrite (completes_can_place b s) in Hok by assumption. discriminate.
Qed.

(** A board that has a completion is always solved, whatever the random
    stream yields. *)
Lemma solve_backtrack_complete (depth : nat) b w s :
  board_wf b -> count_holes b < Z.of_nat depth -> completes b s ->
  exists b' w', solve_backtrack rand depth b w = Some (true, b', w').
Proof.
  revert b w. induction depth as [|depth IH]; intros b w Hwf Hdepth Hcompl.
  - pose proof (count_holes_bounds b). lia.
  - cbn [solve_backtrack].
    destruct (find_empty_cell b) as [[row col]|] eqn:Hfind; [|exists b, w; reflexivity].
    apply find_empty_cell_Some in Hfind as (Hr & Hc & Hempty).
    destruct (shuffle_ints rand _ 9 w) as [nums w1] eqn:Hshuffle.
    assert (Hdigit : 1 <= cell s row col <= 9).
    { destruct Hcompl as (_ & Hfull & Hvalid & _).
      exact (proj1 (Hvalid row col Hr Hc (Hfull row col Hr Hc))). }
    assert (Hless : forall v, 1 <= v <= 9 ->
              count_holes (set_cell b row col v) < Z.of_nat depth).
    { intros v Hv. rewrite count_holes_set_cell by assumption. rewrite Hempty.
      replace (v =? 0) with false by lia. rewrite Z.eqb_refl. lia. }
    apply try_values_complete with (s := s); try assumption.
    + eapply shuffle_ints_digits; eassumption.
    + intros v w2 Hok. apply solve_backtrack_post; [apply set_cell_wf; exact Hwf|].
      apply Hless. apply can_place_guards in Hok. tauto.
    + intros w2. apply IH; [apply set_cell_wf; exact Hwf|apply Hless; exact Hdigit|].
      apply completes_place; assumption.
Qed.

(** *** The depth bound does not shape the result *)

Lemma try_values_mono rec1 rec2 (row col : nat) (nums : list Z) b w res :
  (forall b1 w1 res1, rec1 b1 w1 = Some res1 -> rec2 b1 w1 = Some res1) ->
  try_values rec1 row col nums b w = Some res ->
  try_values rec2 row col nums b w = Some res.
Proof.
  intros Hrec. revert b w. induction nums as [|v rest IH]; intros b w Hrun;
    cbn [try_values] in *; [exact Hrun|].
  destruct (sudoku_can_place (Some b) (Z.of_nat row) (Z.of_nat col) v); [|apply IH; exact Hrun].
  destruct (rec1 (set_cell b row col v) w) as [[[ok b'] w']|] eqn:Hcall; [|discriminate].
  rewrite (Hrec _ _ _ Hcall). destruct ok; [exact Hrun|apply IH; exact Hrun].
Qed.

(** A search that returned within [depth] frames returns the same with
    any larger allowance. *)
Lemma solve_backtrack_depth_mono (depth depth' : nat) b w res :
  (depth <= depth')%nat ->
  solve_backtrack rand depth b w = Some res ->
  solve_backtrack rand depth' b w = Some res.
Proof.
  revert depth' b w res. induction depth as [|depth IH]; intros depth' b w res Hle Hrun;
    [discriminate|].
  destruct depth' as [|depth']; [lia|]. cbn [solve_backtrack] in *.
  destruct (find_empty_cell b) as [[row col]|]; [|exact Hrun].
  destruct (shuffle_ints rand _ 9 w) as [nums w1].
  apply (try_values_mono (solve_backtrack rand depth)); [|exact Hrun].
  intros b1 w2 res1. apply IH. lia.
Qed.

End Solver.

Section EntryPoints.

Context {RngState : Type}.
Variable srand : Z -> RngState.
Variable rand : RngState -> N * RngState.

Implicit Types (w : World RngState) (b : SudokuBoard).

(** *** [sudoku_solve] *)

(** [sudoku_solve] on a board always returns; on anything but
    [SUDOKU_OK] the board is the one passed in, on [SUDOKU_OK] it is a
    completion of it. *)
Lemma sudoku_solve_post b w :
  board_wf b ->
  exists r b' w',
    sudoku_solve srand rand (Some b) w = Some (r, Some b', w') /\
    (r = SUDOKU_OK \/ r = SUDOKU_ERR_UNSOLVABLE) /\
    (r <> SUDOKU_OK -> b' = b) /\
    (r = SUDOKU_OK -> completes b b').
Proof.
  intros Hwf. unfold sudoku_solve.
  destruct (sudoku_is_valid_partial (Some b)) eqn:Hvalid; cbn [negb].
  - apply is_valid_partial_spec in Hvalid; [|exact Hwf].
    destruct (solve_backtrack_post rand SOLVE_DEPTH b (seed_if_needed srand w) Hwf)
      as (ok & b' & w' & -> & Hwf' & Hfail & Hsucc).
    { pose proof (count_holes_bounds b). unfold SOLVE_DEPTH. lia. }
    destruct ok.
    + exists SUDOKU_OK, b', w'. split; [reflexivity|]. split; [left; reflexivity|].
      split; [congruence|]. intros _.
      destruct (Hsucc eq_refl) as (Hfull & Hext & Hval).
      split; [exact Hwf'|]. split; [exact Hfull|]. split; [exact (Hval Hvalid)|exact Hext].
    + exists SUDOKU_ERR_UNSOLVABLE, b', w'. split; [reflexivity|].
      split; [right; reflexivity|]. split; [intros _; exact (Hfail eq_refl)|discriminate].
  - exists SUDOKU_ERR_UNSOLVABLE, b, (seed_if_needed srand w). split; [reflexivity|].
    split; [right; reflexivity|]. split; [reflexivity|discriminate].
Qed.

(** A board that has a completion is solved from every state of the
    random stream. *)
Lemma sudoku_solve_complete b s w :
  board_wf b -> completes b s ->
  exists b' w', sudoku_solve srand rand (Some b) w = Some (SUDOKU_OK, Some b', w')
                /\ completes b b'.
Proof.
  intros Hwf Hcompl.
  destruct (sudoku_solve_post b w Hwf) as (r & b' & w' & Hres & _ & _ & Hsucc).
  exists b', w'. assert (Hr : r = SUDOKU_OK); [|subst r; split; [exact Hres|exact (Hsucc eq_refl)]].
  unfold sudoku_solve in Hres.
  pose proof (completes_valid b s Hcompl) as Hvalid.
  apply is_valid_partial_spec in Hvalid; [|exact Hwf]. rewrite Hvalid in Hres. cbn [negb] in Hres.
  destruct (solve_backtrack_complete rand SOLVE_DEPTH b (seed_if_needed srand w) s Hwf)
    as (b1 & w1 & Hyes); [|exact Hcompl|].
  { pose proof (count_holes_bounds b). unfold SOLVE_DEPTH. lia. }
  rewrite Hyes in Hres. congruence.
Qed.

(** *** [sudoku_generate_solution] *)

Lemma clear_loop (l : list (nat * nat)) b :
  board_wf b -> (forall r c, In (r, c) l -> (r < 9)%nat /\ (c < 9)%nat) ->
  let b' := fold_left (fun acc '(r, c) => set_cell acc r c 0) l b in
  board_wf b' /\
  forall r c, (r < 9)%nat -> (c < 9)%nat -> In (r, c) l \/ cell b r c = 0 -> cell b' r c = 0.
Proof.
  revert b. induction l as [|[r0 c0] l IH]; intros b Hwf Hl; cbn [fold_left].
  - split; [exact Hwf|]. intros r c _ _ [[]|Hz]. exact Hz.
  - destruct (Hl r0 c0 (or_introl eq_refl)) as [Hr0 Hc0].
    destruct (IH (set_cell b r0 c0 0)) as [Hwf' Hzero].
    { apply set_cell_wf. exact Hwf. }
    { intros r c Hin. apply Hl. right. exact Hin. }
    split; [exact Hwf'|]. intros r c Hr Hc Hcase. apply Hzero; try assumption.
    rewrite cell_set_cell by assumption.
    destruct (decide ((r, c) = (r0, c0))) as [_|Hne]; [right; reflexivity|].
    destruct Hcase as [[Heq|Hin]|Hz]; [congruence|left; exact Hin|right; exact Hz].
Qed.

Lemma sudoku_clear_post b :
  board_wf b ->
  exists b0, sudoku_clear (Some b) = Some b0 /\ board_wf b0 /\
             forall r c, (r < 9)%nat -> (c < 9)%nat -> cell b0 r c = 0.
Proof.
  intros Hwf. eexists. split; [reflexivity|].
  destruct (clear_loop positions b Hwf) as [Hwf' Hzero].
  { intros r c Hin. apply positions_spec. exact Hin. }
  split; [exact Hwf'|]. intros r c Hr Hc. apply Hzero; try assumption.
  left. apply positions_spec. lia.
Qed.

Lemma sudoku_generate_solution_post b w :
  board_wf b ->
  exists r s w',
    sudoku_generate_solution srand rand (Some b) w = Some (r, Some s, w') /\
    board_wf s /\
    (r = SUDOKU_OK -> board_full s /\ board_valid s).
Proof.
  intros Hwf. unfold sudoku_generate_solution.
  destruct (sudoku_clear_post b Hwf) as (b0 & -> & Hwf0 & Hzero).
  destruct (solve_backtrack_post rand SOLVE_DEPTH b0 (seed_if_needed srand w) Hwf0)
    as (ok & s & w' & -> & Hwfs & _ & Hsucc).
  { pose proof (count_holes_bounds b0). unfold SOLVE_DEPTH. lia. }
  destruct ok.
  - exists SUDOKU_OK, s, w'. split; [reflexivity|]. split; [exact Hwfs|]. intros _.
    destruct (Hsucc eq_refl) as (Hfull & _ & Hval). split; [exact Hfull|].
    apply Hval. intros r c Hr Hc Hnz. exfalso. exact (Hnz (Hzero r c Hr Hc)).
  - exists SUDOKU_ERR_UNSOLVABLE, s, w'. split; [reflexivity|]. split; [exact Hwfs|discriminate].
Qed.

End EntryPoints.

(** ** The carving loop *)

Lemma carve_cond_true {RngState : Type} (target : Z) (st : Carve RngState) :
  carve_cond target st = true <->
  count_holes (puzzle st) < target /\ tries st < max_tries.
Proof.
  assert (Heq : carve_cond target st
                = (count_holes (puzzle st) <? target) && (tries st <? max_tries)).
  { exact (eq_refl ((count_holes (puzzle st) <? target) && (tries st <? max_tries))). }
  rewrite Heq, andb_true_iff, !Z.ltb_lt. tauto.
Qed.

Lemma carve_cond_false {RngState : Type} (target : Z) (st : Carve RngState) :
  carve_cond target st = false <->
  target <= count_holes (puzzle st) \/ max_tries <= tries st.
Proof.
  pose proof (carve_cond_true target st) as Htrue.
  destruct (carve_cond target st).
  - split; [discriminate|]. intros Hexit.
    destruct (proj1 Htrue eq_refl). lia.
  - split; [intros _|reflexivity].
    destruct (Z.lt_ge_cases (count_holes (puzzle st)) target) as [Hh|Hh]; [|left; exact Hh].
    destruct (Z.lt_ge_cases (tries st) max_tries) as [Ht|Ht]; [|right; exact Ht].
    pose proof (proj2 Htrue (conj Hh Ht)). discriminate.
Qed.

Section Generator.

Context {RngState : Type}.
Variable srand : Z -> RngState.
Variable rand : RngState -> N * RngState.

Implicit Types (w : World RngState) (b p s : SudokuBoard) (st : Carve RngState).

(** One iteration always completes and spends one try.  It leaves the
    puzzle as it was, or zeroes one filled cell, and then only after
    [sudoku_solve] solved the reduced board. *)
Lemma carve_body_post st :
  board_wf (puzzle st) ->
  exists st',
    carve_body srand rand st = Some st' /\
    tries st' = tries st + 1 /\
    board_wf (puzzle st') /\
    (puzzle st' = puzzle st \/
     exists rr cc w2 q w3,
       (rr < 9)%nat /\ (cc < 9)%nat /\ cell (puzzle st) rr cc <> 0 /\
       puzzle st' = set_cell (puzzle st) rr cc 0 /\
       sudoku_solve srand rand (Some (puzzle st')) w2 = Some (SUDOKU_OK, Some q, w3) /\
       completes (puzzle st') q).
Proof.
  intros Hwf. unfold carve_body.
  pose proof (rand_int_range rand 9 (world st) ltac:(lia)) as Hrr.
  destruct (rand_int rand 9 (world st)) as [rr w1]. cbn [fst] in Hrr.
  pose proof (rand_int_range rand 9 w1 ltac:(lia)) as Hcc.
  destruct (rand_int rand 9 w1) as [cc w2]. cbn [fst] in Hcc.
  assert (Hr : (Z.to_nat rr < 9)%nat) by lia.
  assert (Hc : (Z.to_nat cc < 9)%nat) by lia.
  destruct (Z.eqb_spec (cell (puzzle st) (Z.to_nat rr) (Z.to_nat cc)) 0) as [Hz|Hnz].
  - eexists. split; [reflexivity|]. cbn [puzzle tries world]. split; [reflexivity|]. split; [exact Hwf|].
    left. reflexivity.
  - pose proof (set_cell_wf (puzzle st) (Z.to_nat rr) (Z.to_nat cc) 0 Hwf) as Hwf0.
    destruct (sudoku_solve_post srand rand _ w2 Hwf0)
      as (r & q & w3 & Hsolve & Hres & _ & Hsucc).
    rewrite Hsolve.
    assert (Hrevert : set_cell (set_cell (puzzle st) (Z.to_nat rr) (Z.to_nat cc) 0)
                               (Z.to_nat rr) (Z.to_nat cc)
                               (cell (puzzle st) (Z.to_nat rr) (Z.to_nat cc)) = puzzle st).
    { rewrite set_cell_twice by assumption. apply set_cell_same; assumption. }
    destruct Hres as [-> | ->].
    + eexists. split; [reflexivity|]. cbn [puzzle tries world]. split; [reflexivity|]. split; [exact Hwf0|].
      right. exists (Z.to_nat rr), (Z.to_nat cc), w2, q, w3.
      split; [exact Hr|]. split; [exact Hc|]. split; [exact Hnz|].
      split; [reflexivity|]. split; [exact Hsolve|exact (Hsucc eq_refl)].
    + eexists. split; [reflexivity|]. cbn [puzzle tries world]. split; [reflexivity|].
      rewrite Hrevert. split; [exact Hwf|]. left. reflexivity.
Qed.

Lemma carve_loop_unfold (iters : nat) (target : Z) st :
  carve_loop srand rand iters target st
  = if carve_cond target st then
      match iters with
      | O => None
      | S iters' =>
          match carve_body srand rand st with
          | None => None
          | Some st1 => carve_loop srand rand iters' target st1
          end
      end
    else Some st.
Proof. destruct iters; reflexivity. Qed.

(** A property of the carving state that every iteration preserves
    holds when the loop exits, and the loop condition is false then. *)
Lemma carve_loop_invariant (Inv : Carve RngState -> Prop) (target : Z) :
  (forall st st', Inv st -> carve_cond target st = true ->
                  carve_body srand rand st = Some st' -> Inv st') ->
  forall (iters : nat) st st',
    Inv st -> carve_loop srand rand iters target st = Some st' ->
    Inv st' /\ carve_cond target st' = false.
Proof.
  intros Hstep iters. induction iters as [|iters IH]; intros st st' Hinv Hrun;
    rewrite carve_loop_unfold in Hrun;
    destruct (carve_cond target st) eqn:Hcond; try discriminate.
  - injection Hrun as <-. split; assumption.
  - destruct (carve_body srand rand st) as [st1|] eqn:Hbody; [|discriminate].
    apply (IH st1 st'); [|exact Hrun]. exact (Hstep st st1 Hinv Hcond Hbody).
  - injection Hrun as <-. split; assumption.
Qed.

(** The loop exits within the iterations it is allowed once these
    cover the tries that are left. *)
Lemma carve_loop_terminates (iters : nat) (target : Z) st :
  board_wf (puzzle st) -> max_tries - tries st <= Z.of_nat iters ->
  exists st', carve_loop srand rand iters target st = Some st'.
Proof.
  revert st. induction iters as [|iters IH]; intros st Hwf Hleft;
    rewrite carve_loop_unfold;
    (destruct (carve_cond target st) eqn:Hcond; [|eexists; reflexivity]).
  - apply carve_cond_true in Hcond. lia.
  - destruct (carve_body_post st Hwf) as (st1 & -> & Htries & Hwf1 & _).
    apply IH; [exact Hwf1|lia].
Qed.

End Generator.

Lemma example_boards_wf :
  board_wf empty_board /\ board_wf example_puzzle /\ board_wf example_solution /\
  board_wf dead_end_board /\ board_wf clash_board.
Proof. repeat split; try reflexivity; repeat constructor. Qed.

(** * The claims of the specification *)

(** ** Difficulty table *)

(** C9: [sudoku_holes_for_difficulty] is a lookup: 35 for Easy, 45 for
    Medium, 55 for Hard, and 45 for every other value. *)
Theorem holes_for_difficulty_table :
  sudoku_holes_for_difficulty SUDOKU_DIFFICULTY_EASY = 35 /\
  sudoku_holes_for_difficulty SUDOKU_DIFFICULTY_MEDIUM = 45 /\
  sudoku_holes_for_difficulty SUDOKU_DIFFICULTY_HARD = 55 /\
  forall d : Z,
    d <> SUDOKU_DIFFICULTY_EASY -> d <> SUDOKU_DIFFICULTY_MEDIUM ->
    d <> SUDOKU_DIFFICULTY_HARD -> sudoku_holes_for_difficulty d = 45.
Proof.
  repeat split; try reflexivity.
  intros d He Hm Hh. unfold sudoku_holes_for_difficulty.
  destruct (Z.eqb_spec d SUDOKU_DIFFICULTY_EASY); [contradiction|].
  destruct (Z.eqb_spec d SUDOKU_DIFFICULTY_MEDIUM); [contradiction|].
  destruct (Z.eqb_spec d SUDOKU_DIFFICULTY_HARD); [contradiction|reflexivity].
Qed.

Lemma holes_for_difficulty_table_witness :
  sudoku_holes_for_difficulty 7 = 45 /\ sudoku_holes_for_difficulty (-1) = 45.
Proof.
  destruct holes_for_difficulty_table as (_ & _ & _ & Hother).
  split; apply Hother; discriminate.
Defined.

(** ** Validator *)

(** C5: [sudoku_can_place] answers false whenever [row] or [col] is
    outside 0..8 or [value] is outside 1..9 (and on a null board);
    otherwise it answers false exactly when [value] already occurs in row
    [row], in column [col] or in the 3x3 box of [(row, col)].  Its only
    output is the answer. *)
Theorem can_place_contract (b : SudokuBoard) (row col value : Z) :
  sudoku_can_place None row col value = false /\
  (row < 0 \/ 8 < row \/ col < 0 \/ 8 < col \/ value < 1 \/ 9 < value ->
   sudoku_can_place (Some b) row col value = false) /\
  (0 <= row <= 8 -> 0 <= col <= 8 -> 1 <= value <= 9 ->
   (sudoku_can_place (Some b) row col value = false <->
    in_row b (Z.to_nat row) value \/ in_col b (Z.to_nat col) value \/
    in_box b (Z.to_nat row) (Z.to_nat col) value)).
Proof.
  split; [reflexivity|]. split.
  - intros Hout.
    destruct (sudoku_can_place (Some b) row col value) eqn:Hok; [|reflexivity].
    apply can_place_guards in Hok. lia.
  - intros Hrow Hcol Hvalue.
    rewrite <- (Z2Nat.id row) at 1 by lia. rewrite <- (Z2Nat.id col) at 1 by lia.
    apply can_place_scans; lia.
Qed.

Lemma can_place_contract_witness :
  sudoku_can_place (Some clash_board) 0 5 5 = false /\
  sudoku_can_place (Some clash_board) 2 2 5 = false /\
  sudoku_can_place (Some clash_board) 0 9 1 = false /\
  in_row clash_board 0 5.
Proof.
  destruct (can_place_contract clash_board 0 9 1) as (_ & Hout & _).
  destruct (can_place_contract clash_board 0 5 5) as (_ & _ & Hrow);
    specialize (Hrow ltac:(lia) ltac:(lia) ltac:(lia)).
  destruct (can_place_contract clash_board 2 2 5) as (_ & _ & Hbox);
    specialize (Hbox ltac:(lia) ltac:(lia) ltac:(lia)).
  assert (Hin : in_row clash_board 0 5) by (exists 0%nat; split; [lia|reflexivity]).
  split; [apply Hrow; left; exact Hin|].
  split; [|split; [apply Hout; lia|exact Hin]].
  apply Hbox. right. right. exists 0%nat, 0%nat. repeat split; lia || reflexivity.
Defined.

(** ** Solver *)

Section SolverClaims.

Context {RngState : Type}.
Variable srand : Z -> RngState.
Variable rand : RngState -> N * RngState.

Implicit Types (w : World RngState) (b : SudokuBoard).

(** A completion holds a digit 1..9 in every cell and passes
    [sudoku_is_valid_partial]. *)
Lemma completes_digits b s :
  completes b s ->
  (forall r c, (r < 9)%nat -> (c < 9)%nat -> 1 <= cell s r c <= 9) /\
  sudoku_is_valid_partial (Some s) = true.
Proof.
  intros (Hwf & Hfull & Hvalid & _). split.
  - intros r c Hr Hc. exact (proj1 (Hvalid r c Hr Hc (Hfull r c Hr Hc))).
  - apply is_valid_partial_spec; assumption.
Qed.

(** C7: on a board that is already fully filled and passes
    [sudoku_is_valid_partial], [sudoku_solve] returns [SUDOKU_OK] and
    the board it leaves is the board it was given. *)
Theorem solve_solved_board_unchanged b w :
  board_wf b -> board_full b -> sudoku_is_valid_partial (Some b) = true ->
  exists w', sudoku_solve srand rand (Some b) w = Some (SUDOKU_OK, Some b, w').
Proof.
  intros Hwf Hfull Hvalid.
  destruct (sudoku_solve_post srand rand b w Hwf) as (r & b' & w' & Hres & _ & _ & _).
  exists w'. rewrite Hres. unfold sudoku_solve in Hres. rewrite Hvalid in Hres.
  cbn [negb] in Hres. unfold SOLVE_DEPTH in Hres. cbn [solve_backtrack] in Hres.
  rewrite (proj2 (find_empty_cell_None b) Hfull) in Hres. congruence.
Qed.

(** C1: [sudoku_solve] answers [SUDOKU_ERR_INVALID_ARG] on a null
    board; [SUDOKU_ERR_UNSOLVABLE] when [sudoku_is_valid_partial]
    rejects the board or the search comes back without a solution; it
    always returns; and when it answers [SUDOKU_OK] the board holds a
    digit 1..9 in each of its 81 cells, passes the validity check and
    keeps every cell that was non-zero before the call. *)
Theorem sudoku_solve_contract b w :
  board_wf b ->
  sudoku_solve srand rand None w = Some (SUDOKU_ERR_INVALID_ARG, None, w) /\
  (sudoku_is_valid_partial (Some b) = false ->
   sudoku_solve srand rand (Some b) w
   = Some (SUDOKU_ERR_UNSOLVABLE, Some b, seed_if_needed srand w)) /\
  (forall b' w',
      sudoku_is_valid_partial (Some b) = true ->
      solve_backtrack rand SOLVE_DEPTH b (seed_if_needed srand w) = Some (false, b', w') ->
      sudoku_solve srand rand (Some b) w = Some (SUDOKU_ERR_UNSOLVABLE, Some b', w')) /\
  (exists r ob w', sudoku_solve srand rand (Some b) w = Some (r, ob, w')) /\
  (forall ob w',
      sudoku_solve srand rand (Some b) w = Some (SUDOKU_OK, ob, w') ->
      exists b',
        ob = Some b' /\ board_wf b' /\
        (forall r c, (r < 9)%nat -> (c < 9)%nat -> 1 <= cell b' r c <= 9) /\
        sudoku_is_valid_partial (Some b') = true /\ board_valid b' /\
        (forall r c, (r < 9)%nat -> (c < 9)%nat ->
                     cell b r c <> 0 -> cell b' r c = cell b r c)).
Proof.
  intros Hwf. split; [reflexivity|]. split; [|split; [|split]].
  - intros Hbad. unfold sudoku_solve. rewrite Hbad. reflexivity.
  - intros b' w' Hgood Hsearch. unfold sudoku_solve. rewrite Hgood, Hsearch. reflexivity.
  - destruct (sudoku_solve_post srand rand b w Hwf) as (r & b' & w' & Hres & _).
    exists r, (Some b'), w'. exact Hres.
  - intros ob w' Hok.
    destruct (sudoku_solve_post srand rand b w Hwf) as (r & b' & w1 & Hres & _ & _ & Hsucc).
    rewrite Hres in Hok. injection Hok as -> <- <-.
    specialize (Hsucc eq_refl). destruct (completes_digits b b' Hsucc) as [Hdigits Hvalid].
    destruct Hsucc as (Hwf' & _ & Hval & Hext).
    exists b'. split; [reflexivity|]. split; [exact Hwf'|]. split; [exact Hdigits|].
    split; [exact Hvalid|]. split; [exact Hval|exact Hext].
Qed.

(** C10: when [sudoku_solve] answers anything but [SUDOKU_OK] on a
    board, the board it leaves is the board it was given; in particular
    a search that comes back without a solution has reset every cell it
    tried. *)
Theorem sudoku_solve_failure_atomic b w :
  board_wf b ->
  (forall r ob w',
      sudoku_solve srand rand (Some b) w = Some (r, ob, w') ->
      r <> SUDOKU_OK -> ob = Some b) /\
  (forall b' w',
      solve_backtrack rand SOLVE_DEPTH b w = Some (false, b', w') -> b' = b).
Proof.
  intros Hwf. split.
  - intros r ob w' Hres Hfail.
    destruct (sudoku_solve_post srand rand b w Hwf) as (r1 & b1 & w1 & Hres1 & _ & Hsame & _).
    rewrite Hres1 in Hres. injection Hres as -> <- <-. rewrite (Hsame Hfail). reflexivity.
  - intros b' w' Hsearch.
    destruct (solve_backtrack_post rand SOLVE_DEPTH b w Hwf)
      as (ok & b1 & w1 & Hres & _ & Hfail & _).
    { pose proof (count_holes_bounds b). unfold SOLVE_DEPTH. lia. }
    rewrite Hres in Hsearch. injection Hsearch as -> <- <-. exact (Hfail eq_refl).
Qed.

End SolverClaims.

Lemma solve_solved_board_unchanged_witness :
  board_wf example_solution /\
  exists w', sudoku_solve lcg_srand lcg_rand (Some example_solution) seeded_world
             = Some (SUDOKU_OK, Some example_solution, w').
Proof.
  assert (Hwf : board_wf example_solution) by apply example_boards_wf.
  split; [exact Hwf|].
  apply (solve_solved_board_unchanged lcg_srand lcg_rand example_solution seeded_world Hwf).
  - apply find_empty_cell_None. vm_compute. reflexivity.
  - vm_compute. reflexivity.
Defined.

Lemma sudoku_solve_contract_witness :
  board_wf example_puzzle /\
  exists b' w',
    sudoku_solve lcg_srand lcg_rand (Some example_puzzle) seeded_world
    = Some (SUDOKU_OK, Some b', w') /\
    sudoku_is_valid_partial (Some b') = true /\
    (forall r c, (r < 9)%nat -> (c < 9)%nat -> 1 <= cell b' r c <= 9) /\
    (forall r c, (r < 9)%nat -> (c < 9)%nat ->
                 cell example_puzzle r c <> 0 -> cell b' r c = cell example_puzzle r c).
Proof.
  assert (Hwf : board_wf example_puzzle) by apply example_boards_wf.
  split; [exact Hwf|].
  destruct (sudoku_solve_contract lcg_srand lcg_rand example_puzzle seeded_world Hwf)
    as (_ & _ & _ & _ & Hok).
  assert (Hrun : exists b' w',
             sudoku_solve lcg_srand lcg_rand (Some example_puzzle) seeded_world
             = Some (SUDOKU_OK, Some b', w'))
    by (eexists _, _; vm_compute; reflexivity).
  destruct Hrun as (b0 & w' & Hrun).
  destruct (Hok (Some b0) w' Hrun) as (b' & Hb' & _ & Hdigits & Hvalid & _ & Hkeep).
  injection Hb' as ->.
  exists b', w'. split; [exact Hrun|]. split; [exact Hvalid|]. split; [exact Hdigits|exact Hkeep].
Defined.

Lemma sudoku_solve_failure_atomic_witness :
  board_wf dead_end_board /\
  sudoku_is_valid_partial (Some dead_end_board) = true /\
  exists w', sudoku_solve lcg_srand lcg_rand (Some dead_end_board) seeded_world
             = Some (SUDOKU_ERR_UNSOLVABLE, Some dead_end_board, w').
Proof.
  assert (Hwf : board_wf dead_end_board) by apply example_boards_wf.
  split; [exact Hwf|]. split; [vm_compute; reflexivity|].
  destruct (sudoku_solve_failure_atomic lcg_srand lcg_rand dead_end_board seeded_world Hwf)
    as [Hatomic _].
  destruct (sudoku_solve lcg_srand lcg_rand (Some dead_end_board) seeded_world)
    as [[[r ob] w']|] eqn:Hrun; [|vm_compute in Hrun; discriminate].
  assert (Hr : r = SUDOKU_ERR_UNSOLVABLE) by (vm_compute in Hrun; congruence).
  subst r. rewrite (Hatomic _ ob w' eq_refl); [|discriminate].
  exists w'. reflexivity.
Defined.

(** ** Generator *)


Section GeneratorClaims.

Context {RngState : Type}.
Variable srand : Z -> RngState.
Variable rand : RngState -> N * RngState.

Implicit Types (w : World RngState) (b p s : SudokuBoard) (st : Carve RngState).

Lemma sudoku_generate_puzzle_unfold p0 s0 (d : Z) w :
  sudoku_generate_puzzle srand rand (Some p0) (Some s0) d w
  = match sudoku_generate_solution srand rand (Some s0) (seed_if_needed srand w) with
    | None => None
    | Some (SUDOKU_OK, out_solution, w1) =>
        match sudoku_copy (Some p0) out_solution with
        | None => None
        | Some p =>
            match carve_loop srand rand (Z.to_nat max_tries)
                             (sudoku_holes_for_difficulty d) (mkCarve p 0 w1) with
            | None => None
            | Some st => Some (SUDOKU_OK, Some (puzzle st), out_solution, world st)
            end
        end
    | Some (r, out_solution, w1) => Some (r, Some p0, out_solution, w1)
    end.
Proof. reflexivity. Qed.

(** How a call of [sudoku_generate_puzzle] on two boards unfolds: a
    solution is generated; a failure is handed on; otherwise the carving
    loop runs on a copy of the solution and exits. *)
Lemma sudoku_generate_puzzle_post p0 s0 (d : Z) w :
  board_wf s0 ->
  exists r s w1,
    sudoku_generate_solution srand rand (Some s0) (seed_if_needed srand w)
    = Some (r, Some s, w1) /\
    board_wf s /\
    (r <> SUDOKU_OK ->
     sudoku_generate_puzzle srand rand (Some p0) (Some s0) d w
     = Some (r, Some p0, Some s, w1)) /\
    (r = SUDOKU_OK ->
     board_full s /\ board_valid s /\
     exists st,
       carve_loop srand rand (Z.to_nat max_tries) (sudoku_holes_for_difficulty d)
                  (mkCarve s 0 w1) = Some st /\
       sudoku_generate_puzzle srand rand (Some p0) (Some s0) d w
       = Some (SUDOKU_OK, Some (puzzle st), Some s, world st)).
Proof.
  intros Hwf0.
  destruct (sudoku_generate_solution_post srand rand s0 (seed_if_needed srand w) Hwf0)
    as (r & s & w1 & Hgen & Hwf & Hsucc).
  exists r, s, w1. split; [exact Hgen|]. split; [exact Hwf|].
  rewrite sudoku_generate_puzzle_unfold, Hgen. split.
  - intros Hfail. destruct r; [contradiction|reflexivity..].
  - intros ->. destruct (Hsucc eq_refl) as [Hfull Hvalid].
    split; [exact Hfull|]. split; [exact Hvalid|]. cbn [sudoku_copy].
    destruct (carve_loop_terminates srand rand (Z.to_nat max_tries)
                (sudoku_holes_for_difficulty d) (mkCarve s 0 w1)) as [st Hloop].
    { exact Hwf. }
    { cbn [tries]. unfold max_tries. lia. }
    exists st. split; [exact Hloop|]. rewrite Hloop. reflexivity.
Qed.

(** A successful call returns the boards and the loop state described
    by [sudoku_generate_puzzle_post]. *)
Lemma sudoku_generate_puzzle_ok p0 s0 (d : Z) w op os w' :
  board_wf s0 ->
  sudoku_generate_puzzle srand rand (Some p0) (Some s0) d w = Some (SUDOKU_OK, op, os, w') ->
  exists s w1 st,
    sudoku_generate_solution srand rand (Some s0) (seed_if_needed srand w)
    = Some (SUDOKU_OK, Some s, w1) /\
    board_wf s /\ board_full s /\ board_valid s /\
    carve_loop srand rand (Z.to_nat max_tries) (sudoku_holes_for_difficulty d)
               (mkCarve s 0 w1) = Some st /\
    op = Some (puzzle st) /\ os = Some s /\ w' = world st.
Proof.
  intros Hwf0 Hrun.
  destruct (sudoku_generate_puzzle_post p0 s0 d w Hwf0)
    as (r & s & w1 & Hgen & Hwf & Hfail & Hsucc).
  destruct r; try (rewrite Hfail in Hrun by discriminate; discriminate).
  destruct (Hsucc eq_refl) as (Hfull & Hvalid & st & Hloop & Hret).
  rewrite Hret in Hrun. injection Hrun as <- <- <-.
  exists s, w1, st. repeat (split; [assumption || reflexivity|]). reflexivity.
Qed.


Lemma holes_for_difficulty_pos (d : Z) : 0 < sudoku_holes_for_difficulty d.
Proof.
  unfold sudoku_holes_for_difficulty.
  destruct (d =? SUDOKU_DIFFICULTY_EASY); [lia|].
  destruct (d =? SUDOKU_DIFFICULTY_MEDIUM); [lia|].
  destruct (d =? SUDOKU_DIFFICULTY_HARD); lia.
Qed.

Lemma carved_from_step s (target : Z) st st' :
  carved_from s target st -> carve_cond target st = true ->
  carve_body srand rand st = Some st' -> carved_from s target st'.
Proof.
  intros (Hwf & Hsub & Hholes) Hcond Hbody.
  apply carve_cond_true in Hcond as [Hbelow _].
  destruct (carve_body_post srand rand st Hwf) as (st1 & Hbody1 & _ & Hwf1 & Hcase).
  rewrite Hbody1 in Hbody. injection Hbody as <-. unfold carved_from.
  destruct Hcase as [Hsame|(rr & cc & w2 & q & w3 & Hr & Hc & Hnz & Hzeroed & _)].
  - rewrite Hsame. split; [exact Hwf|]. split; [exact Hsub|exact Hholes].
  - rewrite Hzeroed. split; [apply set_cell_wf; exact Hwf|]. split.
    + intros r c Hr' Hc'. rewrite cell_set_cell by assumption.
      destruct (decide ((r, c) = (rr, cc))); [congruence|]. apply Hsub; assumption.
    + rewrite count_holes_set_cell by assumption.
      replace (cell (puzzle st) rr cc =? 0) with false by lia. rewrite Z.eqb_refl. lia.
Qed.

(** C3: when [sudoku_generate_puzzle] answers [SUDOKU_OK], every
    non-zero cell of the puzzle equals the solution's cell at that
    position, the puzzle has at most [sudoku_holes_for_difficulty]
    empty cells, and exactly that many when the loop stopped with tries
    to spare. *)
Theorem generated_puzzle_holes p0 s0 (d : Z) w op os w' :
  board_wf s0 ->
  sudoku_generate_puzzle srand rand (Some p0) (Some s0) d w = Some (SUDOKU_OK, op, os, w') ->
  exists p s w1 st,
    op = Some p /\ os = Some s /\
    sudoku_generate_solution srand rand (Some s0) (seed_if_needed srand w)
    = Some (SUDOKU_OK, Some s, w1) /\
    carve_loop srand rand (Z.to_nat max_tries) (sudoku_holes_for_difficulty d)
               (mkCarve s 0 w1) = Some st /\
    puzzle st = p /\
    (forall r c, (r < 9)%nat -> (c < 9)%nat -> cell p r c <> 0 -> cell p r c = cell s r c) /\
    count_holes p <= sudoku_holes_for_difficulty d /\
    (tries st < max_tries -> count_holes p = sudoku_holes_for_difficulty d).
Proof.
  intros Hwf0 Hrun.
  destruct (sudoku_generate_puzzle_ok p0 s0 d w op os w' Hwf0 Hrun)
    as (s & w1 & st & Hgen & Hwf & Hfull & Hvalid & Hloop & -> & -> & _).
  exists (puzzle st), s, w1, st.
  destruct (carve_loop_invariant srand rand
              (carved_from s (sudoku_holes_for_difficulty d))
              (sudoku_holes_for_difficulty d)
              (carved_from_step s (sudoku_holes_for_difficulty d))
              (Z.to_nat max_tries) (mkCarve s 0 w1) st)
    as [(_ & Hsub & Hholes) Hexit]; [|exact Hloop|].
  { split; [exact Hwf|]. split; [intros; reflexivity|]. cbn [puzzle].
    rewrite (count_holes_full s Hfull). pose proof (holes_for_difficulty_pos d). lia. }
  repeat (split; [assumption || reflexivity|]).
  intros Hspare. apply carve_cond_false in Hexit. lia.
Qed.

Lemma completes_solvable p q :
  board_wf p -> completes p q -> solvable_by_solver srand rand p.
Proof. intros Hwf Hcompl w. exact (sudoku_solve_complete srand rand p q w Hwf Hcompl). Qed.

(** C4: solvability is kept by every iteration of the carving loop (a
    cell is zeroed only when [sudoku_solve] solved the reduced board,
    otherwise the puzzle is left as it was), so a puzzle returned with
    [SUDOKU_OK] is solved by [sudoku_solve]. *)
Theorem carving_keeps_solvable p0 s0 (d : Z) w op os w' :
  board_wf s0 ->
  sudoku_generate_puzzle srand rand (Some p0) (Some s0) d w = Some (SUDOKU_OK, op, os, w') ->
  (forall st,
      board_wf (puzzle st) -> solvable_by_solver srand rand (puzzle st) ->
      exists st',
        carve_body srand rand st = Some st' /\
        board_wf (puzzle st') /\ solvable_by_solver srand rand (puzzle st') /\
        (puzzle st' = puzzle st \/
         exists rr cc w2 q w3,
           (rr < 9)%nat /\ (cc < 9)%nat /\
           puzzle st' = set_cell (puzzle st) rr cc 0 /\
           sudoku_solve srand rand (Some (puzzle st')) w2 = Some (SUDOKU_OK, Some q, w3))) /\
  exists p, op = Some p /\ board_wf p /\ solvable_by_solver srand rand p.
Proof.
  intros Hwf0 Hrun.
  assert (Hstep : forall st,
             board_wf (puzzle st) -> solvable_by_solver srand rand (puzzle st) ->
             exists st',
               carve_body srand rand st = Some st' /\
               board_wf (puzzle st') /\ solvable_by_solver srand rand (puzzle st') /\
               (puzzle st' = puzzle st \/
                exists rr cc w2 q w3,
                  (rr < 9)%nat /\ (cc < 9)%nat /\
                  puzzle st' = set_cell (puzzle st) rr cc 0 /\
                  sudoku_solve srand rand (Some (puzzle st')) w2
                  = Some (SUDOKU_OK, Some q, w3))).
  { intros st Hwf Hsolv.
    destruct (carve_body_post srand rand st Hwf) as (st1 & Hbody & _ & Hwf1 & Hcase).
    exists st1. split; [exact Hbody|]. split; [exact Hwf1|].
    destruct Hcase as [Hsame|(rr & cc & w2 & q & w3 & Hr & Hc & _ & Hzeroed & Hsolved & Hcompl)].
    - split; [rewrite Hsame; exact Hsolv|left; exact Hsame].
    - split; [exact (completes_solvable _ q Hwf1 Hcompl)|].
      right. exists rr, cc, w2, q, w3. tauto. }
  split; [exact Hstep|].
  destruct (sudoku_generate_puzzle_ok p0 s0 d w op os w' Hwf0 Hrun)
    as (s & w1 & st & _ & Hwf & Hfull & Hvalid & Hloop & -> & _ & _).
  exists (puzzle st). split; [reflexivity|].
  assert (Hinv : board_wf (puzzle st) /\ solvable_by_solver srand rand (puzzle st));
    [|exact Hinv].
  refine (proj1 (carve_loop_invariant srand rand
            (fun st => board_wf (puzzle st) /\ solvable_by_solver srand rand (puzzle st))
            (sudoku_holes_for_difficulty d) _ _ _ st _ Hloop)).
  - intros st1 st2 [Hwf1 Hsolv1] _ Hbody.
    destruct (Hstep st1 Hwf1 Hsolv1) as (st2' & Hbody' & Hwf2 & Hsolv2 & _).
    rewrite Hbody' in Hbody. injection Hbody as <-. split; assumption.
  - cbn [puzzle]. split; [exact Hwf|]. apply (completes_solvable s s Hwf).
    split; [exact Hwf|]. split; [exact Hfull|]. split; [exact Hvalid|apply board_extends_refl].
Qed.

(** *** Termination of the carving loop *)

Lemma carve_body_tries st st' :
  carve_body srand rand st = Some st' -> tries st' = tries st + 1.
Proof.
  unfold carve_body.
  destruct (rand_int rand 9 (world st)) as [rr w1].
  destruct (rand_int rand 9 w1) as [cc w2].
  destruct (cell (puzzle st) (Z.to_nat rr) (Z.to_nat cc) =? 0).
  - intros Hbody. injection Hbody as <-. reflexivity.
  - destruct (sudoku_solve srand rand _ w2) as [[[r ob] w3]|]; [|discriminate].
    destruct r; intros Hbody; injection Hbody as <-; reflexivity.
Qed.

(** A loop that exits has run exactly as many iterations as it spent
    tries. *)
Lemma carve_loop_exact (iters : nat) (target : Z) st st' :
  carve_loop srand rand iters target st = Some st' ->
  tries st <= tries st' /\
  carve_loop srand rand (Z.to_nat (tries st' - tries st)) target st = Some st'.
Proof.
  revert st. induction iters as [|iters IH]; intros st Hrun;
    rewrite carve_loop_unfold in Hrun;
    destruct (carve_cond target st) eqn:Hcond; try discriminate.
  - injection Hrun as <-. split; [lia|]. rewrite carve_loop_unfold, Hcond. reflexivity.
  - destruct (carve_body srand rand st) as [st1|] eqn:Hbody; [|discriminate].
    pose proof (carve_body_tries st st1 Hbody) as Hspent.
    destruct (IH st1 Hrun) as [Hle Hexact]. split; [lia|].
    replace (Z.to_nat (tries st' - tries st))
      with (S (Z.to_nat (tries st' - tries st1))) by lia.
    rewrite carve_loop_unfold, Hcond, Hbody. exact Hexact.
  - injection Hrun as <-. split; [lia|]. rewrite carve_loop_unfold, Hcond. reflexivity.
Qed.

(** C6: the carving loop always exits.  Every iteration, the skipping
    one included, spends one try; started with [tries = 0] the loop
    exits after exactly [tries] iterations, at most [max_tries] = 2000;
    and [sudoku_generate_puzzle] always returns. *)
Theorem carving_loop_bounded (target : Z) p w :
  board_wf p ->
  (forall st st', carve_body srand rand st = Some st' -> tries st' = tries st + 1) /\
  (forall st rr cc w1 w2,
      rand_int rand 9 (world st) = (rr, w1) -> rand_int rand 9 w1 = (cc, w2) ->
      cell (puzzle st) (Z.to_nat rr) (Z.to_nat cc) = 0 ->
      carve_body srand rand st = Some (mkCarve (puzzle st) (tries st + 1) w2)) /\
  max_tries = 2000 /\
  (exists st',
      carve_loop srand rand (Z.to_nat max_tries) target (mkCarve p 0 w) = Some st' /\
      0 <= tries st' <= max_tries /\
      carve_loop srand rand (Z.to_nat (tries st')) target (mkCarve p 0 w) = Some st') /\
  (forall p0 (d : Z),
      exists r op os w',
        sudoku_generate_puzzle srand rand (Some p0) (Some p) d w = Some (r, op, os, w')).
Proof.
  intros Hwf. split; [exact carve_body_tries|]. split; [|split; [reflexivity|split]].
  - intros st rr cc w1 w2 Hrr Hcc Hempty. unfold carve_body.
    rewrite Hrr, Hcc, Hempty. reflexivity.
  - destruct (carve_loop_terminates srand rand (Z.to_nat max_tries) target (mkCarve p 0 w))
      as [st' Hloop].
    { exact Hwf. }
    { cbn [tries]. unfold max_tries. lia. }
    exists st'. split; [exact Hloop|].
    destruct (carve_loop_exact (Z.to_nat max_tries) target _ st' Hloop) as [Hle Hexact].
    cbn [tries] in Hle, Hexact. rewrite Z.sub_0_r in Hexact.
    split; [|exact Hexact]. split; [exact Hle|].
    refine (proj1 (carve_loop_invariant srand rand (fun st => tries st <= max_tries)
                     target _ (Z.to_nat max_tries) (mkCarve p 0 w) st' _ Hloop)).
    + intros st1 st2 _ Hcond Hbody. apply carve_cond_true in Hcond.
      rewrite (carve_body_tries st1 st2 Hbody). lia.
    + cbn [tries]. unfold max_tries. lia.
  - intros p0 d.
    destruct (sudoku_generate_puzzle_post p0 p d w Hwf)
      as (r & s & w1 & _ & _ & Hfail & Hsucc).
    destruct r;
      try (rewrite Hfail by discriminate; eexists _, _, _, _; reflexivity).
    destruct (Hsucc eq_refl) as (_ & _ & st & _ & Hret).
    rewrite Hret. eexists _, _, _, _. reflexivity.
Qed.

(** *** Seeding *)

Lemma seed_if_needed_idem w :
  seed_if_needed srand (seed_if_needed srand w) = seed_if_needed srand w.
Proof. unfold seed_if_needed. destruct (g_seeded w) eqn:Hs; [rewrite Hs|]; reflexivity. Qed.

(** The three entry points that draw random numbers see the stream
    only through [seed_if_needed]. *)
Lemma sudoku_solve_seeded b w :
  sudoku_solve srand rand (Some b) w
  = sudoku_solve srand rand (Some b) (seed_if_needed srand w).
Proof. unfold sudoku_solve. rewrite seed_if_needed_idem. reflexivity. Qed.

Lemma sudoku_generate_solution_seeded b w :
  sudoku_generate_solution srand rand (Some b) w
  = sudoku_generate_solution srand rand (Some b) (seed_if_needed srand w).
Proof. unfold sudoku_generate_solution. rewrite seed_if_needed_idem. reflexivity. Qed.

Lemma sudoku_generate_puzzle_seeded p0 s0 (d : Z) w :
  sudoku_generate_puzzle srand rand (Some p0) (Some s0) d w
  = sudoku_generate_puzzle srand rand (Some p0) (Some s0) d (seed_if_needed srand w).
Proof. rewrite !sudoku_generate_puzzle_unfold, seed_if_needed_idem. reflexivity. Qed.

Lemma same_outcome_refl o : same_outcome srand o o.
Proof. destruct o as [[r w]|]; cbn; [split; reflexivity|exact I]. Qed.

Lemma api_call_same_stream (c : ApiCall) w1 w2 :
  same_stream srand w1 w2 ->
  same_outcome srand (api_call srand rand c w1) (api_call srand rand c w2).
Proof.
  intros Hsame. destruct c as [seed|[b|]|[out|]|[p0|] [s0|] d]; cbn [api_call].
  - cbn. split; reflexivity.
  - rewrite (sudoku_solve_seeded b w1), (sudoku_solve_seeded b w2), Hsame.
    apply same_outcome_refl.
  - cbn. split; [reflexivity|exact Hsame].
  - rewrite (sudoku_generate_solution_seeded out w1),
      (sudoku_generate_solution_seeded out w2), Hsame.
    apply same_outcome_refl.
  - cbn. split; [reflexivity|exact Hsame].
  - rewrite (sudoku_generate_puzzle_seeded p0 s0 d w1),
      (sudoku_generate_puzzle_seeded p0 s0 d w2), Hsame.
    apply same_outcome_refl.
  - cbn. split; [reflexivity|exact Hsame].
  - cbn. split; [reflexivity|exact Hsame].
  - cbn. split; [reflexivity|exact Hsame].
Qed.

Lemma api_run_same_stream (calls : list ApiCall) w1 w2 :
  same_stream srand w1 w2 ->
  option_map fst (api_run srand rand calls w1) = option_map fst (api_run srand rand calls w2).
Proof.
  revert w1 w2. induction calls as [|c calls IH]; intros w1 w2 Hsame; [reflexivity|].
  cbn [api_run]. pose proof (api_call_same_stream c w1 w2 Hsame) as Hcall.
  destruct (api_call srand rand c w1) as [[r1 w1']|], (api_call srand rand c w2) as [[r2 w2']|];
    cbn in Hcall; try contradiction; [|reflexivity].
  destruct Hcall as [-> Hsame']. specialize (IH w1' w2' Hsame').
  destruct (api_run srand rand calls w1') as [[rets1 v1]|],
           (api_run srand rand calls w2') as [[rets2 v2]|]; cbn in IH |- *; congruence.
Qed.

(** C8: generation is a function of the seed.  Two runs that start
    with [sudoku_seed] of the same value and then make the same calls
    return the same results, whatever the stream was before (so two
    seeded [sudoku_generate_puzzle] calls return the same pair); and a
    run that never seeds returns what the run that first calls
    [sudoku_seed(0)] returns. *)
Theorem seed_determinism :
  (forall (seed : Z) (calls : list ApiCall) w1 w2,
      api_run srand rand (CallSeed seed :: calls) w1
      = api_run srand rand (CallSeed seed :: calls) w2) /\
  (forall (seed : Z) (op os : option SudokuBoard) (d : Z) w1 w2,
      sudoku_generate_puzzle srand rand op os d (sudoku_seed srand seed w1)
      = sudoku_generate_puzzle srand rand op os d (sudoku_seed srand seed w2)) /\
  (forall (calls : list ApiCall) (unseeded : RngState),
      option_map fst (api_run srand rand calls (mkWorld false unseeded))
      = option_map fst (api_run srand rand calls
                                (sudoku_seed srand 0 (mkWorld false unseeded)))).
Proof.
  split; [|split].
  - intros seed calls w1 w2. reflexivity.
  - intros seed op os d w1 w2. reflexivity.
  - intros calls unseeded. apply api_run_same_stream. reflexivity.
Qed.

End GeneratorClaims.

(** ** The generator claims on a concrete run *)


Lemma generated_puzzle_holes_witness :
  board_wf empty_board /\
  exists p s w',
    sudoku_generate_puzzle lcg_srand lcg_rand (Some empty_board) (Some empty_board)
                           SUDOKU_DIFFICULTY_EASY seeded_world
    = Some (SUDOKU_OK, Some p, Some s, w') /\
    count_holes p = 35 /\
    (forall r c, (r < 9)%nat -> (c < 9)%nat -> cell p r c <> 0 -> cell p r c = cell s r c).
Proof.
  assert (Hwf : board_wf empty_board) by apply example_boards_wf.
  split; [exact Hwf|].
  assert (Hrun : exists w',
             sudoku_generate_puzzle lcg_srand lcg_rand (Some empty_board) (Some empty_board)
                                    SUDOKU_DIFFICULTY_EASY seeded_world
             = Some (SUDOKU_OK, Some example_puzzle, Some example_solution, w'))
    by (eexists; vm_compute; reflexivity).
  destruct Hrun as [w' Hrun].
  destruct (generated_puzzle_holes lcg_srand lcg_rand empty_board empty_board
              SUDOKU_DIFFICULTY_EASY seeded_world _ _ w' Hwf Hrun)
    as (p & s & w1 & st & Hp & Hs & Hgen & Hloop & Hst & Hsub & _ & Hexact).
  injection Hp as <-. injection Hs as <-.
  exists example_puzzle, example_solution, w'. split; [exact Hrun|]. split; [|exact Hsub].
  rewrite Hexact; [reflexivity|].
  assert (Hgen' : sudoku_generate_solution lcg_srand lcg_rand (Some empty_board)
                    (seed_if_needed lcg_srand seeded_world) = easy_solution_run)
    by (vm_compute; reflexivity).
  rewrite Hgen' in Hgen. injection Hgen as <-.
  assert (Hloop' : carve_loop lcg_srand lcg_rand (Z.to_nat max_tries)
                     (sudoku_holes_for_difficulty SUDOKU_DIFFICULTY_EASY)
                     (mkCarve example_solution 0 (mkWorld true 2269102680))
                   = easy_carve_run)
    by (vm_compute; reflexivity).
  rewrite Hloop' in Hloop. injection Hloop as <-.
  vm_compute. reflexivity.
Defined.

Lemma carving_keeps_solvable_witness :
  board_wf empty_board /\
  exists p s w',
    sudoku_generate_puzzle lcg_srand lcg_rand (Some empty_board) (Some empty_board)
                           SUDOKU_DIFFICULTY_EASY seeded_world
    = Some (SUDOKU_OK, Some p, Some s, w') /\
    solvable_by_solver lcg_srand lcg_rand p.
Proof.
  assert (Hwf : board_wf empty_board) by apply example_boards_wf.
  split; [exact Hwf|].
  assert (Hrun : exists w',
             sudoku_generate_puzzle lcg_srand lcg_rand (Some empty_board) (Some empty_board)
                                    SUDOKU_DIFFICULTY_EASY seeded_world
             = Some (SUDOKU_OK, Some example_puzzle, Some example_solution, w'))
    by (eexists; vm_compute; reflexivity).
  destruct Hrun as [w' Hrun].
  destruct (carving_keeps_solvable lcg_srand lcg_rand empty_board empty_board
              SUDOKU_DIFFICULTY_EASY seeded_world _ _ w' Hwf Hrun)
    as (_ & p & Hp & _ & Hsolvable).
  injection Hp as <-.
  exists example_puzzle, example_solution, w'. split; [exact Hrun|exact Hsolvable].
Defined.

Lemma carving_loop_bounded_witness :
  board_wf example_solution /\
  exists st',
    carve_loop lcg_srand lcg_rand (Z.to_nat max_tries) 35
               (mkCarve example_solution 0 seeded_world) = Some st' /\
    0 <= tries st' <= max_tries.
Proof.
  assert (Hwf : board_wf example_solution) by apply example_boards_wf.
  split; [exact Hwf|].
  destruct (carving_loop_bounded lcg_srand lcg_rand 35 example_solution seeded_world Hwf)
    as (_ & _ & _ & (st' & Hloop & Hbound & _) & _).
  exists st'. split; [exact Hloop|exact Hbound].
Defined.

(** ** Generation never fails *)

Lemma example_solution_full_valid :
  board_full example_solution /\ board_valid example_solution.
Proof.
  split.
  - apply find_empty_cell_None. vm_compute. reflexivity.
  - apply is_valid_partial_spec; [apply example_boards_wf|]. vm_compute. reflexivity.
Qed.

Section GenerationSucceeds.

Context {RngState : Type}.
Variable srand : Z -> RngState.
Variable rand : RngState -> N * RngState.

Implicit Types (w : World RngState) (b p s : SudokuBoard).

(** The search from the cleared board always finds a full board: the
    cleared board has a completion, and the search is complete. *)
Lemma sudoku_generate_solution_succeeds b w :
  board_wf b ->
  exists s w', sudoku_generate_solution srand rand (Some b) w = Some (SUDOKU_OK, Some s, w').
Proof.
  intros Hwf. unfold sudoku_generate_solution.
  destruct (sudoku_clear_post b Hwf) as (b0 & -> & Hwf0 & Hzero).
  destruct (solve_backtrack_complete rand SOLVE_DEPTH b0 (seed_if_needed srand w)
              example_solution Hwf0) as (s & w' & ->).
  - pose proof (count_holes_bounds b0). unfold SOLVE_DEPTH. lia.
  - destruct example_solution_full_valid as [Hfull Hvalid].
    split; [apply example_boards_wf|]. split; [exact Hfull|]. split; [exact Hvalid|].
    intros r c Hr Hc Hnz. exfalso. exact (Hnz (Hzero r c Hr Hc)).
  - exists s, w'. reflexivity.
Qed.

Lemma sudoku_generate_puzzle_succeeds p0 s0 (d : Z) w :
  board_wf s0 ->
  exists p s w',
    sudoku_generate_puzzle srand rand (Some p0) (Some s0) d w
    = Some (SUDOKU_OK, Some p, Some s, w').
Proof.
  intros Hwf0.
  destruct (sudoku_generate_puzzle_post srand rand p0 s0 d w Hwf0)
    as (r & s & w1 & Hgen & _ & _ & Hsucc).
  destruct (sudoku_generate_solution_succeeds s0 (seed_if_needed srand w) Hwf0)
    as (s' & w1' & Hok).
  rewrite Hok in Hgen. injection Hgen as <- <- <-.
  destruct (Hsucc eq_refl) as (_ & _ & st & _ & Hret).
  exists (puzzle st), s', (world st). exact Hret.
Qed.

End GenerationSucceeds.

(** * Further properties of the engine *)

(** ** Board helpers *)

(** X1: [sudoku_clear] turns every board into the all-zero board and does
    nothing on a null pointer. *)
Theorem sudoku_clear_empties (b : SudokuBoard) :
  board_wf b ->
  sudoku_clear (Some b) = Some empty_board /\ sudoku_clear None = None /\
  count_holes empty_board = 81.
Proof.
  intros Hwf. split; [|split; [reflexivity|vm_compute; reflexivity]].
  destruct (sudoku_clear_post b Hwf) as (b0 & -> & Hwf0 & Hzero). f_equal.
  apply board_ext; [exact Hwf0|apply example_boards_wf|].
  intros r c Hr Hc. rewrite (Hzero r c Hr Hc).
  do 9 (destruct r as [|r]; [do 9 (destruct c as [|c]; [reflexivity|]); lia|]). lia.
Qed.

Lemma sudoku_clear_empties_witness :
  board_wf example_puzzle /\ sudoku_clear (Some example_puzzle) = Some empty_board.
Proof.
  assert (Hwf : board_wf example_puzzle) by apply example_boards_wf.
  split; [exact Hwf|]. apply (sudoku_clear_empties example_puzzle Hwf).
Defined.

(** ** Empty cells *)

Lemma find_first {A : Type} (f : A -> bool) (l : list A) (x : A) :
  find f l = Some x ->
  exists i, l !! i = Some x /\ forall j y, (j < i)%nat -> l !! j = Some y -> f y = false.
Proof.
  induction l as [|h t IH]; cbn [find]; [discriminate|].
  destruct (f h) eqn:Hh.
  - intros Heq. injection Heq as <-. exists 0%nat. split; [reflexivity|]. intros j y Hj. lia.
  - intros Hfind. destruct (IH Hfind) as (i & Hi & Hbefore).
    exists (S i). split; [exact Hi|]. intros [|j] y Hj Hy.
    + cbn in Hy. congruence.
    + cbn in Hy. apply (Hbefore j y); [lia|exact Hy].
Qed.

(** The index pairs come in row-major order: [(r, c)] is the pair
    number [9 r + c]. *)
Lemma positions_lookup (i : nat) (r c : nat) :
  positions !! i = Some (r, c) <-> (r < 9)%nat /\ (c < 9)%nat /\ i = (9 * r + c)%nat.
Proof.
  split.
  - intros Hi. assert (Hlt : (i < 81)%nat) by (apply lookup_lt_Some in Hi; exact Hi).
    do 81 (destruct i as [|i]; [cbn in Hi; injection Hi as <- <-; lia|]). lia.
  - intros (Hr & Hc & ->).
    do 9 (destruct r as [|r]; [do 9 (destruct c as [|c]; [reflexivity|]); lia|]). lia.
Qed.

(** X2: [find_empty_cell] reports the first empty cell in row-major order:
    the cell it names is empty and every cell before it is filled; it
    reports none exactly when no cell is empty. *)
Theorem find_empty_cell_first (b : SudokuBoard) :
  (forall r c, find_empty_cell b = Some (r, c) ->
     (r < 9)%nat /\ (c < 9)%nat /\ cell b r c = 0 /\
     forall r' c', (r' < 9)%nat -> (c' < 9)%nat ->
                   (r' < r)%nat \/ (r' = r /\ (c' < c)%nat) -> cell b r' c' <> 0) /\
  (find_empty_cell b = None <->
   forall r c, (r < 9)%nat -> (c < 9)%nat -> cell b r c <> 0).
Proof.
  split; [|apply find_empty_cell_None].
  intros r c Hfind. destruct (find_empty_cell_Some b r c Hfind) as (Hr & Hc & Hz).
  split; [exact Hr|]. split; [exact Hc|]. split; [exact Hz|].
  intros r' c' Hr' Hc' Hbefore.
  destruct (find_first _ _ _ Hfind) as (i & Hi & Hfirst).
  apply positions_lookup in Hi as (_ & _ & ->).
  assert (Hpos : positions !! (9 * r' + c')%nat = Some (r', c'))
    by (apply positions_lookup; lia).
  assert (Hlt : (9 * r' + c' < 9 * r + c)%nat) by lia.
  specialize (Hfirst _ _ Hlt Hpos). cbn beta iota in Hfirst. lia.
Qed.

Lemma find_empty_cell_first_witness :
  find_empty_cell dead_end_board = Some (0%nat, 8%nat) /\
  cell dead_end_board 0 8 = 0 /\ cell dead_end_board 0 7 <> 0.
Proof.
  destruct (find_empty_cell_first dead_end_board) as [Hfirst _].
  assert (Hfind : find_empty_cell dead_end_board = Some (0%nat, 8%nat))
    by (vm_compute; reflexivity).
  destruct (Hfirst _ _ Hfind) as (_ & _ & Hz & Hbefore).
  split; [exact Hfind|]. split; [exact Hz|]. apply Hbefore; lia.
Defined.

(** X3: [count_holes] counts the empty cells: it lies in 0..81, is 0 exactly
    on a board without empty cell, and writing one cell moves it by what
    that cell gains or loses. *)
Theorem count_holes_counts (b : SudokuBoard) :
  board_wf b ->
  0 <= count_holes b <= 81 /\
  (count_holes b = 0 <-> forall r c, (r < 9)%nat -> (c < 9)%nat -> cell b r c <> 0) /\
  (forall r c v, (r < 9)%nat -> (c < 9)%nat ->
     count_holes (set_cell b r c v)
     = count_holes b + (if v =? 0 then 1 else 0) - (if cell b r c =? 0 then 1 else 0)).
Proof.
  intros Hwf. split; [apply count_holes_bounds|]. split.
  - split; [|apply count_holes_full].
    intros Hnone r c Hr Hc Hz.
    pose proof (count_holes_set_cell b r c 1 Hwf Hr Hc) as Hset.
    assert (Hone : (1 =? 0) = false) by reflexivity.
    rewrite Hz, Hone, Z.eqb_refl in Hset.
    pose proof (count_holes_bounds (set_cell b r c 1)). lia.
  - intros r c v Hr Hc. apply count_holes_set_cell; assumption.
Qed.

Lemma count_holes_counts_witness :
  board_wf example_solution /\ count_holes example_solution = 0 /\
  count_holes (set_cell example_solution 4 4 0) = 1.
Proof.
  assert (Hwf : board_wf example_solution) by apply example_boards_wf.
  destruct (count_holes_counts example_solution Hwf) as (_ & Hzero & Hset).
  split; [exact Hwf|]. split.
  - apply Hzero. apply find_empty_cell_None. vm_compute. reflexivity.
  - rewrite (Hset 4%nat 4%nat 0); [vm_compute; reflexivity|lia|lia].
Defined.

(** ** The shuffle *)

Lemma insert_swap_head (t : list Z) (k : nat) (y h : Z) :
  t !! k = Some y -> Permutation (y :: <[k := h]> t) (h :: t).
Proof.
  revert k. induction t as [|z t IH]; intros [|k] Hk; cbn in Hk; try discriminate.
  - injection Hk as ->. cbn. apply perm_swap.
  - cbn [insert list_insert]. change (<[S k := h]> (z :: t)) with (z :: <[k := h]> t).
    rewrite perm_swap. rewrite (IH k Hk). apply perm_swap.
Qed.

Lemma swap_permutation (a : list Z) (i j : nat) (x y : Z) :
  a !! i = Some x -> a !! j = Some y ->
  Permutation (<[j := x]> (<[i := y]> a)) a.
Proof.
  revert i j. induction a as [|h t IH]; intros i j Hi Hj; [destruct i; discriminate|].
  destruct i as [|i], j as [|j]; cbn in Hi, Hj.
  - injection Hi as ->. injection Hj as ->. reflexivity.
  - injection Hi as ->.
    change (<[S j := x]> (<[0%nat := y]> (x :: t))) with (y :: <[j := x]> t).
    apply insert_swap_head. exact Hj.
  - injection Hj as ->.
    change (<[0%nat := x]> (<[S i := y]> (y :: t))) with (x :: <[i := y]> t).
    apply insert_swap_head. exact Hi.
  - change (<[S j := x]> (<[S i := y]> (h :: t))) with (h :: <[j := x]> (<[i := y]> t)).
    apply perm_skip. apply IH; assumption.
Qed.

Section Shuffle.

Context {RngState : Type}.
Variable rand : RngState -> N * RngState.

Implicit Types (w : World RngState).

Lemma shuffle_from_permutation (i : nat) (a a' : list Z) w w' :
  (i < length a)%nat -> shuffle_from rand i a w = (a', w') -> Permutation a' a.
Proof.
  revert a w. induction i as [|i IH]; intros a w Hi Hrun.
  - cbn in Hrun. injection Hrun as <- _. reflexivity.
  - cbn [shuffle_from] in Hrun.
    pose proof (rand_int_range rand (Z.of_nat (S i) + 1) w ltac:(lia)) as Hj.
    destruct (rand_int rand (Z.of_nat (S i) + 1) w) as [j w1]. cbn [fst] in Hj.
    destruct (lookup_lt_is_Some_2 a (S i) Hi) as [x Hx].
    destruct (lookup_lt_is_Some_2 a (Z.to_nat j) ltac:(lia)) as [y Hy].
    rewrite Hx, Hy in Hrun. cbn [default from_option id] in Hrun.
    apply IH in Hrun; [|rewrite !length_insert; lia].
    rewrite Hrun. apply swap_permutation; assumption.
Qed.

(** X4: [shuffle_ints] on the first [n] entries of an array that has them
    returns a rearrangement of the array: nothing is lost, duplicated or
    invented, whatever [rand] yields. *)
Theorem shuffle_ints_permutation (a a' : list Z) (n : nat) w w' :
  (n <= length a)%nat -> shuffle_ints rand a n w = (a', w') ->
  Permutation a' a /\ length a' = length a.
Proof.
  intros Hn Hrun. unfold shuffle_ints in Hrun.
  assert (Hperm : Permutation a' a).
  { destruct a as [|h t].
    - assert (n = 0)%nat as -> by (cbn in Hn; lia). cbn in Hrun. injection Hrun as <- _.
      reflexivity.
    - apply (shuffle_from_permutation (n - 1) (h :: t) a' w w'); [cbn in *; lia|exact Hrun]. }
  split; [exact Hperm|]. apply Permutation_length. exact Hperm.
Qed.

End Shuffle.

Lemma shuffle_ints_permutation_witness :
  (9 <= length [1; 2; 3; 4; 5; 6; 7; 8; 9]%Z)%nat /\
  shuffle_ints lcg_rand [1; 2; 3; 4; 5; 6; 7; 8; 9] 9 seeded_world
  = ([5; 7; 4; 3; 8; 2; 9; 1; 6], mkWorld true 1061809152) /\
  Permutation [5; 7; 4; 3; 8; 2; 9; 1; 6] [1; 2; 3; 4; 5; 6; 7; 8; 9].
Proof.
  assert (Hn : (9 <= length [1; 2; 3; 4; 5; 6; 7; 8; 9]%Z)%nat) by (cbn; lia).
  assert (Hrun : shuffle_ints lcg_rand [1; 2; 3; 4; 5; 6; 7; 8; 9] 9 seeded_world
                 = ([5; 7; 4; 3; 8; 2; 9; 1; 6], mkWorld true 1061809152))
    by (vm_compute; reflexivity).
  split; [exact Hn|]. split; [exact Hrun|].
  exact (proj1 (shuffle_ints_permutation lcg_rand _ _ 9 _ _ Hn Hrun)).
Defined.

(** ** Validator *)

(** X5: [sudoku_is_valid_partial] accepts a board exactly when every cell
    holds 0..9 and no two different cells of one row, column or box hold
    the same non-zero value; it rejects the null board. *)
Theorem is_valid_partial_characterised (b : SudokuBoard) :
  board_wf b ->
  sudoku_is_valid_partial None = false /\
  (sudoku_is_valid_partial (Some b) = true <->
   (forall r c, (r < 9)%nat -> (c < 9)%nat -> 0 <= cell b r c <= 9) /\
   (forall r c r' c', (r < 9)%nat -> (c < 9)%nat -> (r' < 9)%nat -> (c' < 9)%nat ->
                      (r, c) <> (r', c') -> same_unit r c r' c' ->
                      cell b r c <> 0 -> cell b r c <> cell b r' c')).
Proof.
  intros Hwf. split; [reflexivity|]. rewrite (is_valid_partial_spec b Hwf). split.
  - intros Hvalid. split.
    + intros r c Hr Hc. destruct (Z.eq_dec (cell b r c) 0) as [Hz|Hnz]; [lia|].
      destruct (Hvalid r c Hr Hc Hnz). lia.
    + intros r c r' c' Hr Hc Hr' Hc' Hdiff Hunit Hnz Heq.
      destruct (Hvalid r c Hr Hc Hnz) as [_ Hother].
      apply (Hother r' c' Hr' Hc'); [congruence|exact Hunit|congruence].
  - intros [Hrange Hdistinct] r c Hr Hc Hnz. split.
    + specialize (Hrange r c Hr Hc). lia.
    + intros r' c' Hr' Hc' Hdiff Hunit Heq.
      apply (Hdistinct r c r' c'); try assumption; congruence.
Qed.

Lemma is_valid_partial_characterised_witness :
  board_wf clash_board /\ sudoku_is_valid_partial (Some clash_board) = false /\
  cell clash_board 0 0 = cell clash_board 0 1.
Proof.
  assert (Hwf : board_wf clash_board) by apply example_boards_wf.
  destruct (is_valid_partial_characterised clash_board Hwf) as [_ Hiff].
  split; [exact Hwf|]. split; [|reflexivity].
  destruct (sudoku_is_valid_partial (Some clash_board)) eqn:Hv; [|reflexivity].
  exfalso. destruct (proj1 Hiff eq_refl) as [_ Hdistinct].
  apply (Hdistinct 0%nat 0%nat 0%nat 1%nat);
    [lia|lia|lia|lia|discriminate|left; reflexivity|discriminate|reflexivity].
Defined.

(** X6: On a valid board, [sudoku_can_place] accepts a non-zero value at an
    empty cell exactly when the board with that value written there is
    still valid. *)
Theorem can_place_iff_stays_valid (b : SudokuBoard) (r c : nat) (v : Z) :
  board_wf b -> (r < 9)%nat -> (c < 9)%nat ->
  sudoku_is_valid_partial (Some b) = true -> cell b r c = 0 -> v <> 0 ->
  (sudoku_can_place (Some b) (Z.of_nat r) (Z.of_nat c) v = true <->
   sudoku_is_valid_partial (Some (set_cell b r c v)) = true).
Proof.
  intros Hwf Hr Hc Hvalid Hempty Hv.
  apply is_valid_partial_spec in Hvalid; [|exact Hwf].
  rewrite (is_valid_partial_spec (set_cell b r c v)) by (apply set_cell_wf; exact Hwf).
  split.
  - intros Hok. apply board_valid_place; assumption.
  - intros Hafter. apply can_place_true.
    destruct (Hafter r c Hr Hc) as [Hrange Hother].
    { rewrite cell_set_cell_eq by assumption. exact Hv. }
    rewrite cell_set_cell_eq in Hrange, Hother by assumption.
    split; [exact Hr|]. split; [exact Hc|]. split; [exact Hrange|].
    intros r' c' Hr' Hc' Hunit.
    destruct (decide ((r', c') = (r, c))) as [Heq|Hne].
    + inversion Heq; subst. lia.
    + specialize (Hother r' c' Hr' Hc' Hne Hunit).
      rewrite cell_set_cell_ne in Hother by exact Hne. exact Hother.
Qed.

Lemma can_place_iff_stays_valid_witness :
  board_wf dead_end_board /\
  sudoku_can_place (Some dead_end_board) 1 0 2 = false /\
  sudoku_is_valid_partial (Some (set_cell dead_end_board 1 0 2)) = false.
Proof.
  assert (Hwf : board_wf dead_end_board) by apply example_boards_wf.
  destruct (can_place_iff_stays_valid dead_end_board 1 0 2 Hwf) as [Hto Hfrom];
    try lia; try (vm_compute; reflexivity).
  split; [exact Hwf|].
  assert (Hno : sudoku_can_place (Some dead_end_board) 1 0 2 = false)
    by (vm_compute; reflexivity).
  split; [exact Hno|].
  destruct (sudoku_is_valid_partial (Some (set_cell dead_end_board 1 0 2))) eqn:Hv;
    [|reflexivity].
  change (sudoku_can_place (Some dead_end_board) (Z.of_nat 1) (Z.of_nat 0) 2 = false) in Hno.
  rewrite (Hfrom eq_refl) in Hno. discriminate.
Defined.

(** X7: [sudoku_can_place] never accepts the value that already sits in the
    cell it is asked about: the row scan meets the cell itself.  (This is
    why [sudoku_is_valid_partial] zeroes the cell in a copy first.) *)
Theorem can_place_rejects_own_value (b : SudokuBoard) (row col : Z) :
  sudoku_can_place (Some b) row col (cell b (Z.to_nat row) (Z.to_nat col)) = false.
Proof.
  destruct (sudoku_can_place (Some b) row col (cell b (Z.to_nat row) (Z.to_nat col)))
    eqn:Hok; [|reflexivity].
  exfalso. pose proof (can_place_guards _ _ _ _ Hok) as (Hrow & Hcol & _).
  rewrite <- (Z2Nat.id row) in Hok at 1 by lia.
  rewrite <- (Z2Nat.id col) in Hok at 1 by lia.
  apply can_place_true in Hok as (Hr & Hc & _ & Hfree).
  apply (Hfree (Z.to_nat row) (Z.to_nat col) Hr Hc); [left; reflexivity|reflexivity].
Qed.

(** ** Solver and generator *)

Section EngineExtras.

Context {RngState : Type}.
Variable srand : Z -> RngState.
Variable rand : RngState -> N * RngState.

Implicit Types (w : World RngState) (b p s : SudokuBoard) (st : Carve RngState).

(** X8: The verdict of [sudoku_solve] is exact and does not depend on the
    random stream: a board that has a completion is solved from every
    stream state, and a board without completion is reported
    [SUDOKU_ERR_UNSOLVABLE] and left untouched. *)
Theorem sudoku_solve_verdict_exact b :
  board_wf b ->
  ((exists s, completes b s) ->
   forall w, exists b' w',
     sudoku_solve srand rand (Some b) w = Some (SUDOKU_OK, Some b', w') /\ completes b b') /\
  ((forall s, ~ completes b s) ->
   forall w, exists w',
     sudoku_solve srand rand (Some b) w = Some (SUDOKU_ERR_UNSOLVABLE, Some b, w')).
Proof.
  intros Hwf. split.
  - intros [s Hcompl] w. exact (sudoku_solve_complete srand rand b s w Hwf Hcompl).
  - intros Hnone w.
    destruct (sudoku_solve_post srand rand b w Hwf) as (r & b' & w' & Hres & Hcode & Hfail & Hsucc).
    destruct Hcode as [-> | ->].
    + exfalso. exact (Hnone b' (Hsucc eq_refl)).
    + exists w'. rewrite Hres, (Hfail ltac:(discriminate)). reflexivity.
Qed.

(** X9: A board that holds the same non-zero value in two different cells
    of one row, column or box is refused by [sudoku_solve] with
    [SUDOKU_ERR_UNSOLVABLE] before any search: the board is untouched and
    no random number is drawn. *)
Theorem sudoku_solve_rejects_duplicate b w (r c r' c' : nat) :
  board_wf b -> (r < 9)%nat -> (c < 9)%nat -> (r' < 9)%nat -> (c' < 9)%nat ->
  (r, c) <> (r', c') -> same_unit r c r' c' ->
  cell b r c <> 0 -> cell b r c = cell b r' c' ->
  sudoku_solve srand rand (Some b) w
  = Some (SUDOKU_ERR_UNSOLVABLE, Some b, seed_if_needed srand w).
Proof.
  intros Hwf Hr Hc Hr' Hc' Hdiff Hunit Hnz Hsame. unfold sudoku_solve.
  destruct (sudoku_is_valid_partial (Some b)) eqn:Hvalid; [|reflexivity].
  exfalso. apply is_valid_partial_spec in Hvalid; [|exact Hwf].
  destruct (Hvalid r c Hr Hc Hnz) as [_ Hother].
  apply (Hother r' c' Hr' Hc'); [congruence|exact Hunit|congruence].
Qed.

(** X10: Generation never fails: on non-null boards
    [sudoku_generate_solution] and [sudoku_generate_puzzle] always answer
    [SUDOKU_OK]; the [SUDOKU_ERR_UNSOLVABLE] exit of the generator is
    never taken. *)
Theorem generation_never_fails p0 s0 (d : Z) w :
  board_wf s0 ->
  (exists s w',
      sudoku_generate_solution srand rand (Some s0) w = Some (SUDOKU_OK, Some s, w')) /\
  (exists p s w',
      sudoku_generate_puzzle srand rand (Some p0) (Some s0) d w
      = Some (SUDOKU_OK, Some p, Some s, w')).
Proof.
  intros Hwf. split.
  - apply sudoku_generate_solution_succeeds. exact Hwf.
  - apply sudoku_generate_puzzle_succeeds. exact Hwf.
Qed.

(** X11: In the carving loop of [sudoku_generate_puzzle] a removal is never
    taken back: the puzzle is always a part of the solution, so the
    reduced copy is always solved, and every iteration that picks a
    filled cell leaves that cell empty. *)
Theorem carving_never_reverts s (target : Z) st (rr cc : Z) w1 w2 :
  board_wf s -> board_full s -> board_valid s -> carved_from s target st ->
  rand_int rand 9 (world st) = (rr, w1) -> rand_int rand 9 w1 = (cc, w2) ->
  cell (puzzle st) (Z.to_nat rr) (Z.to_nat cc) <> 0 ->
  exists w3,
    carve_body srand rand st
    = Some (mkCarve (set_cell (puzzle st) (Z.to_nat rr) (Z.to_nat cc) 0) (tries st + 1) w3) /\
    count_holes (set_cell (puzzle st) (Z.to_nat rr) (Z.to_nat cc) 0)
    = count_holes (puzzle st) + 1.
Proof.
  intros Hwfs Hfull Hvalid (Hwf & Hsub & _) Hrr Hcc Hfilled.
  pose proof (rand_int_range rand 9 (world st) ltac:(lia)) as Hrange_r.
  rewrite Hrr in Hrange_r. cbn [fst] in Hrange_r.
  pose proof (rand_int_range rand 9 w1 ltac:(lia)) as Hrange_c.
  rewrite Hcc in Hrange_c. cbn [fst] in Hrange_c.
  assert (Hr : (Z.to_nat rr < 9)%nat) by lia.
  assert (Hc : (Z.to_nat cc < 9)%nat) by lia.
  set (p' := set_cell (puzzle st) (Z.to_nat rr) (Z.to_nat cc) 0).
  assert (Hwf' : board_wf p') by (apply set_cell_wf; exact Hwf).
  assert (Hcompl : completes p' s).
  { split; [exact Hwfs|]. split; [exact Hfull|]. split; [exact Hvalid|].
    intros r c Hr' Hc'. unfold p'. rewrite cell_set_cell by assumption.
    destruct (decide ((r, c) = (Z.to_nat rr, Z.to_nat cc))) as [_|_]; [congruence|].
    intros Hnz. symmetry. apply Hsub; assumption. }
  destruct (sudoku_solve_complete srand rand p' s w2 Hwf' Hcompl) as (q & w3 & Hsolve & _).
  exists w3. split.
  - unfold carve_body. rewrite Hrr, Hcc.
    replace (cell (puzzle st) (Z.to_nat rr) (Z.to_nat cc) =? 0) with false by lia.
    fold p'. rewrite Hsolve. reflexivity.
  - unfold p'. rewrite count_holes_set_cell by assumption.
    replace (cell (puzzle st) (Z.to_nat rr) (Z.to_nat cc) =? 0) with false by lia.
    rewrite Z.eqb_refl. lia.
Qed.

End EngineExtras.

Lemma sudoku_solve_verdict_exact_witness :
  board_wf dead_end_board /\
  (forall s, ~ completes dead_end_board s) /\
  exists w', sudoku_solve lcg_srand lcg_rand (Some dead_end_board) (mkWorld false 7)
             = Some (SUDOKU_ERR_UNSOLVABLE, Some dead_end_board, w').
Proof.
  assert (Hwf : board_wf dead_end_board) by apply example_boards_wf.
  destruct (sudoku_solve_verdict_exact lcg_srand lcg_rand dead_end_board Hwf) as [Hyes Hno].
  assert (Hnone : forall s, ~ completes dead_end_board s).
  { intros s Hcompl.
    destruct (Hyes (ex_intro _ s Hcompl) seeded_world) as (b' & w' & Hrun & _).
    vm_compute in Hrun. discriminate. }
  split; [exact Hwf|]. split; [exact Hnone|]. exact (Hno Hnone (mkWorld false 7)).
Defined.

Lemma sudoku_solve_rejects_duplicate_witness :
  board_wf clash_board /\
  sudoku_solve lcg_srand lcg_rand (Some clash_board) seeded_world
  = Some (SUDOKU_ERR_UNSOLVABLE, Some clash_board, seeded_world).
Proof.
  assert (Hwf : board_wf clash_board) by apply example_boards_wf.
  split; [exact Hwf|].
  apply (sudoku_solve_rejects_duplicate lcg_srand lcg_rand clash_board seeded_world
           0%nat 0%nat 0%nat 1%nat Hwf);
    [lia|lia|lia|lia|discriminate|left; reflexivity|discriminate|reflexivity].
Defined.

Lemma generation_never_fails_witness :
  board_wf clash_board /\
  exists p s w',
    sudoku_generate_puzzle lcg_srand lcg_rand (Some empty_board) (Some clash_board)
                           SUDOKU_DIFFICULTY_HARD (mkWorld false 0)
    = Some (SUDOKU_OK, Some p, Some s, w').
Proof.
  assert (Hwf : board_wf clash_board) by apply example_boards_wf.
  split; [exact Hwf|].
  exact (proj2 (generation_never_fails lcg_srand lcg_rand empty_board clash_board
                  SUDOKU_DIFFICULTY_HARD (mkWorld false 0) Hwf)).
Defined.

Lemma carving_never_reverts_witness :
  carved_from example_solution 35 (mkCarve example_solution 0 seeded_world) /\
  exists w3,
    carve_body lcg_srand lcg_rand (mkCarve example_solution 0 seeded_world)
    = Some (mkCarve (set_cell example_solution 5 6 0) 1 w3).
Proof.
  assert (Hwf : board_wf example_solution) by apply example_boards_wf.
  destruct example_solution_full_valid as [Hfull Hvalid].
  assert (Hinv : carved_from example_solution 35 (mkCarve example_solution 0 seeded_world)).
  { split; [exact Hwf|]. split; [intros; reflexivity|]. cbn [puzzle].
    rewrite (count_holes_full _ Hfull). lia. }
  split; [exact Hinv|].
  destruct (carving_never_reverts lcg_srand lcg_rand example_solution 35
              (mkCarve example_solution 0 seeded_world) 5 6
              (mkWorld true 131874305) (mkWorld true 2842748070)
              Hwf Hfull Hvalid Hinv) as (w3 & Hbody & _);
    [vm_compute; reflexivity|vm_compute; reflexivity|vm_compute; discriminate|].
  exists w3. exact Hbody.
Defined.

(** * Properties of the HTML export *)

(** ** Characters and chunks *)

Lemma written_app (a b : list string) : written (a ++ b) = written a ++ written b.
Proof. unfold written. apply flat_map_app. Qed.

Lemma char_code_range (ch : ascii) : 0 <= char_code ch < 256.
Proof.
  unfold char_code. pose proof (N_ascii_bounded ch) as Hb. lia.
Qed.

Lemma byte_of_char_code (ch : ascii) : ascii_of_N (Z.to_N (char_code ch mod 256)) = ch.
Proof.
  pose proof (char_code_range ch) as Hr. rewrite Z.mod_small by exact Hr.
  unfold char_code. rewrite N2Z.id. apply ascii_N_embedding.
Qed.

Lemma char_code_of_byte (x : Z) :
  0 <= x < 256 -> char_code (ascii_of_N (Z.to_N x)) = x.
Proof.
  intros Hx. unfold char_code. rewrite N_ascii_embedding by lia. lia.
Qed.

Lemma fputc_char_code (ch : ascii) : fputc (char_code ch) = [String ch EmptyString].
Proof. unfold fputc. rewrite byte_of_char_code. reflexivity. Qed.

Lemma char_code_inj (a b : ascii) : char_code a = char_code b -> a = b.
Proof.
  intros Heq. rewrite <- (ascii_N_embedding a), <- (ascii_N_embedding b).
  f_equal. unfold char_code in Heq. lia.
Qed.

(** ** [fprint_html_escaped] *)

Lemma html_escaped_from_cons (ch : ascii) (rest : string) :
  written (html_escaped_from (String ch rest))
  = html_entity ch ++ written (html_escaped_from rest).
Proof.
  cbn [html_escaped_from]. rewrite written_app. f_equal. unfold html_entity.
  destruct (ch =? "&")%char; [reflexivity|].
  destruct (ch =? "<")%char; [reflexivity|].
  destruct (ch =? ">")%char; [reflexivity|].
  destruct (ch =? dquote)%char; [reflexivity|].
  destruct (ch =? "'")%char; [reflexivity|].
  rewrite fputc_char_code. reflexivity.
Qed.

Ltac split_html_tests :=
  repeat match goal with
         | |- context [Ascii.eqb ?x ?y] => destruct (Ascii.eqb_spec x y)
         end.

(** No entity is the beginning of another, and a plain character is not
    the beginning of one. *)
Lemma html_entity_prefix_free (a b : ascii) (X Y : list ascii) :
  html_entity a ++ X = html_entity b ++ Y -> a = b /\ X = Y.
Proof.
  unfold html_entity. split_html_tests; cbn [list_ascii_of_string app]; intros Heq;
    try discriminate Heq; inversion Heq; subst; try contradiction;
    split; reflexivity.
Qed.

(** X12: The escaped text holds no angle bracket and no quote character, and
    text without any of the five special characters is written as it
    is. *)
Theorem html_escaped_is_safe (s : option string) :
  (forall ch, In ch (written (fprint_html_escaped s)) ->
              ch <> "<"%char /\ ch <> ">"%char /\ ch <> dquote /\ ch <> "'"%char) /\
  (forall t, s = Some t ->
     (forall ch, In ch (list_ascii_of_string t) ->
                 ch <> "&"%char /\ ch <> "<"%char /\ ch <> ">"%char /\
                 ch <> dquote /\ ch <> "'"%char) ->
     written (fprint_html_escaped s) = list_ascii_of_string t).
Proof.
  split.
  - unfold fprint_html_escaped. generalize (match s with Some s0 => s0 | None => EmptyString end).
    intros t. induction t as [|c rest IH]; intros ch Hin; [destruct Hin|].
    rewrite html_escaped_from_cons in Hin. apply in_app_or in Hin as [Hin|Hin]; [|exact (IH ch Hin)].
    unfold html_entity in Hin.
    destruct (Ascii.eqb_spec c "&"); [cbn in Hin; repeat split; intuition (subst; discriminate)|].
    destruct (Ascii.eqb_spec c "<"); [cbn in Hin; repeat split; intuition (subst; discriminate)|].
    destruct (Ascii.eqb_spec c ">"); [cbn in Hin; repeat split; intuition (subst; discriminate)|].
    destruct (Ascii.eqb_spec c dquote); [cbn in Hin; repeat split; intuition (subst; discriminate)|].
    destruct (Ascii.eqb_spec c "'"); [cbn in Hin; repeat split; intuition (subst; discriminate)|].
    destruct Hin as [<-|[]]. repeat split; assumption.
  - intros t -> Hplain. unfold fprint_html_escaped.
    induction t as [|c rest IH]; [reflexivity|].
    rewrite html_escaped_from_cons. unfold html_entity.
    destruct (Hplain c (or_introl eq_refl)) as (Ha & Hl & Hg & Hq & Hs).
    destruct (Ascii.eqb_spec c "&"); [contradiction|].
    destruct (Ascii.eqb_spec c "<"); [contradiction|].
    destruct (Ascii.eqb_spec c ">"); [contradiction|].
    destruct (Ascii.eqb_spec c dquote); [contradiction|].
    destruct (Ascii.eqb_spec c "'"); [contradiction|].
    cbn [list_ascii_of_string app]. f_equal. apply IH.
    intros ch Hin. apply Hplain. right. exact Hin.
Qed.

Lemma html_escaped_is_safe_witness :
  written (fprint_html_escaped (Some "Sudoku (Easy)"%string))
  = list_ascii_of_string "Sudoku (Easy)".
Proof.
  apply (proj2 (html_escaped_is_safe (Some "Sudoku (Easy)"%string)) _ eq_refl).
  intros ch Hin. cbn in Hin. repeat split; intuition (subst; discriminate).
Defined.

Lemma html_escaped_from_inj (s t : string) :
  written (html_escaped_from s) = written (html_escaped_from t) -> s = t.
Proof.
  revert t. induction s as [|a s IH]; intros [|b t] Heq.
  - reflexivity.
  - exfalso. rewrite html_escaped_from_cons in Heq. revert Heq. unfold html_entity.
    split_html_tests; discriminate.
  - exfalso. rewrite html_escaped_from_cons in Heq. revert Heq. unfold html_entity.
    split_html_tests; discriminate.
  - rewrite !html_escaped_from_cons in Heq.
    apply html_entity_prefix_free in Heq as [-> Heq]. f_equal. apply IH. exact Heq.
Qed.

(** X13: Escaping loses nothing: two different texts never have the same
    escaped form, also when one holds what looks like an entity. *)
Theorem html_escaped_injective (s t : string) :
  s <> t ->
  written (fprint_html_escaped (Some s)) <> written (fprint_html_escaped (Some t)).
Proof.
  intros Hne Heq. apply Hne. apply html_escaped_from_inj. exact Heq.
Qed.

Lemma html_escaped_injective_witness :
  written (fprint_html_escaped (Some "<"%string))
  <> written (fprint_html_escaped (Some "&lt;"%string)).
Proof.
  apply (html_escaped_injective "<" "&lt;"). discriminate.
Defined.

(** ** [fprint_css_value] *)

Lemma css_value_from_cons (ch : ascii) (rest : string) :
  written (css_value_from (String ch rest))
  = (if is_css_safe_char ch then [ch] else []) ++ written (css_value_from rest).
Proof.
  cbn [css_value_from]. rewrite written_app. f_equal.
  destruct (is_css_safe_char ch); [|reflexivity].
  rewrite fputc_char_code. reflexivity.
Qed.

Lemma css_value_written (t : string) :
  written (css_value_from t) = List.filter is_css_safe_char (list_ascii_of_string t).
Proof.
  induction t as [|ch rest IH]; [reflexivity|].
  rewrite css_value_from_cons, IH. cbn [list_ascii_of_string List.filter].
  destruct (is_css_safe_char ch); reflexivity.
Qed.

(** X14: A theme colour is written with every character outside letters,
    digits and [#(),.% -_] dropped and the others kept in order: no
    character that could end the declaration or the style element gets
    through, and a value made of allowed characters is written as it
    is. *)
Theorem css_value_is_filtered (s : option string) :
  (forall ch, In ch (written (fprint_css_value s)) ->
              is_css_safe_char ch = true /\ ~ In ch css_breakers) /\
  (forall t, s = Some t ->
     written (fprint_css_value s) = List.filter is_css_safe_char (list_ascii_of_string t)) /\
  (forall t, s = Some t ->
     (forall ch, In ch (list_ascii_of_string t) -> is_css_safe_char ch = true) ->
     written (fprint_css_value s) = list_ascii_of_string t).
Proof.
  assert (Hsafe : forall ch, is_css_safe_char ch = true -> ~ In ch css_breakers).
  { intros ch Hch Hin. unfold css_breakers in Hin. cbn [In] in Hin.
    repeat (destruct Hin as [<-|Hin]; [vm_compute in Hch; discriminate|]). exact Hin. }
  split; [|split].
  - intros ch Hin. unfold fprint_css_value in Hin. rewrite css_value_written in Hin.
    apply filter_In in Hin as [_ Hch]. split; [exact Hch|exact (Hsafe ch Hch)].
  - intros t ->. apply css_value_written.
  - intros t -> Hall. unfold fprint_css_value. rewrite css_value_written.
    induction (list_ascii_of_string t) as [|ch l IH]; [reflexivity|].
    cbn [List.filter]. rewrite (Hall ch (or_introl eq_refl)). f_equal.
    apply IH. intros c Hc. apply Hall. right. exact Hc.
Qed.

Lemma css_value_is_filtered_witness :
  written (fprint_css_value (Some "rgb(153, 11, 58)"%string))
  = list_ascii_of_string "rgb(153, 11, 58)" /\
  written (fprint_css_value (Some "red; } body { display:none"%string))
  = list_ascii_of_string "red  body  displaynone".
Proof.
  destruct (css_value_is_filtered (Some "rgb(153, 11, 58)"%string)) as (_ & _ & Hplain).
  destruct (css_value_is_filtered (Some "red; } body { display:none"%string)) as (_ & Hfilter & _).
  split.
  - apply (Hplain _ eq_refl). intros ch Hin. cbn in Hin.
    repeat (destruct Hin as [<-|Hin]; [reflexivity|]). destruct Hin.
  - rewrite (Hfilter _ eq_refl). reflexivity.
Defined.

(** ** The solution attribute *)

Lemma fprint_solution_attr_written (b : SudokuBoard) :
  written (fprint_solution_attr b)
  = map (fun '(r, c) => ascii_of_N (Z.to_N ((char_code "0" + cell b r c) mod 256))) positions.
Proof.
  unfold fprint_solution_attr, written.
  induction positions as [|[r c] l IH]; [reflexivity|].
  cbn [flat_map map]. rewrite flat_map_app. cbn [fputc flat_map list_ascii_of_string app].
  f_equal. exact IH.
Qed.

Lemma board_is_filled_1_9_spec (b : SudokuBoard) :
  board_is_filled_1_9 (Some b) = true <->
  forall r c, (r < 9)%nat -> (c < 9)%nat -> 1 <= cell b r c <= 9.
Proof.
  unfold board_is_filled_1_9. rewrite forallb_forall. split.
  - intros Hall r c Hr Hc. apply is_in_range_1_9_spec.
    apply (Hall (r, c)). apply positions_spec. lia.
  - intros Hall [r c] Hin. apply positions_spec in Hin as [Hr Hc].
    apply is_in_range_1_9_spec. apply Hall; assumption.
Qed.

(** X15: [board_is_filled_1_9] holds exactly of the boards whose 81 cells are
    all in 1..9 (and not of the null board); for such a board
    [fprint_solution_attr] writes 81 characters, and the one numbered
    [9 r + c] is the digit of the cell [(r, c)]. *)
Theorem solution_attr_digits (b : SudokuBoard) :
  board_is_filled_1_9 None = false /\
  (board_is_filled_1_9 (Some b) = true <->
   forall r c, (r < 9)%nat -> (c < 9)%nat -> 1 <= cell b r c <= 9) /\
  (board_is_filled_1_9 (Some b) = true ->
   length (written (fprint_solution_attr b)) = 81%nat /\
   forall r c, (r < 9)%nat -> (c < 9)%nat ->
     exists ch, written (fprint_solution_attr b) !! (9 * r + c)%nat = Some ch /\
                char_code ch = char_code "0" + cell b r c /\
                char_code "1" <= char_code ch <= char_code "9").
Proof.
  pose proof (board_is_filled_1_9_spec b) as Hspec.
  split; [reflexivity|]. split; [exact Hspec|].
  intros Hfilled. rewrite fprint_solution_attr_written. split.
  - rewrite length_map. reflexivity.
  - intros r c Hr Hc. pose proof (proj1 Hspec Hfilled r c Hr Hc) as Hdigit.
    eexists. split.
    + rewrite list_lookup_fmap. rewrite (proj2 (positions_lookup _ r c)) by lia. reflexivity.
    + change (char_code "0") with 48. change (char_code "1") with 49.
      change (char_code "9") with 57.
      rewrite Z.mod_small by lia. rewrite char_code_of_byte by lia. lia.
Qed.

Lemma solution_attr_digits_witness :
  board_is_filled_1_9 (Some example_solution) = true /\
  String.length (String.concat EmptyString (fprint_solution_attr example_solution)) = 81%nat /\
  board_is_filled_1_9 (Some example_puzzle) = false.
Proof.
  destruct (solution_attr_digits example_solution) as (_ & Hiff & Hlen).
  destruct (solution_attr_digits example_puzzle) as (_ & Hiff' & _).
  assert (Hfilled : board_is_filled_1_9 (Some example_solution) = true)
    by (vm_compute; reflexivity).
  split; [exact Hfilled|]. split; [vm_compute; reflexivity|].
  destruct (board_is_filled_1_9 (Some example_puzzle)) eqn:Hp; [|reflexivity].
  exfalso. pose proof (proj1 Hiff' eq_refl 0%nat 0%nat ltac:(lia) ltac:(lia)) as Hcell.
  vm_compute in Hcell. destruct Hcell as [Hle _]. apply Hle. reflexivity.
Defined.

(** ** The page *)

Lemma count_chunk_app (m : string) (a b : list string) :
  count_chunk m (a ++ b) = (count_chunk m a + count_chunk m b)%nat.
Proof. unfold count_chunk. rewrite List.filter_app, length_app. reflexivity. Qed.

(** A chunk of at most six characters is none of the long markers. *)
Lemma count_chunk_short (m : string) (out : list string) :
  Forall (fun x => (String.length x <= 6)%nat) out -> (6 < String.length m)%nat ->
  count_chunk m out = 0%nat.
Proof.
  intros Hshort Hm. unfold count_chunk. induction Hshort as [|x l Hx _ IH]; [reflexivity|].
  cbn [List.filter]. destruct (String.eqb_spec m x) as [->|_]; [lia|exact IH].
Qed.

Lemma html_escaped_short (t : string) :
  Forall (fun x => (String.length x <= 6)%nat) (html_escaped_from t).
Proof.
  induction t as [|ch rest IH]; [constructor|]. cbn [html_escaped_from].
  apply Forall_app. split; [|exact IH].
  destruct (ch =? "&")%char; [repeat constructor; cbn; lia|].
  destruct (ch =? "<")%char; [repeat constructor; cbn; lia|].
  destruct (ch =? ">")%char; [repeat constructor; cbn; lia|].
  destruct (ch =? dquote)%char; [repeat constructor; cbn; lia|].
  destruct (ch =? "'")%char; repeat constructor; cbn; lia.
Qed.

Lemma css_value_short (t : string) :
  Forall (fun x => (String.length x <= 6)%nat) (css_value_from t).
Proof.
  induction t as [|ch rest IH]; [constructor|]. cbn [css_value_from].
  apply Forall_app. split; [|exact IH].
  destruct (is_css_safe_char ch); repeat constructor; cbn; lia.
Qed.

Lemma solution_attr_short (b : SudokuBoard) :
  Forall (fun x => (String.length x <= 6)%nat) (fprint_solution_attr b).
Proof.
  unfold fprint_solution_attr. induction positions as [|[r c] l IH]; [constructor|].
  cbn [flat_map]. apply Forall_app. split; [repeat constructor; cbn; lia|exact IH].
Qed.

(** Counting a long marker in a block: the text parts do not count. *)
Ltac count_marker :=
  repeat rewrite count_chunk_app;
  repeat (rewrite (count_chunk_short _ (fprint_html_escaped _))
            by (first [apply html_escaped_short | cbn; lia]));
  repeat (rewrite (count_chunk_short _ (fprint_css_value _))
            by (first [apply css_value_short | cbn; lia]));
  repeat (rewrite (count_chunk_short _ (fprint_solution_attr _))
            by (first [apply solution_attr_short | cbn; lia]));
  try reflexivity.

Lemma page_head_count (m : string) (title css : string) :
  (6 < String.length m)%nat ->
  count_chunk m (page_head title css) = count_chunk m (page_head EmptyString EmptyString).
Proof.
  intros Hm. unfold page_head. repeat rewrite count_chunk_app.
  rewrite !(count_chunk_short m (fprint_html_escaped _)) by (apply html_escaped_short || exact Hm).
  reflexivity.
Qed.

Lemma page_header_count (m : string) (title : string) :
  (6 < String.length m)%nat ->
  count_chunk m (page_header title) = count_chunk m (page_header EmptyString).
Proof.
  intros Hm. unfold page_header. repeat rewrite count_chunk_app.
  rewrite !(count_chunk_short m (fprint_html_escaped _)) by (apply html_escaped_short || exact Hm).
  reflexivity.
Qed.

Lemma marker_long (m : string) : is_marker m -> (6 < String.length m)%nat.
Proof. intros [-> | [-> | [-> | ->]]]; cbn; lia. Qed.

Lemma page_style_no_marker (m : string) (theme : option SudokuTheme) :
  is_marker m -> count_chunk m (page_style theme) = 0%nat.
Proof.
  intros Hm. pose proof (marker_long m Hm) as Hlong.
  destruct theme as [[[bg|] [hv|] ti]|];
    cbn [page_style panel_bg cell_hover_bg non_null orb];
    repeat rewrite count_chunk_app;
    rewrite ?(count_chunk_short m (fprint_css_value _)) by (apply css_value_short || exact Hlong);
    destruct Hm as [-> | [-> | [-> | ->]]]; reflexivity.
Qed.

Lemma page_head_no_marker (m : string) (title css : string) :
  is_marker m -> count_chunk m (page_head title css) = 0%nat.
Proof.
  intros Hm. rewrite page_head_count by (apply marker_long; exact Hm).
  destruct Hm as [-> | [-> | [-> | ->]]]; reflexivity.
Qed.

Lemma page_header_no_marker (m : string) (title : string) :
  is_marker m -> count_chunk m (page_header title) = 0%nat.
Proof.
  intros Hm. rewrite page_header_count by (apply marker_long; exact Hm).
  destruct Hm as [-> | [-> | [-> | ->]]]; reflexivity.
Qed.

Lemma page_tail_no_marker (m : string) : is_marker m -> count_chunk m page_tail = 0%nat.
Proof. intros [-> | [-> | [-> | ->]]]; reflexivity. Qed.

Lemma page_container_count (m : string) (sol : option SudokuBoard) :
  is_marker m ->
  count_chunk m (page_container sol)
  = if (m =? data_solution_attr)%string && board_is_filled_1_9 sol then 1%nat else 0%nat.
Proof.
  intros Hm. pose proof (marker_long m Hm) as Hlong. unfold page_container.
  destruct sol as [s|]; [destruct (board_is_filled_1_9 (Some s))|];
    repeat rewrite count_chunk_app;
    rewrite ?(count_chunk_short m (fprint_solution_attr _))
      by (apply solution_attr_short || exact Hlong);
    destruct Hm as [-> | [-> | [-> | ->]]]; reflexivity.
Qed.

Lemma page_difficulty_count (m : string) (d : Z) :
  is_marker m ->
  count_chunk m (page_difficulty d) = if (m =? active_attr)%string then 1%nat else 0%nat.
Proof.
  intros Hm. unfold page_difficulty, difficulty_label.
  destruct (d =? SUDOKU_DIFFICULTY_EASY); [|destruct (d =? SUDOKU_DIFFICULTY_MEDIUM);
    [|destruct (d =? SUDOKU_DIFFICULTY_HARD)]];
    destruct Hm as [-> | [-> | [-> | ->]]]; reflexivity.
Qed.

(** The cells: one empty cell per hole, one given cell per filled cell. *)
Lemma page_cells_count (pz : SudokuBoard) (l : list (nat * nat)) :
  let cells := flat_map (fun '(r, c) =>
                 let v := cell pz r c in
                 if v =? 0 then fputs empty_cell_div
                 else fputs given_cell_open ++ fputc (char_code "0" + v)
                      ++ fputs ("</div>" ++ nl)) l in
  Z.of_nat (count_chunk empty_cell_div cells) = holes_in pz l /\
  Z.of_nat (count_chunk given_cell_open cells) = Z.of_nat (length l) - holes_in pz l /\
  count_chunk active_attr cells = 0%nat /\
  count_chunk data_solution_attr cells = 0%nat.
Proof.
  assert (Hcons : forall r c l',
             holes_in pz ((r, c) :: l')
             = (if cell pz r c =? 0 then 1 else 0) + holes_in pz l').
  { intros r c l'. unfold holes_in. cbn [List.filter].
    destruct (cell pz r c =? 0); cbn [length]; lia. }
  induction l as [|[r c] l IH]; cbn zeta; [repeat split; reflexivity|].
  cbn zeta in IH. destruct IH as (IH1 & IH2 & IH3 & IH4).
  rewrite Hcons. cbn [flat_map length]. rewrite !count_chunk_app, IH3, IH4.
  destruct (cell pz r c =? 0).
  - change (count_chunk empty_cell_div (fputs empty_cell_div)) with 1%nat.
    change (count_chunk given_cell_open (fputs empty_cell_div)) with 0%nat.
    change (count_chunk active_attr (fputs empty_cell_div)) with 0%nat.
    change (count_chunk data_solution_attr (fputs empty_cell_div)) with 0%nat.
    cbn [length]. repeat split; lia.
  - rewrite !count_chunk_app.
    rewrite !(count_chunk_short _ (fputc _)) by (repeat constructor; cbn; lia).
    change (count_chunk empty_cell_div (fputs given_cell_open)) with 0%nat.
    change (count_chunk given_cell_open (fputs given_cell_open)) with 1%nat.
    change (count_chunk active_attr (fputs given_cell_open)) with 0%nat.
    change (count_chunk data_solution_attr (fputs given_cell_open)) with 0%nat.
    change (count_chunk empty_cell_div (fputs ("</div>" ++ nl))) with 0%nat.
    change (count_chunk given_cell_open (fputs ("</div>" ++ nl))) with 0%nat.
    change (count_chunk active_attr (fputs ("</div>" ++ nl))) with 0%nat.
    change (count_chunk data_solution_attr (fputs ("</div>" ++ nl))) with 0%nat.
    repeat split; lia.
Qed.

Lemma page_count (m : string) (title css : string) (pz : SudokuBoard)
      (sol : option SudokuBoard) (theme : option SudokuTheme) (d : Z) :
  is_marker m ->
  count_chunk m (page_head title css ++ page_style theme ++ page_header title
                 ++ page_container sol ++ page_cells pz ++ page_difficulty d ++ page_tail)
  = (count_chunk m (page_container sol) + count_chunk m (page_cells pz)
     + count_chunk m (page_difficulty d))%nat.
Proof.
  intros Hm. rewrite !count_chunk_app.
  rewrite page_head_no_marker, page_style_no_marker, page_header_no_marker, page_tail_no_marker
    by exact Hm.
  lia.
Qed.

Lemma page_cell_counts (title css : string) (pz : SudokuBoard)
      (sol : option SudokuBoard) (theme : option SudokuTheme) (d : Z) :
  let out := page_head title css ++ page_style theme ++ page_header title
             ++ page_container sol ++ page_cells pz ++ page_difficulty d ++ page_tail in
  Z.of_nat (count_chunk empty_cell_div out) = count_holes pz /\
  Z.of_nat (count_chunk given_cell_open out) = 81 - count_holes pz.
Proof.
  cbn zeta.
  destruct (page_cells_count pz positions) as (Hempty & Hgiven & _ & _). cbn zeta in Hempty, Hgiven.
  change (flat_map _ positions) with (page_cells pz) in Hempty, Hgiven.
  rewrite !page_count by (unfold is_marker; tauto).
  rewrite !page_container_count, !page_difficulty_count by (unfold is_marker; tauto).
  change (empty_cell_div =? data_solution_attr)%string with false.
  change (given_cell_open =? data_solution_attr)%string with false.
  change (empty_cell_div =? active_attr)%string with false.
  change (given_cell_open =? active_attr)%string with false.
  cbn [andb]. rewrite count_holes_holes_in.
  change (Z.of_nat (length positions)) with 81 in Hgiven. lia.
Qed.

Lemma page_solution_count (title css : string) (pz : SudokuBoard)
      (sol : option SudokuBoard) (theme : option SudokuTheme) (d : Z) :
  count_chunk data_solution_attr
    (page_head title css ++ page_style theme ++ page_header title
     ++ page_container sol ++ page_cells pz ++ page_difficulty d ++ page_tail)
  = if board_is_filled_1_9 sol then 1%nat else 0%nat.
Proof.
  rewrite page_count by (unfold is_marker; tauto).
  rewrite page_container_count, page_difficulty_count by (unfold is_marker; tauto).
  destruct (page_cells_count pz positions) as (_ & _ & _ & Hnone). cbn zeta in Hnone.
  change (flat_map _ positions) with (page_cells pz) in Hnone. rewrite Hnone.
  change (data_solution_attr =? data_solution_attr)%string with true.
  change (data_solution_attr =? active_attr)%string with false.
  destruct (board_is_filled_1_9 sol); reflexivity.
Qed.

Lemma page_solution_split (title css : string) (pz s : SudokuBoard)
      (theme : option SudokuTheme) (d : Z) :
  board_is_filled_1_9 (Some s) = true ->
  exists pre post,
    page_head title css ++ page_style theme ++ page_header title
    ++ page_container (Some s) ++ page_cells pz ++ page_difficulty d ++ page_tail
    = pre ++ fputs data_solution_attr ++ fprint_solution_attr s ++ fputs dq ++ post.
Proof.
  intros Hfilled.
  exists (page_head title css ++ page_style theme ++ page_header title
          ++ fputs ("            <div class=" ++ dq ++ "container" ++ dq)),
         (fputs (">" ++ nl) ++ page_cells pz ++ page_difficulty d ++ page_tail).
  unfold page_container. rewrite Hfilled. rewrite <- !app_assoc. reflexivity.
Qed.

Lemma page_difficulty_split (d : Z) :
  exists p1 p2,
    page_difficulty d
    = p1 ++ ["                <li"%string; active_attr;
             difficulty_link (difficulty_file d) (difficulty_title_suffix d)] ++ p2.
Proof.
  unfold page_difficulty, difficulty_label, difficulty_file, difficulty_title_suffix.
  destruct (d =? SUDOKU_DIFFICULTY_EASY);
    [|destruct (d =? SUDOKU_DIFFICULTY_MEDIUM); [|destruct (d =? SUDOKU_DIFFICULTY_HARD)]].
  - match goal with |- exists p1 p2, ?L = _ => exists (firstn 5 L), (skipn 8 L) end.
    vm_compute. reflexivity.
  - match goal with |- exists p1 p2, ?L = _ => exists (firstn 7 L), (skipn 10 L) end.
    vm_compute. reflexivity.
  - match goal with |- exists p1 p2, ?L = _ => exists (firstn 9 L), (skipn 12 L) end.
    vm_compute. reflexivity.
  - match goal with |- exists p1 p2, ?L = _ => exists (firstn 7 L), (skipn 10 L) end.
    vm_compute. reflexivity.
Qed.

Section ExportProperties.

Variable fopen_w : string -> bool.

(** The page of a successful call, block by block. *)
Lemma write_page_ok (path css : string) (pz : SudokuBoard) (sol : option SudokuBoard)
      (theme : option SudokuTheme) (d : Z) :
  fopen_w path = true ->
  exists title,
    sudoku_write_html_page_with_solution fopen_w (Some path) (Some css) (Some pz) sol theme d
    = (SUDOKU_OK,
       Some (path,
             page_head title css ++ page_style theme ++ page_header title
             ++ page_container sol ++ page_cells pz ++ page_difficulty d ++ page_tail)).
Proof.
  intros Hopen. unfold sudoku_write_html_page_with_solution. rewrite Hopen. cbn [negb].
  eexists. reflexivity.
Qed.

(** X16: A page written by [sudoku_write_html_page_with_solution] shows the
    puzzle cell for cell: it has one empty cell per hole of the puzzle
    and 81 cells in all. *)
Theorem page_shows_the_holes (path css : string) (pz : SudokuBoard)
        (sol : option SudokuBoard) (theme : option SudokuTheme) (d : Z) :
  fopen_w path = true ->
  exists out,
    sudoku_write_html_page_with_solution fopen_w (Some path) (Some css) (Some pz) sol theme d
    = (SUDOKU_OK, Some (path, out)) /\
    Z.of_nat (count_chunk empty_cell_div out) = count_holes pz /\
    Z.of_nat (count_chunk given_cell_open out) = 81 - count_holes pz.
Proof.
  intros Hopen. destruct (write_page_ok path css pz sol theme d Hopen) as [title ->].
  eexists. split; [reflexivity|]. apply page_cell_counts.
Qed.

(** X17: On a page written for difficulty [d] exactly one list item carries
    the active class, and it is the link to [difficulty_file d], the file
    the console program writes that page to; an unknown difficulty is
    shown as Medium. *)
Theorem page_marks_its_difficulty (path css : string) (pz : SudokuBoard)
        (sol : option SudokuBoard) (theme : option SudokuTheme) (d : Z) :
  fopen_w path = true ->
  exists out pre post,
    sudoku_write_html_page_with_solution fopen_w (Some path) (Some css) (Some pz) sol theme d
    = (SUDOKU_OK, Some (path, out)) /\
    out = pre ++ ["                <li"%string; active_attr;
                  difficulty_link (difficulty_file d) (difficulty_title_suffix d)] ++ post /\
    count_chunk active_attr out = 1%nat.
Proof.
  intros Hopen. destruct (write_page_ok path css pz sol theme d Hopen) as [title ->].
  destruct (page_difficulty_split d) as (p1 & p2 & Hsplit).
  eexists _, (page_head title css ++ page_style theme ++ page_header title
              ++ page_container sol ++ page_cells pz ++ p1), (p2 ++ page_tail).
  split; [reflexivity|]. split.
  - rewrite Hsplit. rewrite <- !app_assoc. reflexivity.
  - rewrite page_count by (unfold is_marker; tauto).
    rewrite page_container_count, page_difficulty_count by (unfold is_marker; tauto).
    destruct (page_cells_count pz positions) as (_ & _ & Hnone & _). cbn zeta in Hnone.
    change (flat_map _ positions) with (page_cells pz) in Hnone. rewrite Hnone.
    change (active_attr =? data_solution_attr)%string with false.
    change (active_attr =? active_attr)%string with true. reflexivity.
Qed.

(** X18: The solution attribute is written exactly when a solution board is
    passed and all its cells are in 1..9; it then holds the 81 digits of
    that board.  [sudoku_write_html_page] never writes it. *)
Theorem page_solution_attribute (path css : string) (pz : SudokuBoard)
        (sol : option SudokuBoard) (theme : option SudokuTheme) (d : Z) :
  fopen_w path = true ->
  exists out out',
    sudoku_write_html_page_with_solution fopen_w (Some path) (Some css) (Some pz) sol theme d
    = (SUDOKU_OK, Some (path, out)) /\
    sudoku_write_html_page fopen_w (Some path) (Some css) (Some pz) theme d
    = (SUDOKU_OK, Some (path, out')) /\
    count_chunk data_solution_attr out' = 0%nat /\
    (board_is_filled_1_9 sol = false -> count_chunk data_solution_attr out = 0%nat) /\
    (forall s, sol = Some s -> board_is_filled_1_9 sol = true ->
       count_chunk data_solution_attr out = 1%nat /\
       exists pre post,
         out = pre ++ fputs data_solution_attr ++ fprint_solution_attr s ++ fputs dq ++ post).
Proof.
  intros Hopen. unfold sudoku_write_html_page.
  destruct (write_page_ok path css pz sol theme d Hopen) as [title ->].
  destruct (write_page_ok path css pz None theme d Hopen) as [title' ->].
  eexists _, _. split; [reflexivity|]. split; [reflexivity|]. split; [|split].
  - rewrite page_solution_count. reflexivity.
  - intros Hnot. rewrite page_solution_count, Hnot. reflexivity.
  - intros s -> Hfilled. split; [rewrite page_solution_count, Hfilled; reflexivity|].
    apply page_solution_split. exact Hfilled.
Qed.

End ExportProperties.

Lemma page_shows_the_holes_witness :
  exists out,
    sudoku_write_html_page_with_solution (fun _ => true) (Some "sudoku_easy.html"%string)
      (Some "style.css"%string) (Some example_puzzle) (Some example_solution) None
      SUDOKU_DIFFICULTY_EASY
    = (SUDOKU_OK, Some ("sudoku_easy.html"%string, out)) /\
    count_chunk empty_cell_div out = 35%nat.
Proof.
  destruct (page_shows_the_holes (fun _ => true) "sudoku_easy.html" "style.css"
              example_puzzle (Some example_solution) None SUDOKU_DIFFICULTY_EASY eq_refl)
    as (out & Hrun & Hempty & _).
  exists out. split; [exact Hrun|].
  assert (Hholes : count_holes example_puzzle = 35) by (vm_compute; reflexivity).
  lia.
Defined.

Lemma page_marks_its_difficulty_witness :
  exists out,
    sudoku_write_html_page_with_solution (fun _ => true) (Some "p.html"%string)
      (Some "style.css"%string) (Some example_puzzle) None None 7
    = (SUDOKU_OK, Some ("p.html"%string, out)) /\
    In (difficulty_link "sudoku_medium.html" "Medium") out /\
    count_chunk active_attr out = 1%nat.
Proof.
  destruct (page_marks_its_difficulty (fun _ => true) "p.html" "style.css"
              example_puzzle None None 7 eq_refl)
    as (out & pre & post & Hrun & Hsplit & Hone).
  exists out. split; [exact Hrun|]. split; [|exact Hone].
  rewrite Hsplit. apply in_or_app. right. right. right. left. reflexivity.
Defined.

Lemma page_solution_attribute_witness :
  exists out,
    sudoku_write_html_page_with_solution (fun _ => true) (Some "p.html"%string)
      (Some "style.css"%string) (Some example_puzzle) (Some example_solution) None 0
    = (SUDOKU_OK, Some ("p.html"%string, out)) /\
    count_chunk data_solution_attr out = 1%nat.
Proof.
  destruct (page_solution_attribute (fun _ => true) "p.html" "style.css"
              example_puzzle (Some example_solution) None 0 eq_refl)
    as (out & out' & Hrun & _ & _ & _ & Hwith).
  exists out. split; [exact Hrun|].
  apply (Hwith example_solution eq_refl). vm_compute. reflexivity.
Defined.

(** ** The console program *)

Section AppProperties.

Context {RngState : Type}.
Variable srand : Z -> RngState.
Variable rand : RngState -> N * RngState.
Variable fopen_w : string -> bool.

(** X19: [generate_one] fails only when the page file cannot be opened: the
    generation itself never fails.  The page it writes goes to
    [difficulty_file d], always carries the solution attribute with the
    digits of the generated solution, and shows one empty cell per hole
    of the generated puzzle. *)
Theorem generate_one_writes_solved_page (p0 s0 : SudokuBoard) (d : Z)
        (css_href base_title : option string) (base_theme : option SudokuTheme)
        (w : World RngState) :
  board_wf s0 ->
  exists p s w',
    sudoku_generate_puzzle srand rand (Some p0) (Some s0) d w
    = Some (SUDOKU_OK, Some p, Some s, w') /\
    (fopen_w (difficulty_file d) = false ->
     generate_one srand rand fopen_w p0 s0 d css_href base_title base_theme w
     = Some (false, None, w')) /\
    (fopen_w (difficulty_file d) = true ->
     exists out pre post,
       generate_one srand rand fopen_w p0 s0 d css_href base_title base_theme w
       = Some (true, Some (difficulty_file d, out), w') /\
       out = pre ++ fputs data_solution_attr ++ fprint_solution_attr s ++ fputs dq ++ post /\
       Z.of_nat (count_chunk empty_cell_div out) = count_holes p).
Proof.
  intros Hwf.
  destruct (sudoku_generate_puzzle_succeeds srand rand p0 s0 d w Hwf) as (p & s & w' & Hgen).
  exists p, s, w'. split; [exact Hgen|].
  destruct (sudoku_generate_puzzle_ok srand rand p0 s0 d w _ _ _ Hwf Hgen)
    as (s1 & w1 & st & _ & _ & Hfull & Hvalid & _ & _ & Hs1 & _).
  injection Hs1 as <-.
  assert (Hfilled : board_is_filled_1_9 (Some s) = true).
  { apply board_is_filled_1_9_spec. intros r c Hr Hc.
    exact (proj1 (Hvalid r c Hr Hc (Hfull r c Hr Hc))). }
  unfold generate_one. rewrite Hgen. split.
  - intros Hclosed. unfold sudoku_write_html_page_with_solution. rewrite Hclosed. reflexivity.
  - intros Hopen. cbn zeta.
    match goal with
    | |- context [sudoku_write_html_page_with_solution fopen_w (Some ?path) (Some ?css)
                    (Some ?pz) ?sol ?theme ?dd] =>
        destruct (write_page_ok fopen_w path css pz sol theme dd Hopen) as [title ->];
        destruct (page_solution_split title css pz s theme dd Hfilled) as (pre & post & Hsplit);
        pose proof (page_cell_counts title css pz sol theme dd) as Hcounts
    end.
    cbn zeta in Hcounts. destruct Hcounts as [Hholes _]. eexists _, pre, post. split; [reflexivity|].
    split; [exact Hsplit|exact Hholes].
Qed.

End AppProperties.

Lemma generate_one_writes_solved_page_witness :
  board_wf empty_board /\
  exists out w',
    generate_one lcg_srand lcg_rand (fun _ => true) empty_board empty_board
                 SUDOKU_DIFFICULTY_HARD None None None seeded_world
    = Some (true, Some ("sudoku_hard.html"%string, out), w') /\
    In data_solution_attr out.
Proof.
  assert (Hwf : board_wf empty_board) by apply example_boards_wf.
  split; [exact Hwf|].
  destruct (generate_one_writes_solved_page lcg_srand lcg_rand (fun _ => true)
              empty_board empty_board SUDOKU_DIFFICULTY_HARD None None None seeded_world Hwf)
    as (p & s & w' & _ & _ & Hopen).
  destruct (Hopen eq_refl) as (out & pre & post & Hrun & Hsplit & _).
  exists out, w'. split; [exact Hrun|].
  rewrite Hsplit. apply in_or_app. right. left. reflexivity.
Defined.

(** *** [parse_difficulty] *)

Lemma lower_copy_length (n : nat) (s : string) :
  String.length (lower_copy n s) = Nat.min n (String.length s).
Proof.
  revert s. induction n as [|n IH]; intros [|ch rest]; cbn; try reflexivity.
  rewrite IH. reflexivity.
Qed.

Lemma string_eqb_length (a b : string) :
  (a =? b)%string = true -> String.length a = String.length b.
Proof. intros Heq. apply String.eqb_eq in Heq. subst. reflexivity. Qed.

Lemma string_eqb_other_length (a b : string) :
  String.length a <> String.length b -> (a =? b)%string = false.
Proof.
  intros Hlen. destruct (a =? b)%string eqn:Heq; [|reflexivity].
  apply string_eqb_length in Heq. contradiction.
Qed.

Lemma tolower_idem (ch : ascii) : tolower (tolower ch) = tolower ch.
Proof.
  unfold tolower. change (char_code "A") with 65. change (char_code "Z") with 90.
  destruct ((char_code ch >=? 65) && (char_code ch <=? 90)) eqn:Hupper.
  - rewrite char_code_of_byte by lia.
    replace ((char_code ch + 32 >=? 65) && (char_code ch + 32 <=? 90)) with false by lia.
    reflexivity.
  - rewrite Hupper. reflexivity.
Qed.

Lemma lower_copy_idem (n : nat) (s : string) :
  lower_copy n (lower_copy n s) = lower_copy n s.
Proof.
  revert s. induction n as [|n IH]; intros [|ch rest]; cbn; try reflexivity.
  rewrite tolower_idem, IH. reflexivity.
Qed.

(** X20: [parse_difficulty] looks only at the lower-cased input: it answers
    Easy for [1] and [easy], Medium for [2] and [medium], Hard for [3] and
    [hard] in any mix of cases, and the fallback for everything else, the
    null and the empty string included.  Cutting the input to 31
    characters never changes the answer. *)
Theorem parse_difficulty_spellings (s : string) (fallback : Z) :
  parse_difficulty None fallback = fallback /\
  parse_difficulty (Some EmptyString) fallback = fallback /\
  parse_difficulty (Some s) fallback
  = (let t := lower_copy (String.length s) s in
     if (t =? "1")%string || (t =? "easy")%string then SUDOKU_DIFFICULTY_EASY
     else if (t =? "2")%string || (t =? "medium")%string then SUDOKU_DIFFICULTY_MEDIUM
     else if (t =? "3")%string || (t =? "hard")%string then SUDOKU_DIFFICULTY_HARD
     else fallback) /\
  parse_difficulty (Some (lower_copy (String.length s) s)) fallback
  = parse_difficulty (Some s) fallback.
Proof.
  assert (Hmain : forall u,
             parse_difficulty (Some u) fallback
             = (let t := lower_copy (String.length u) u in
                if (t =? "1")%string || (t =? "easy")%string then SUDOKU_DIFFICULTY_EASY
                else if (t =? "2")%string || (t =? "medium")%string
                     then SUDOKU_DIFFICULTY_MEDIUM
                else if (t =? "3")%string || (t =? "hard")%string then SUDOKU_DIFFICULTY_HARD
                else fallback)).
  { intros [|ch rest]; [reflexivity|]. cbn zeta.
    unfold parse_difficulty. cbv iota. set (u := String ch rest). clearbody u.
    destruct (32 <=? String.length u)%nat eqn:Hlong; [|reflexivity].
    apply Nat.leb_le in Hlong.
    assert (Hcut : String.length (lower_copy 31 u) = 31%nat)
      by (rewrite lower_copy_length; lia).
    assert (Hall : String.length (lower_copy (String.length u) u) = String.length u)
      by (rewrite lower_copy_length; lia).
    rewrite !(string_eqb_other_length (lower_copy 31 u)) by (rewrite Hcut; cbn; lia).
    rewrite !(string_eqb_other_length (lower_copy (String.length u) u))
      by (rewrite Hall; cbn; lia).
    reflexivity. }
  split; [reflexivity|]. split; [reflexivity|]. split; [apply Hmain|].
  rewrite !Hmain. cbn zeta.
  assert (Hlen : String.length (lower_copy (String.length s) s) = String.length s)
    by (rewrite lower_copy_length; lia).
  rewrite Hlen, lower_copy_idem. reflexivity.
Qed.

Lemma parse_difficulty_spellings_witness :
  parse_difficulty (Some "HaRd"%string) SUDOKU_DIFFICULTY_MEDIUM = SUDOKU_DIFFICULTY_HARD /\
  parse_difficulty (Some "harder"%string) SUDOKU_DIFFICULTY_MEDIUM = SUDOKU_DIFFICULTY_MEDIUM.
Proof.
  destruct (parse_difficulty_spellings "HaRd" SUDOKU_DIFFICULTY_MEDIUM) as (_ & _ & H1 & _).
  destruct (parse_difficulty_spellings "harder" SUDOKU_DIFFICULTY_MEDIUM) as (_ & _ & H2 & _).
  split; [rewrite H1|rewrite H2]; reflexivity.
Defined.

(** *** [write_index_html] *)


Section IndexProperties.

Variable fopen_w : string -> bool.


End IndexProperties.


(** *** [read_line] *)

Lemma list_ascii_of_string_app (a b : string) :
  list_ascii_of_string (a ++ b) = list_ascii_of_string a ++ list_ascii_of_string b.
Proof. induction a as [|ch a IH]; cbn; [reflexivity|]. rewrite IH. reflexivity. Qed.

Lemma string_last_char (s : string) (n : nat) :
  String.length s = S n ->
  exists ch, String.get n s = Some ch /\ s = (substring 0 n s ++ String ch EmptyString)%string /\
             String.length (substring 0 n s) = n.
Proof.
  revert n. induction s as [|c s IH]; intros n Hlen; [discriminate|].
  cbn in Hlen. injection Hlen as Hlen. destruct n as [|n].
  - destruct s; [|discriminate]. exists c. cbn. auto.
  - destruct (IH n Hlen) as (ch & Hget & Hs & Hl). exists ch. cbn [String.get substring].
    split; [exact Hget|]. split.
    + cbn [append]. rewrite <- Hs. reflexivity.
    + cbn [String.length]. rewrite Hl. reflexivity.
Qed.


Lemma eol_test (ch : ascii) :
  Ascii.eqb ch newline || Ascii.eqb ch carriage_return = true <-> is_eol ch.
Proof.
  unfold is_eol. rewrite orb_true_iff. rewrite !Ascii.eqb_eq. reflexivity.
Qed.

Lemma strip_newlines_spec (len : nat) (buf : string) :
  String.length buf = len ->
  exists tail,
    list_ascii_of_string buf = list_ascii_of_string (strip_newlines len buf) ++ tail /\
    Forall is_eol tail /\
    (forall r ch, list_ascii_of_string (strip_newlines len buf) = r ++ [ch] -> ~ is_eol ch).
Proof.
  revert buf. induction len as [|len IH]; intros buf Hlen.
  - destruct buf; [|discriminate]. exists []. cbn. split; [reflexivity|]. split; [constructor|].
    intros r ch Hr. destruct r; discriminate.
  - destruct (string_last_char buf len Hlen) as (ch & Hget & Hbuf & Hpre).
    cbn [strip_newlines]. rewrite Hget.
    destruct (Ascii.eqb ch newline || Ascii.eqb ch carriage_return) eqn:Htest.
    + destruct (IH _ Hpre) as (tail & Hsplit & Htail & Hlast).
      exists (tail ++ [ch]). split; [|split].
      * rewrite Hbuf at 1. rewrite list_ascii_of_string_app, Hsplit, <- app_assoc. reflexivity.
      * apply Forall_app. split; [exact Htail|]. constructor; [|constructor].
        apply eol_test. exact Htest.
      * exact Hlast.
    + exists []. split; [rewrite app_nil_r; reflexivity|]. split; [constructor|].
      intros r ch' Hr Heol. rewrite Hbuf, list_ascii_of_string_app in Hr.
      apply app_inj_tail in Hr as [_ ->]. apply eol_test in Heol. congruence.
Qed.

Section ConsoleProperties.

Context {Stdin : Type}.
Variable fgets : nat -> Stdin -> option string * Stdin.

(** X22: [read_line] leaves in the buffer the line [fgets] read without its
    trailing run of line feeds and carriage returns: only such characters
    are cut, and what is kept does not end in one.  When [fgets] returns
    a null pointer the buffer holds the empty string. *)
Theorem read_line_strips (old : string) (n : nat) (input : Stdin) :
  n <> 0%nat ->
  exists kept,
    read_line fgets (Some old) n input = (Some kept, snd (fgets n input)) /\
    match fst (fgets n input) with
    | None => kept = EmptyString
    | Some line =>
        exists tail,
          list_ascii_of_string line = list_ascii_of_string kept ++ tail /\
          Forall is_eol tail /\
          (forall r ch, list_ascii_of_string kept = r ++ [ch] -> ~ is_eol ch)
    end.
Proof.
  intros Hn. unfold read_line. apply Nat.eqb_neq in Hn. rewrite Hn.
  destruct (fgets n input) as [[line|] input']; cbn [fst snd].
  - eexists. split; [reflexivity|]. apply strip_newlines_spec. reflexivity.
  - eexists. split; reflexivity.
Qed.

End ConsoleProperties.

Lemma read_line_strips_witness :
  read_line scripted_fgets (Some "junk"%string) 32
            [("hard" ++ String carriage_return nl)%string; "My page"%string]
  = (Some "hard"%string, ["My page"%string]).
Proof.
  destruct (read_line_strips scripted_fgets "junk"
              32 [("hard" ++ String carriage_return nl)%string; "My page"%string])
    as (kept & Hrun & _); [discriminate|].
  rewrite Hrun. vm_compute in Hrun. injection Hrun as <-. reflexivity.
Defined.

(** *** [main] *)

Section ProgramProperties.

Context {RngState Stdin : Type}.
Variable srand : Z -> RngState.
Variable rand : RngState -> N * RngState.
Variable fopen_w : string -> bool.
Variable fgets : nat -> Stdin -> option string * Stdin.


Lemma write_index_html_result (css title : option string) (d : Z) :
  exists f,
    write_index_html fopen_w css title d = (fopen_w "index.html", f) /\
    map fst (file_list f) = if fopen_w "index.html" then ["index.html"%string] else [].
Proof.
  unfold write_index_html. destruct (fopen_w "index.html"); cbn [negb].
  - eexists. split; reflexivity.
  - eexists. split; reflexivity.
Qed.

Lemma generate_one_result (p0 s0 : SudokuBoard) (d : Z)
      (css_href base_title : option string) (base_theme : option SudokuTheme)
      (w : World RngState) :
  board_wf s0 ->
  exists f w',
    generate_one srand rand fopen_w p0 s0 d css_href base_title base_theme w
    = Some (fopen_w (difficulty_file d), f, w') /\
    map fst (file_list f)
    = if fopen_w (difficulty_file d) then [difficulty_file d] else [].
Proof.
  intros Hwf.
  destruct (sudoku_generate_puzzle_succeeds srand rand p0 s0 d w Hwf) as (p & s & w' & Hgen).
  unfold generate_one. rewrite Hgen. cbn zeta.
  destruct (fopen_w (difficulty_file d)) eqn:Hopen.
  - match goal with
    | |- context [sudoku_write_html_page_with_solution fopen_w (Some ?path) (Some ?css)
                    (Some ?pz) ?sol ?theme ?dd] =>
        destruct (write_page_ok fopen_w path css pz sol theme dd Hopen) as [title ->]
    end.
    eexists _, w'. split; reflexivity.
  - unfold sudoku_write_html_page_with_solution. rewrite Hopen. cbn [negb].
    eexists _, w'. split; reflexivity.
Qed.

Lemma generate_pages_result (locals : Z -> SudokuBoard * SudokuBoard)
      (css_href base_title : option string) (theme : option SudokuTheme)
      (w : World RngState) :
  (forall d, board_wf (snd (locals d))) ->
  exists pages w',
    generate_pages srand rand fopen_w locals css_href base_title theme w
    = Some (forallb fopen_w ["sudoku_easy.html"; "sudoku_medium.html"; "sudoku_hard.html"]%string,
            pages, w') /\
    map fst pages
    = opened_until_failure fopen_w ["sudoku_easy.html"; "sudoku_medium.html"; "sudoku_hard.html"]%string.
Proof.
  intros Hwf. unfold generate_pages. cbn zeta.
  destruct (generate_one_result (fst (locals SUDOKU_DIFFICULTY_EASY))
              (snd (locals SUDOKU_DIFFICULTY_EASY)) SUDOKU_DIFFICULTY_EASY
              css_href base_title theme w (Hwf _)) as (f1 & w1 & -> & Hf1).
  change (difficulty_file SUDOKU_DIFFICULTY_EASY) with "sudoku_easy.html"%string in *.
  cbn [forallb opened_until_failure].
  destruct (fopen_w "sudoku_easy.html"); cbn [negb andb];
    [|eexists _, _; split; [reflexivity|exact Hf1]].
  destruct (generate_one_result (fst (locals SUDOKU_DIFFICULTY_MEDIUM))
              (snd (locals SUDOKU_DIFFICULTY_MEDIUM)) SUDOKU_DIFFICULTY_MEDIUM
              css_href base_title theme w1 (Hwf _)) as (f2 & w2 & -> & Hf2).
  change (difficulty_file SUDOKU_DIFFICULTY_MEDIUM) with "sudoku_medium.html"%string in *.
  destruct (fopen_w "sudoku_medium.html"); cbn [negb andb];
    [|eexists _, _; split; [reflexivity|rewrite map_app, Hf1, Hf2; reflexivity]].
  destruct (generate_one_result (fst (locals SUDOKU_DIFFICULTY_HARD))
              (snd (locals SUDOKU_DIFFICULTY_HARD)) SUDOKU_DIFFICULTY_HARD
              css_href base_title theme w2 (Hwf _)) as (f3 & w3 & -> & Hf3).
  change (difficulty_file SUDOKU_DIFFICULTY_HARD) with "sudoku_hard.html"%string in *.
  eexists _, _. split; [rewrite andb_true_r; reflexivity|].
  rewrite !map_app, Hf1, Hf2, Hf3. destruct (fopen_w "sudoku_hard.html"); reflexivity.
Qed.

(** X23: Whatever the arguments and the input, a run of the program returns
    (the generation never fails), opens [index.html] and the three puzzle
    pages in this order and stops at the first that cannot be opened: the
    exit status is 0 when all four were written and 1 otherwise, with a
    message on the standard error exactly in the second case.  The
    difficulty typed in never restricts which pages are generated. *)
Theorem main_writes_the_site (argv : list string) (now : Z)
        (locals : Z -> SudokuBoard * SudokuBoard) (diff_buf0 title_buf0 : string)
        (input : Stdin) (w : World RngState) :
  (forall d, board_wf (snd (locals d))) ->
  let site := ["index.html"; "sudoku_easy.html"; "sudoku_medium.html"; "sudoku_hard.html"]%string in
  exists o,
    main srand rand fopen_w fgets argv now locals diff_buf0 title_buf0 input w = Some o /\
    exit_status o = (if forallb fopen_w site then 0 else 1) /\
    map fst (files o) = opened_until_failure fopen_w site /\
    (stderr o = [] <-> exit_status o = 0).
Proof.
  intros Hwf site. unfold main. cbv zeta.
  assert (Hend : forall css title theme d ww so so' e1 e2,
             exists o,
               (let '(ok, index) := write_index_html fopen_w css title d in
                if negb ok then Some (mkOutcome 1 (file_list index) so [e1])
                else
                  match generate_pages srand rand fopen_w locals css title theme ww with
                  | None => None
                  | Some (ok, pages, _) =>
                      if negb ok then Some (mkOutcome 1 (file_list index ++ pages) so [e2])
                      else Some (mkOutcome 0 (file_list index ++ pages) so' [])
                  end) = Some o /\
               exit_status o = (if forallb fopen_w site then 0 else 1) /\
               map fst (files o) = opened_until_failure fopen_w site /\
               (stderr o = [] <-> exit_status o = 0)).
  { intros css title theme d ww so so' e1 e2.
    destruct (write_index_html_result css title d) as (f & -> & Hf).
    unfold site. cbn [forallb opened_until_failure] in *.
    destruct (fopen_w "index.html"); cbn [negb andb].
    - destruct (generate_pages_result locals css title theme ww Hwf) as (pages & w' & -> & Hp).
      cbn [forallb opened_until_failure] in *.
      destruct (fopen_w "sudoku_easy.html" && (fopen_w "sudoku_medium.html"
                  && (fopen_w "sudoku_hard.html" && true))); cbn [negb].
      + eexists. split; [reflexivity|]. cbn [exit_status files stderr].
        split; [reflexivity|]. split; [rewrite map_app, Hf, Hp; reflexivity|]. tauto.
      + eexists. split; [reflexivity|]. cbn [exit_status files stderr].
        split; [reflexivity|]. split; [rewrite map_app, Hf, Hp; reflexivity|].
        split; [discriminate|lia].
    - eexists. split; [reflexivity|]. cbn [exit_status files stderr].
      split; [reflexivity|]. split; [exact Hf|]. split; [discriminate|lia]. }
  destruct (match argv with _ :: a1 :: _ => (a1 =? "--all")%string | _ => false end).
  - apply Hend.
  - destruct (read_line fgets (Some diff_buf0) 32 input) as [diff_buf input1].
    destruct (read_line fgets (Some title_buf0) 128 input1) as [title_buf input2].
    apply Hend.
Qed.

End ProgramProperties.

Lemma main_writes_the_site_witness :
  exists o,
    main lcg_srand lcg_rand (fun p => negb (p =? "sudoku_hard.html")%string) scripted_fgets
         ["sudoku_app"%string] 2024 (fun _ => (empty_board, empty_board))
         EmptyString EmptyString [("3" ++ nl)%string] (mkWorld false 0)
    = Some o /\
    exit_status o = 1 /\
    map fst (files o) = ["index.html"; "sudoku_easy.html"; "sudoku_medium.html"]%string.
Proof.
  destruct (main_writes_the_site lcg_srand lcg_rand
              (fun p => negb (p =? "sudoku_hard.html")%string) scripted_fgets
              ["sudoku_app"%string] 2024 (fun _ => (empty_board, empty_board))
              EmptyString EmptyString [("3" ++ nl)%string] (mkWorld false 0))
    as (o & Hrun & Hexit & Hfiles & _).
  - intros d. apply example_boards_wf.
  - exists o. split; [exact Hrun|]. split; [exact Hexit|exact Hfiles].
Defined.
